(** * machineutil: unit reconciler, template catalog and machine handles

    A shallow embedding of the Go sources of [machineutil]
    (package [util]: [CompareOptions], [ReadUnit], [WriteUnit], [EnsureUnit],
    [SliceDiffFunc]; package [machineutil]: [Template], [TemplateVersions],
    [Templates], [machineUtil], [Machine]) together with the properties the
    specification states about them. *)

From Stdlib Require Import ZArith String Ascii List Lia Permutation Sorted.
From Stdlib Require Import DecimalString DecimalPos.
From stdpp Require Import base option list sorting gmap gmultiset strings.

Local Open Scope string_scope.
Local Open Scope list_scope.
Local Open Scope Z_scope.

(* ===================================================================== *)
(** * Package [util] *)
(* ===================================================================== *)

Module Util.

(** [unit.UnitOption] of go-systemd: a (section, name, value) triple. *)
Record UnitOption := mkOption {
  Section_ : string;
  Name : string;
  Value : string
}.

#[global] Instance UnitOption_eq_dec : EqDecision UnitOption.
Proof. solve_decision. Defined.

#[global] Instance UnitOption_countable : Countable UnitOption.
Proof.
  apply (inj_countable'
           (fun o => (Section_ o, Name o, Value o))
           (fun t => mkOption t.1.1 t.1.2 t.2)).
  by intros [].
Defined.

(** Go's [cmp.Compare] on strings: byte-wise lexicographic, -1 / 0 / +1. *)
Definition cmp_Compare (x y : string) : Z :=
  match String.compare x y with
  | Lt => -1
  | Eq => 0
  | Gt => 1
  end.

(** [func CompareOptions(a, b *unit.UnitOption) int] *)
Definition CompareOptions (a b : UnitOption) : Z :=
  let c := cmp_Compare (Section_ a) (Section_ b) in
  if negb (c =? 0) then c
  else
    let c := cmp_Compare (Name a) (Name b) in
    if negb (c =? 0) then c
    else cmp_Compare (Value a) (Value b).

(** *** Order facts about [cmp.Compare] and [CompareOptions] *)

Lemma ascii_compare_lt_trans a b c :
  Ascii.compare a b = Lt -> Ascii.compare b c = Lt -> Ascii.compare a c = Lt.
Proof.
  unfold Ascii.compare. rewrite !N.compare_lt_iff. lia.
Qed.

Lemma string_compare_refl x : String.compare x x = Eq.
Proof.
  induction x as [|a x IH]; simpl; [done|].
  unfold Ascii.compare. by rewrite N.compare_refl.
Qed.

Lemma string_compare_eq x y : String.compare x y = Eq <-> x = y.
Proof.
  split; [apply String.compare_eq_iff|intros ->; apply string_compare_refl].
Qed.

Lemma string_compare_lt_trans x y z :
  String.compare x y = Lt -> String.compare y z = Lt -> String.compare x z = Lt.
Proof.
  revert y z. induction x as [|a x IH]; intros [|b y] [|c z]; simpl; try done.
  destruct (Ascii.compare a b) eqn:Hab; try done;
    destruct (Ascii.compare b c) eqn:Hbc; try done; intros H1 H2.
  - apply Ascii.compare_eq_iff in Hab, Hbc. subst.
    unfold Ascii.compare. rewrite N.compare_refl. eauto.
  - apply Ascii.compare_eq_iff in Hab. subst. by rewrite Hbc.
  - apply Ascii.compare_eq_iff in Hbc. subst. by rewrite Hab.
  - by rewrite (ascii_compare_lt_trans a b c).
Qed.

Lemma string_compare_gt_lt x y : String.compare x y = Gt <-> String.compare y x = Lt.
Proof.
  rewrite (String.compare_antisym y x). destruct (String.compare x y); simpl; naive_solver.
Qed.

(** [slt] is the strict byte-wise order on strings. *)
Definition slt (x y : string) : Prop := String.compare x y = Lt.

Lemma slt_irrefl x : ~ slt x x.
Proof. unfold slt. by rewrite string_compare_refl. Qed.

Lemma slt_trans x y z : slt x y -> slt y z -> slt x z.
Proof. apply string_compare_lt_trans. Qed.

Lemma slt_trichotomy x y : slt x y \/ x = y \/ slt y x.
Proof.
  unfold slt. destruct (String.compare x y) eqn:H; auto.
  - apply string_compare_eq in H. auto.
  - apply string_compare_gt_lt in H. auto.
Qed.

Lemma cmp_Compare_lt x y : cmp_Compare x y < 0 <-> slt x y.
Proof. unfold cmp_Compare, slt. destruct (String.compare x y); split; (done || lia). Qed.

Lemma cmp_Compare_eq x y : cmp_Compare x y = 0 <-> x = y.
Proof.
  rewrite <- string_compare_eq. unfold cmp_Compare.
  destruct (String.compare x y); split; (done || lia).
Qed.

Lemma cmp_Compare_gt x y : cmp_Compare x y > 0 <-> slt y x.
Proof.
  unfold slt. rewrite <- string_compare_gt_lt. unfold cmp_Compare.
  destruct (String.compare x y); split; (done || lia).
Qed.

(** The strict lexicographic order on (section, name, value). *)
Definition opt_lt (a b : UnitOption) : Prop :=
  slt (Section_ a) (Section_ b) \/
  (Section_ a = Section_ b /\
   (slt (Name a) (Name b) \/ (Name a = Name b /\ slt (Value a) (Value b)))).

Ltac compare_cases :=
  repeat match goal with
         | |- context [String.compare ?x ?y] =>
             let E := fresh "E" in destruct (String.compare x y) eqn:E; simpl
         end;
  repeat match goal with
         | H : String.compare _ _ = Eq |- _ => apply string_compare_eq in H
         | H : String.compare ?x ?y = _ |- _ =>
             assert (x <> y)
               by (let E := fresh in
                   intros E; rewrite E, string_compare_refl in H; discriminate);
             clear H
         end.

Lemma CompareOptions_lt a b : CompareOptions a b < 0 <-> opt_lt a b.
Proof.
  unfold CompareOptions, opt_lt, slt, cmp_Compare.
  compare_cases; split; intros; try lia; naive_solver.
Qed.

Lemma CompareOptions_eq a b : CompareOptions a b = 0 <-> a = b.
Proof.
  split.
  - destruct a as [s1 n1 v1], b as [s2 n2 v2].
    unfold CompareOptions, cmp_Compare; simpl.
    compare_cases; intros; try lia; congruence.
  - intros ->. unfold CompareOptions, cmp_Compare.
    by rewrite !string_compare_refl.
Qed.

Lemma CompareOptions_gt a b : CompareOptions a b > 0 <-> opt_lt b a.
Proof.
  unfold CompareOptions, opt_lt, slt, cmp_Compare.
  rewrite (String.compare_antisym (Section_ a) (Section_ b)).
  rewrite (String.compare_antisym (Name a) (Name b)).
  rewrite (String.compare_antisym (Value a) (Value b)).
  compare_cases; split; intros; try lia; naive_solver.
Qed.

Lemma opt_lt_irrefl a : ~ opt_lt a a.
Proof.
  unfold opt_lt. pose proof slt_irrefl. naive_solver.
Qed.

Lemma opt_lt_trans a b c : opt_lt a b -> opt_lt b c -> opt_lt a c.
Proof.
  unfold opt_lt. pose proof slt_trans as T.
  intros [?|[E1 [?|[E2 ?]]]] [?|[E1' [?|[E2' ?]]]];
    rewrite ?E1, ?E2 in *; rewrite <- ?E1', <- ?E2' in *; eauto 8.
Qed.

Lemma opt_lt_trichotomy a b : opt_lt a b \/ a = b \/ opt_lt b a.
Proof.
  destruct (Z.lt_trichotomy (CompareOptions a b) 0) as [H|[H|H]].
  - left. by apply CompareOptions_lt.
  - right; left. by apply CompareOptions_eq.
  - right; right. apply CompareOptions_gt. lia.
Qed.

(** The non-strict order [slices.SortFunc] sorts by. *)
Definition opt_le (a b : UnitOption) : Prop := CompareOptions a b <= 0.

#[global] Instance opt_le_dec : RelDecision opt_le.
Proof. intros a b. unfold opt_le. apply _. Defined.

Lemma opt_le_alt a b : opt_le a b <-> opt_lt a b \/ a = b.
Proof.
  unfold opt_le. rewrite <- CompareOptions_lt, <- CompareOptions_eq. lia.
Qed.

#[global] Instance opt_le_refl : Reflexive opt_le.
Proof. intros a. apply opt_le_alt. by right. Qed.

#[global] Instance opt_le_trans : Transitive opt_le.
Proof.
  intros a b c. rewrite !opt_le_alt.
  intros [?| ->] [?| ->]; eauto using opt_lt_trans.
Qed.

#[global] Instance opt_le_antisym : AntiSymm (=) opt_le.
Proof.
  intros a b. rewrite !opt_le_alt. intros [?| ->] [?|?]; try done.
  destruct (opt_lt_irrefl a). eauto using opt_lt_trans.
Qed.

#[global] Instance opt_le_total : Total opt_le.
Proof.
  intros a b. rewrite !opt_le_alt.
  destruct (opt_lt_trichotomy a b) as [?|[?|?]]; auto.
Qed.

Lemma opt_lt_not_le a b : opt_lt a b -> ~ opt_le b a.
Proof.
  rewrite opt_le_alt. intros H [H'| ->].
  - destruct (opt_lt_irrefl a). eauto using opt_lt_trans.
  - by destruct (opt_lt_irrefl a).
Qed.

(** ** [SliceDiffFunc]

    The source walks both slices with two indices and appends to three
    result slices; [SliceDiffFunc_loop] is that loop on the two remaining
    suffixes [a[i:]] and [b[j:]] with the three accumulators, the two
    trailing [for] loops being the two cases where one suffix is empty. *)
Section SliceDiff.
Context {E1 E2 : Type} (cmp : E1 -> E2 -> Z).

Fixpoint SliceDiffFunc_loop (a : list E1) :
    list E2 -> list E1 -> list E2 -> list E2 ->
    list E1 * list E2 * list E2 :=
  fix inner (b : list E2) (add : list E1) (keep remove : list E2) :=
    match a, b with
    | [], _ => (add, keep, remove ++ b)
    | _, [] => (add ++ a, keep, remove)
    | x :: a', y :: b' =>
        let c := cmp x y in
        if c <? 0 then SliceDiffFunc_loop a' b (add ++ [x]) keep remove
        else if c >? 0 then inner b' add keep (remove ++ [y])
        else SliceDiffFunc_loop a' b' add (keep ++ [y]) remove
    end.

Definition SliceDiffFunc (a : list E1) (b : list E2) :
    list E1 * list E2 * list E2 :=
  SliceDiffFunc_loop a b [] [] [].

(** The same partition by direct recursion, used for reasoning. *)
Fixpoint diff3 (a : list E1) : list E2 -> list E1 * list E2 * list E2 :=
  fix inner (b : list E2) :=
    match a, b with
    | [], _ => ([], [], b)
    | _, [] => (a, [], [])
    | x :: a', y :: b' =>
        let c := cmp x y in
        if c <? 0 then
          let '(add, keep, remove) := diff3 a' b in (x :: add, keep, remove)
        else if c >? 0 then
          let '(add, keep, remove) := inner b' in (add, keep, y :: remove)
        else
          let '(add, keep, remove) := diff3 a' b' in (add, y :: keep, remove)
    end.

Lemma SliceDiffFunc_loop_nil_r a add keep remove :
  SliceDiffFunc_loop a [] add keep remove = (add ++ a, keep, remove).
Proof. destruct a; simpl; by rewrite ?app_nil_r. Qed.

Lemma SliceDiffFunc_loop_cons x a' y b' add keep remove :
  SliceDiffFunc_loop (x :: a') (y :: b') add keep remove =
  if cmp x y <? 0 then SliceDiffFunc_loop a' (y :: b') (add ++ [x]) keep remove
  else if cmp x y >? 0 then
    SliceDiffFunc_loop (x :: a') b' add keep (remove ++ [y])
  else SliceDiffFunc_loop a' b' add (keep ++ [y]) remove.
Proof. reflexivity. Qed.

Lemma diff3_nil_r a : diff3 a [] = (a, [], []).
Proof. by destruct a. Qed.

Lemma diff3_cons x a' y b' :
  diff3 (x :: a') (y :: b') =
  if cmp x y <? 0 then
    let '(add, keep, remove) := diff3 a' (y :: b') in (x :: add, keep, remove)
  else if cmp x y >? 0 then
    let '(add, keep, remove) := diff3 (x :: a') b' in (add, keep, y :: remove)
  else
    let '(add, keep, remove) := diff3 a' b' in (add, y :: keep, remove).
Proof. reflexivity. Qed.

Lemma SliceDiffFunc_loop_diff3 a b add keep remove :
  SliceDiffFunc_loop a b add keep remove =
  let '(add', keep', remove') := diff3 a b in
  (add ++ add', keep ++ keep', remove ++ remove').
Proof.
  revert b add keep remove.
  induction a as [|x a' IHa]; intros b add keep remove.
  - destruct b; simpl; by rewrite !app_nil_r.
  - induction b as [|y b' IHb] in add, keep, remove |- *.
    + rewrite SliceDiffFunc_loop_nil_r, diff3_nil_r. by rewrite !app_nil_r.
    + rewrite SliceDiffFunc_loop_cons, diff3_cons.
      destruct (cmp x y <? 0); [|destruct (cmp x y >? 0)].
      * rewrite IHa. destruct (diff3 a' (y :: b')) as [[a1 k1] r1].
        by rewrite <- app_assoc.
      * rewrite IHb. destruct (diff3 (x :: a') b') as [[a1 k1] r1].
        by rewrite <- app_assoc.
      * rewrite IHa. destruct (diff3 a' b') as [[a1 k1] r1].
        by rewrite <- app_assoc.
Qed.

Lemma SliceDiffFunc_diff3 a b : SliceDiffFunc a b = diff3 a b.
Proof.
  unfold SliceDiffFunc. rewrite SliceDiffFunc_loop_diff3.
  by destruct (diff3 a b) as [[? ?] ?].
Qed.
End SliceDiff.

(** ** The diff on option lists sorted by [CompareOptions] *)

Lemma sublist_StronglySorted {A} (R : relation A) l k :
  l `sublist_of` k -> StronglySorted R k -> StronglySorted R l.
Proof.
  induction 1 as [|x l1 l2 Hsub IH|x l1 l2 Hsub IH]; intros Hk.
  - constructor.
  - apply StronglySorted_inv in Hk as [Hk Hx]. constructor; [by apply IH|].
    rewrite Forall_forall in Hx |- *. eauto using elem_of_sublist.
  - apply StronglySorted_inv in Hk as [Hk _]. by apply IH.
Qed.

Section DiffGeneric.
Context {E1 E2 : Type} (cmp : E1 -> E2 -> Z).

(** [add] is a subsequence of [a]; [keep] and [remove] are subsequences
    of [b], for any comparison function. *)
Lemma diff3_sublist a b :
  (diff3 cmp a b).1.1 `sublist_of` a /\
  (diff3 cmp a b).1.2 `sublist_of` b /\
  (diff3 cmp a b).2 `sublist_of` b.
Proof.
  revert b. induction a as [|x a' IHa]; intros b.
  - destruct b; simpl; repeat split; (done || apply sublist_nil_l).
  - induction b as [|y b' IHb].
    + rewrite diff3_nil_r. by repeat split.
    + rewrite diff3_cons.
      destruct (cmp x y <? 0); [|destruct (cmp x y >? 0)].
      * destruct (IHa (y :: b')) as (?&?&?).
        destruct (diff3 cmp a' (y :: b')) as [[a1 k1] r1]; simpl in *.
        repeat split; try done. by apply sublist_skip.
      * destruct IHb as (?&?&?).
        destruct (diff3 cmp (x :: a') b') as [[a1 k1] r1]; simpl in *.
        repeat split; try done; by constructor.
      * destruct (IHa b') as (?&?&?).
        destruct (diff3 cmp a' b') as [[a1 k1] r1]; simpl in *.
        repeat split; by constructor.
Qed.
End DiffGeneric.

Abbreviation mset l := (list_to_set_disj (C:=gmultiset UnitOption) l).

Ltac multiplicity_solve :=
  repeat match goal with
         | H : _ ∉ _ |- _ => apply not_elem_of_multiplicity in H
         end;
  repeat split; apply gmultiset_eq; intros ?z;
  repeat match goal with
         | H : context [multiplicity _ (_ ⊎ _)] |- _ =>
             rewrite multiplicity_disj_union in H
         end;
  repeat (rewrite ?multiplicity_difference, ?multiplicity_intersection,
            ?multiplicity_disj_union, ?multiplicity_empty);
  repeat match goal with
         | |- context [multiplicity ?u {[+ ?v +]}] =>
             destruct (decide (u = v)) as [->|];
             [rewrite ?multiplicity_singleton_eq in *
             |rewrite ?(multiplicity_singleton_ne u v) in * by done]
         end;
  lia.

Lemma lt_head_not_elem x y b :
  opt_lt x y -> StronglySorted opt_le (y :: b) -> x ∉ y :: b.
Proof.
  intros Hlt Hs Hin. apply StronglySorted_inv in Hs as [_ Hy].
  apply elem_of_cons in Hin as [->|Hin].
  - by apply (opt_lt_irrefl y).
  - rewrite Forall_forall in Hy. apply (opt_lt_not_le x y Hlt). by apply Hy.
Qed.

(** On sorted inputs the three parts are the multiset difference, the
    multiset intersection and the reverse multiset difference. *)
Lemma diff3_multiset a b :
  StronglySorted opt_le a -> StronglySorted opt_le b ->
  mset (diff3 CompareOptions a b).1.1 = mset a ∖ mset b /\
  mset (diff3 CompareOptions a b).1.2 = mset a ∩ mset b /\
  mset (diff3 CompareOptions a b).2 = mset b ∖ mset a.
Proof.
  revert b. induction a as [|x a' IHa]; intros b Ha Hb.
  - destruct b; simpl; rewrite ?list_to_set_disj_nil; multiplicity_solve.
  - induction b as [|y b' IHb].
    + rewrite diff3_nil_r; simpl. rewrite ?list_to_set_disj_nil. multiplicity_solve.
    + rewrite diff3_cons.
      pose proof (StronglySorted_inv Ha) as [Ha' _].
      pose proof (StronglySorted_inv Hb) as [Hb' _].
      destruct (Z.ltb_spec (CompareOptions x y) 0) as [Hlt|Hge].
      * apply CompareOptions_lt in Hlt.
        pose proof (lt_head_not_elem x y b' Hlt Hb) as Hx.
        rewrite <- elem_of_list_to_set_disj in Hx.
        destruct (IHa (y :: b') Ha' Hb) as (H1&H2&H3).
        destruct (diff3 CompareOptions a' (y :: b')) as [[a1 k1] r1].
        simpl in *. rewrite ?list_to_set_disj_cons, H1, H2, H3. clear H1 H2 H3 IHa IHb.
        multiplicity_solve.
      * destruct (Z.gtb_spec (CompareOptions x y) 0) as [Hgt|Hle].
        -- assert (opt_lt y x) as Hlt by (apply CompareOptions_gt; lia).
           pose proof (lt_head_not_elem y x a' Hlt Ha) as Hy.
           rewrite <- elem_of_list_to_set_disj in Hy.
           destruct (IHb Hb') as (H1&H2&H3).
           destruct (diff3 CompareOptions (x :: a') b') as [[a1 k1] r1].
           simpl in *. rewrite ?list_to_set_disj_cons, H1, H2, H3. clear H1 H2 H3 IHa IHb.
           multiplicity_solve.
        -- assert (x = y) as -> by (apply CompareOptions_eq; lia).
           destruct (IHa b' Ha' Hb') as (H1&H2&H3).
           destruct (diff3 CompareOptions a' b') as [[a1 k1] r1].
           simpl in *. rewrite ?list_to_set_disj_cons, H1, H2, H3. clear H1 H2 H3 IHa IHb.
           multiplicity_solve.
Qed.

(** Whatever the order of the inputs, [add] and [keep] together hold the
    elements of [a], and [remove] and [keep] those of [b]. *)
Lemma diff3_Permutation a b :
  (diff3 CompareOptions a b).1.1 ++ (diff3 CompareOptions a b).1.2 ≡ₚ a /\
  (diff3 CompareOptions a b).2 ++ (diff3 CompareOptions a b).1.2 ≡ₚ b.
Proof.
  revert b. induction a as [|x a' IHa]; intros b.
  - destruct b; simpl; by rewrite ?app_nil_r.
  - induction b as [|y b' IHb].
    + rewrite diff3_nil_r; simpl. by rewrite app_nil_r.
    + rewrite diff3_cons.
      destruct (Z.ltb_spec (CompareOptions x y) 0) as [Hlt|Hge].
      * destruct (IHa (y :: b')) as [H1 H2].
        destruct (diff3 CompareOptions a' (y :: b')) as [[a1 k1] r1].
        simpl in *. split; [by f_equiv|done].
      * destruct (Z.gtb_spec (CompareOptions x y) 0) as [Hgt|Hle].
        -- destruct IHb as [H1 H2].
           destruct (diff3 CompareOptions (x :: a') b') as [[a1 k1] r1].
           simpl in *. split; [done|by f_equiv].
        -- assert (x = y) as -> by (apply CompareOptions_eq; lia).
           destruct (IHa b') as [H1 H2].
           destruct (diff3 CompareOptions a' b') as [[a1 k1] r1].
           simpl in *. split.
           ++ rewrite <- Permutation_middle. by f_equiv.
           ++ rewrite <- Permutation_middle. by f_equiv.
Qed.

(** Merging [add] and [keep] in the sorted order gives back [a]. *)
Lemma diff3_merge a b :
  StronglySorted opt_le a -> StronglySorted opt_le b ->
  list_merge opt_le (diff3 CompareOptions a b).1.1
                    (diff3 CompareOptions a b).1.2 = a.
Proof.
  intros Ha Hb.
  destruct (diff3_sublist CompareOptions a b) as (Hs1&Hs2&_).
  destruct (diff3_Permutation a b) as [Hp _].
  apply (Sorted_unique opt_le).
  - apply Sorted_list_merge; [apply _|..]; apply StronglySorted_Sorted;
      eauto using sublist_StronglySorted.
  - by apply StronglySorted_Sorted.
  - by rewrite merge_Permutation.
Qed.

(** ** [slices.SortFunc] and [slices.Clone]

    [slices.SortFunc(opts, CompareOptions)] leaves a permutation of [opts]
    that is sorted by [CompareOptions].  Two options compare equal only
    when they are the same triple, so that permutation is unique
    ([SortFunc_unique]) and a merge sort computes it. *)
Definition slices_SortFunc (opts : list UnitOption) : list UnitOption :=
  merge_sort opt_le opts.

Definition slices_Clone (opts : list UnitOption) : list UnitOption := opts.

Lemma SortFunc_Sorted l : Sorted opt_le (slices_SortFunc l).
Proof. apply Sorted_merge_sort, _. Qed.

Lemma SortFunc_StronglySorted l : StronglySorted opt_le (slices_SortFunc l).
Proof. apply Sorted_StronglySorted; [apply _|apply SortFunc_Sorted]. Qed.

Lemma SortFunc_Permutation l : slices_SortFunc l ≡ₚ l.
Proof. apply merge_sort_Permutation. Qed.

Lemma SortFunc_unique l k : Sorted opt_le k -> k ≡ₚ l -> k = slices_SortFunc l.
Proof.
  intros Hk Hp. apply (Sorted_unique opt_le); [done|apply SortFunc_Sorted|].
  by rewrite SortFunc_Permutation.
Qed.

Lemma SortFunc_perm_eq l k : l ≡ₚ k -> slices_SortFunc l = slices_SortFunc k.
Proof.
  intros Hp. apply SortFunc_unique; [apply SortFunc_Sorted|].
  by rewrite SortFunc_Permutation.
Qed.

Lemma SortFunc_sorted_id l : Sorted opt_le l -> slices_SortFunc l = l.
Proof. intros Hl. symmetry. by apply SortFunc_unique. Qed.

(** ** The file system, the logger and the unit-file codec *)

(** The calls of package [os] (and [io.Copy]) the reconciler makes. *)
Inductive syscall := SysStat | SysOpen | SysRemove | SysMkdirAll | SysCreate | SysCopy.

(** An [error] value: a failed call on a path, or a parse failure of
    [unit.Deserialize]. *)
Inductive error :=
  | OsError (call : syscall) (path : string)
  | DeserializeError (msg : string).

(** Mutating file-system calls, as issued. [EvMkdirAll p] stands for
    [os.MkdirAll(filepath.Dir(p), 0755)]. *)
Inductive fs_event :=
  | EvRemove (path : string)
  | EvMkdirAll (path : string)
  | EvCreate (path : string)
  | EvWrite (path : string) (data : string).

(** [log/slog]: a logger carries the attributes given to [With]; a record
    is a level, a message, the logger's attributes and the call's
    arguments. *)
Inductive Level := LevelDebug | LevelInfo.

Definition Logger := list (string * string).

Record LogRecord := mkRecord {
  rec_level : Level;
  rec_msg : string;
  rec_attrs : list (string * string);
  rec_args : list string
}.

(** The world the reconciler runs in: the regular files by path, the calls
    that fail (with an error other than "does not exist") by path, the
    mutating calls issued so far, and the log records emitted so far. *)
Record World := mkWorld {
  files : gmap string string;
  faulty : syscall -> string -> bool;
  fs_trace : list fs_event;
  log_out : list LogRecord
}.

Definition set_files (f : gmap string string) (ev : fs_event) (w : World) : World :=
  {| files := f; faulty := faulty w;
     fs_trace := fs_trace w ++ [ev]; log_out := log_out w |}.

Definition emit (r : LogRecord) (w : World) : World :=
  {| files := files w; faulty := faulty w;
     fs_trace := fs_trace w; log_out := log_out w ++ [r] |}.

Inductive stat_result := StatOk | StatNotExist | StatErr (e : error).

(** [os.Stat]: an error for which [os.IsNotExist] holds, another error,
    or success. *)
Definition os_Stat (path : string) (w : World) : stat_result :=
  if faulty w SysStat path then StatErr (OsError SysStat path)
  else match files w !! path with
       | Some _ => StatOk
       | None => StatNotExist
       end.

(** [os.Open] followed by reading the whole file. *)
Definition os_Open (path : string) (w : World) : error + string :=
  if faulty w SysOpen path then inl (OsError SysOpen path)
  else match files w !! path with
       | Some data => inr data
       | None => inl (OsError SysOpen path)
       end.

Definition os_Remove (path : string) (w : World) : option error * World :=
  if faulty w SysRemove path then (Some (OsError SysRemove path), w)
  else match files w !! path with
       | Some _ => (None, set_files (delete path (files w)) (EvRemove path) w)
       | None => (Some (OsError SysRemove path), w)
       end.

Definition os_MkdirAll_Dir (path : string) (w : World) : option error * World :=
  if faulty w SysMkdirAll path then (Some (OsError SysMkdirAll path), w)
  else (None, set_files (files w) (EvMkdirAll path) w).

(** [os.Create] truncates the file. *)
Definition os_Create (path : string) (w : World) : option error * World :=
  if faulty w SysCreate path then (Some (OsError SysCreate path), w)
  else (None, set_files (<[path := ""]> (files w)) (EvCreate path) w).

Definition io_Copy (path : string) (data : string) (w : World) : option error * World :=
  if faulty w SysCopy path then (Some (OsError SysCopy path), w)
  else (None, set_files (<[path := data]> (files w)) (EvWrite path data) w).

(** [unit.Serialize] and [unit.Deserialize] belong to go-systemd; the
    reconciler is written against them and so is the model. *)
Class UnitCodec := {
  Serialize : list UnitOption -> string;
  Deserialize : string -> error + list UnitOption
}.

Section Reconciler.
Context `{codec : UnitCodec}.

(** [func ReadUnit(file_path string, sorted bool) ([]*unit.UnitOption, error)] *)
Definition ReadUnit (file_path : string) (sorted : bool) (w : World) :
    list UnitOption * option error :=
  match os_Stat file_path w with
  | StatNotExist => ([], None)
  | StatErr err => ([], Some err)
  | StatOk =>
      match os_Open file_path w with
      | inl err => ([], Some err)
      | inr f =>
          match Deserialize f with
          | inl err => ([], Some err)
          | inr opts =>
              (if sorted then slices_SortFunc opts else opts, None)
          end
      end
  end.

(** [func WriteUnit(file_path string, opts []*unit.UnitOption) error] *)
Definition WriteUnit (file_path : string) (opts : list UnitOption) (w : World) :
    option error * World :=
  match os_Stat file_path w with
  | StatErr err => (Some err, w)
  | st =>
      let exists_ := match st with StatNotExist => false | _ => true end in
      if (length opts =? 0)%nat then
        if exists_ then os_Remove file_path w else (None, w)
      else
        match os_MkdirAll_Dir file_path w with
        | (Some err, w1) => (Some err, w1)
        | (None, w1) =>
            match os_Create file_path w1 with
            | (Some err, w2) => (Some err, w2)
            | (None, w2) => io_Copy file_path (Serialize opts) w2
            end
        end
  end.

(** [func LogOption(opt *unit.UnitOption) []any] *)
Definition LogOption (opt : UnitOption) : list string :=
  ["section"; Section_ opt; "option"; Name opt; "value"; Value opt].

Definition log_each (unit_log : Logger) (lvl : Level) (msg : string)
    (opts : list UnitOption) (w : World) : World :=
  foldl (fun w opt => emit (mkRecord lvl msg unit_log (LogOption opt)) w) w opts.

(** [func EnsureUnit(log *slog.Logger, file_path string,
                     in_opts []*unit.UnitOption) (bool, error)];
    a [nil] logger is [None]. *)
Definition EnsureUnit (log : option Logger) (file_path : string)
    (in_opts : list UnitOption) (w : World) : (bool * option error) * World :=
  match ReadUnit file_path true w with
  | (_, Some err) => ((false, Some err), w)
  | (unit_opts, None) =>
      let opts := slices_SortFunc (slices_Clone in_opts) in
      let '(add, keep, remove) := SliceDiffFunc CompareOptions opts unit_opts in
      let w :=
        match log with
        | Some log =>
            let unit_log := log ++ [("unit", file_path)] in
            let w := log_each unit_log LevelInfo "Add" add w in
            let w := log_each unit_log LevelDebug "Keep" keep w in
            log_each unit_log LevelInfo "Remove" remove w
        | None => w
        end in
      if (length add =? 0)%nat && (length remove =? 0)%nat then
        ((false, None), w)
      else
        let '(err, w) := WriteUnit file_path opts w in ((true, err), w)
  end.

End Reconciler.

(** ** A plain unit-file codec

    An instance of [UnitCodec] in the format of unit files
    ([[Section]] header lines followed by [Name=Value] lines, sections in
    the order they first appear, a blank line between sections), with a
    line-by-line reader for that format.  It is what the model is run on. *)

Fixpoint split_lines (s : string) : list string :=
  match s with
  | EmptyString => [""]
  | String c s' =>
      if Ascii.eqb c "010" then "" :: split_lines s'
      else match split_lines s' with
           | [] => [String c ""]
           | l :: ls => String c l :: ls
           end
  end.

Fixpoint cut_at (c : ascii) (s : string) : option (string * string) :=
  match s with
  | EmptyString => None
  | String a s' =>
      if Ascii.eqb a c then Some ("", s')
      else match cut_at c s' with
           | Some (x, y) => Some (String a x, y)
           | None => None
           end
  end.

Definition plain_Serialize (opts : list UnitOption) : string :=
  let sections := remove_dups (map Section_ opts) in
  let body (sect : string) : string :=
    "[" +:+ sect +:+ "]" +:+ String "010" "" +:+
    foldr (fun o acc => Name o +:+ "=" +:+ Value o +:+ String "010" "" +:+ acc) ""
      (filter (fun o => Section_ o = sect) opts) in
  String.concat (String "010" "") (map body sections).

Fixpoint plain_parse (sect : string) (ls : list string) : error + list UnitOption :=
  match ls with
  | [] => inr []
  | l :: ls' =>
      match l with
      | EmptyString => plain_parse sect ls'
      | String "[" rest =>
          match cut_at "]" rest with
          | Some (name, EmptyString) => plain_parse name ls'
          | _ => inl (DeserializeError l)
          end
      | _ =>
          match cut_at "=" l with
          | Some (k, v) =>
              match plain_parse sect ls' with
              | inr opts => inr (mkOption sect k v :: opts)
              | inl e => inl e
              end
          | None => inl (DeserializeError l)
          end
      end
  end.

Definition plain_Deserialize (data : string) : error + list UnitOption :=
  plain_parse "" (split_lines data).

Definition plain_codec : UnitCodec :=
  {| Serialize := plain_Serialize; Deserialize := plain_Deserialize |}.

(** [go-systemd]'s reader trims the white space around an option's name
    and around its value ([strings.TrimSpace]); its writer writes both as
    they are.  [trimming_codec] is the plain codec with that trimming on
    reading. *)
Definition is_space (c : ascii) : bool :=
  bool_decide (c ∈ [" "; "009"; "010"; "011"; "012"; "013"]%char).

Fixpoint trim_left (s : string) : string :=
  match s with
  | String c s' => if is_space c then trim_left s' else s
  | EmptyString => EmptyString
  end.

Fixpoint trim_right (s : string) : string :=
  match s with
  | EmptyString => EmptyString
  | String c s' =>
      match trim_right s' with
      | EmptyString => if is_space c then EmptyString else String c EmptyString
      | rest => String c rest
      end
  end.

Definition strings_TrimSpace (s : string) : string := trim_right (trim_left s).

Definition trimming_Deserialize (data : string) : error + list UnitOption :=
  match plain_Deserialize data with
  | inl err => inl err
  | inr opts =>
      inr (map (fun o => mkOption (Section_ o) (strings_TrimSpace (Name o))
                                  (strings_TrimSpace (Value o))) opts)
  end.

Definition trimming_codec : UnitCodec :=
  {| Serialize := plain_Serialize; Deserialize := trimming_Deserialize |}.

(** A world with no file and no failing call. *)
Definition empty_world : World :=
  {| files := ∅; faulty := fun _ _ => false; fs_trace := []; log_out := [] |}.

(** ** Facts about the reconciler *)

(** No change is reported exactly when both lists are the same. *)
Lemma diff3_same a : diff3 CompareOptions a a = ([], a, []).
Proof.
  induction a as [|x a IH]; [done|].
  rewrite diff3_cons.
  assert (CompareOptions x x = 0) as -> by by apply CompareOptions_eq.
  simpl. by rewrite IH.
Qed.

Lemma diff3_unchanged_eq a b :
  (diff3 CompareOptions a b).1.1 = [] -> (diff3 CompareOptions a b).2 = [] -> a = b.
Proof.
  revert b. induction a as [|x a' IHa]; intros b.
  - destruct b; simpl; done.
  - induction b as [|y b' IHb].
    + by rewrite diff3_nil_r.
    + rewrite diff3_cons.
      destruct (Z.ltb_spec (CompareOptions x y) 0) as [Hlt|Hge].
      * by destruct (diff3 CompareOptions a' (y :: b')) as [[a1 k1] r1].
      * destruct (Z.gtb_spec (CompareOptions x y) 0) as [Hgt|Hle].
        -- by destruct (diff3 CompareOptions (x :: a') b') as [[a1 k1] r1].
        -- assert (x = y) as -> by (apply CompareOptions_eq; lia).
           specialize (IHa b').
           destruct (diff3 CompareOptions a' b') as [[a1 k1] r1]; simpl in *.
           intros. f_equal. by apply IHa.
Qed.

(** Two worlds with the same file system (they may differ in what was
    logged). *)
Definition fs_eq (w w' : World) : Prop :=
  files w = files w' /\ faulty w = faulty w' /\ fs_trace w = fs_trace w'.

#[global] Instance fs_eq_equiv : Equivalence fs_eq.
Proof.
  unfold fs_eq. split.
  - by intros w.
  - intros w w'. naive_solver.
  - intros w1 w2 w3 (?&?&?) (?&?&?). repeat split; congruence.
Qed.

Section ReconcilerFacts.
Context `{codec : UnitCodec}.

Lemma log_each_fs_eq unit_log lvl msg opts w :
  fs_eq w (log_each unit_log lvl msg opts w).
Proof.
  revert w. induction opts as [|o opts IH]; intros w; simpl; [done|].
  etrans; [|apply IH]. done.
Qed.

Lemma log_each_nil unit_log lvl msg w : log_each unit_log lvl msg [] w = w.
Proof. done. Qed.

Lemma os_Stat_fs_eq p w w' : fs_eq w w' -> os_Stat p w = os_Stat p w'.
Proof. intros (Hf&Hq&_). unfold os_Stat. by rewrite Hf, Hq. Qed.

Lemma ReadUnit_fs_eq p sorted w w' :
  fs_eq w w' -> ReadUnit p sorted w = ReadUnit p sorted w'.
Proof.
  intros H. unfold ReadUnit. rewrite (os_Stat_fs_eq p w w' H).
  destruct H as (Hf&Hq&_). unfold os_Open. by rewrite Hf, Hq.
Qed.

(** What [ReadUnit] returns without an error is sorted when asked to. *)
Lemma ReadUnit_sorted p w B :
  ReadUnit p true w = (B, None) -> Sorted opt_le B.
Proof.
  unfold ReadUnit.
  destruct (os_Stat p w); [|intros [= <-]; constructor|done].
  destruct (os_Open p w) as [|f]; [done|].
  destruct (Deserialize f) as [|opts]; [done|].
  intros [= <-]. apply SortFunc_Sorted.
Qed.

(** [WriteUnit] when no call on the path fails: afterwards the path holds
    the serialized options, or nothing if there are none. *)
Lemma WriteUnit_ok p opts w :
  (forall c, faulty w c p = false) ->
  exists w',
    WriteUnit p opts w = (None, w') /\
    faulty w' = faulty w /\ log_out w' = log_out w /\
    files w' = match opts with
               | [] => delete p (files w)
               | _ => <[p := Serialize opts]> (files w)
               end.
Proof.
  intros Hf. unfold WriteUnit, os_Stat. rewrite Hf.
  destruct opts as [|o opts]; simpl.
  - destruct (files w !! p) eqn:Hp.
    + unfold os_Remove, set_files. rewrite Hf, Hp. eauto.
    + exists w. by rewrite delete_id.
  - unfold os_MkdirAll_Dir, os_Create, io_Copy, set_files.
    destruct (files w !! p); repeat (simpl; rewrite Hf); simpl;
      (eexists; split; [reflexivity|]); simpl; by rewrite insert_insert_eq.
Qed.

(** [EnsureUnit] once the current options [B] have been read. *)
Lemma EnsureUnit_read log p A w B :
  ReadUnit p true w = (B, None) ->
  exists wl, fs_eq w wl /\
    EnsureUnit log p A w =
      if decide (slices_SortFunc A = B) then ((false, None), wl)
      else let '(err, w') := WriteUnit p (slices_SortFunc A) wl in
           ((true, err), w').
Proof.
  intros Hr. unfold EnsureUnit. rewrite Hr. unfold slices_Clone.
  rewrite SliceDiffFunc_diff3.
  destruct (decide (slices_SortFunc A = B)) as [Heq|Hne].
  - rewrite <- Heq, diff3_same. simpl.
    eexists; split; [|reflexivity].
    destruct log; [|done]. repeat (etrans; [|apply log_each_fs_eq]). done.
  - pose proof (diff3_unchanged_eq (slices_SortFunc A) B) as Hu.
    destruct (diff3 CompareOptions (slices_SortFunc A) B) as [[add keep] remove].
    simpl in Hu.
    assert ((length add =? 0)%nat && (length remove =? 0)%nat = false) as ->.
    { destruct add, remove; simpl; try done. by destruct Hne; apply Hu. }
    eexists; split; [|reflexivity].
    destruct log; [|done]. repeat (etrans; [|apply log_each_fs_eq]). done.
Qed.
End ReconcilerFacts.

(** ** Properties of the unit reconciler *)

Abbreviation oset l := (list_to_set (C:=gset UnitOption) l).

(** The partition read as sets of triples. *)
Definition diff_as_sets (A B : list UnitOption) : Prop :=
  let '(add, keep, remove) := SliceDiffFunc CompareOptions A B in
  oset add = oset A ∖ oset B /\
  oset remove = oset B ∖ oset A /\
  oset keep = oset A ∩ oset B /\
  list_merge opt_le add keep = A.

(** The partition read as multisets of triples. *)
Definition diff_as_multisets (A B : list UnitOption) : Prop :=
  let '(add, keep, remove) := SliceDiffFunc CompareOptions A B in
  mset add = mset A ∖ mset B /\
  mset remove = mset B ∖ mset A /\
  mset keep = mset A ∩ mset B /\
  list_merge opt_le add keep = A.

Definition boot_yes : UnitOption := mkOption "Exec" "Boot" "yes".
Definition bridge_br0 : UnitOption := mkOption "Network" "Bridge" "br0".

(** C1, as stated, fails on sorted lists that repeat a triple: with
    desired [boot_yes; boot_yes] and current [boot_yes] the second copy is
    put in [add], so [add] is not the set difference (which is empty). *)
Lemma SliceDiffFunc_sets_counterexample :
  Sorted opt_le [boot_yes; boot_yes] /\ Sorted opt_le [boot_yes] /\
  SliceDiffFunc CompareOptions [boot_yes; boot_yes] [boot_yes]
    = ([boot_yes], [boot_yes], []) /\
  ~ diff_as_sets [boot_yes; boot_yes] [boot_yes].
Proof.
  split; [|split; [|split]].
  - repeat constructor. apply opt_le_refl.
  - repeat constructor.
  - reflexivity.
  - unfold diff_as_sets.
    change (SliceDiffFunc CompareOptions [boot_yes; boot_yes] [boot_yes])
      with ([boot_yes], [boot_yes], @nil UnitOption).
    intros (Hadd & _).
    assert (boot_yes ∈ oset [boot_yes]) as Hin by set_solver.
    rewrite Hadd in Hin. set_solver.
Qed.

Lemma NoDup_multiplicity (l : list UnitOption) x :
  NoDup l -> (multiplicity x (mset l) <= 1)%nat.
Proof.
  induction 1 as [|y l Hy Hl IH]; simpl.
  - rewrite multiplicity_empty. lia.
  - rewrite multiplicity_disj_union.
    destruct (decide (x = y)) as [->|].
    + rewrite multiplicity_singleton_eq.
      rewrite <- elem_of_list_to_set_disj in Hy.
      apply not_elem_of_multiplicity in Hy. lia.
    + rewrite multiplicity_singleton_ne by done. lia.
Qed.

(** On sorted lists without repeated triples the set reading holds. *)
Lemma SliceDiffFunc_set_partition (A B : list UnitOption) :
  NoDup A -> NoDup B -> Sorted opt_le A -> Sorted opt_le B -> diff_as_sets A B.
Proof.
  intros HnA HnB HA HB. unfold diff_as_sets.
  apply (Sorted_StronglySorted _) in HA, HB.
  rewrite SliceDiffFunc_diff3.
  pose proof (diff3_multiset A B HA HB) as (H1 & H3 & H2).
  pose proof (diff3_merge A B HA HB) as H4.
  destruct (diff3 CompareOptions A B) as [[add keep] remove]. simpl in *.
  assert (forall x l, x ∈ oset l <-> (0 < multiplicity x (mset l))%nat) as Hm.
  { intros x l.
    by rewrite elem_of_list_to_set, <- elem_of_multiplicity, elem_of_list_to_set_disj. }
  repeat split; [| | |done]; apply set_eq; intros x;
    pose proof (NoDup_multiplicity A x HnA);
    pose proof (NoDup_multiplicity B x HnB);
    rewrite ?elem_of_difference, ?elem_of_intersection, !Hm, ?H1, ?H2, ?H3;
    rewrite ?multiplicity_difference, ?multiplicity_intersection; lia.
Qed.

(** C1 (amended): for option lists A (desired) and B (current) sorted by
    [CompareOptions], [SliceDiffFunc] returns (add, keep, remove) with, as
    multisets of triples, add = A - B, remove = B - A and keep = A ∩ B, and
    merging add and keep in the sorted order gives back exactly A; when
    neither list repeats a triple, the same holds as sets. *)
Theorem SliceDiffFunc_multiset_partition (A B : list UnitOption) :
  Sorted opt_le A -> Sorted opt_le B ->
  diff_as_multisets A B /\ (NoDup A -> NoDup B -> diff_as_sets A B).
Proof.
  intros HA HB. split.
  - unfold diff_as_multisets.
    apply (Sorted_StronglySorted _) in HA, HB.
    rewrite SliceDiffFunc_diff3.
    pose proof (diff3_multiset A B HA HB) as (H1 & H2 & H3).
    pose proof (diff3_merge A B HA HB) as H4.
    by destruct (diff3 CompareOptions A B) as [[add keep] remove].
  - intros HnA HnB. by apply SliceDiffFunc_set_partition.
Qed.

Lemma SliceDiffFunc_multiset_partition_witness :
  diff_as_multisets [boot_yes; boot_yes; bridge_br0] [boot_yes] /\
  (NoDup [boot_yes; boot_yes; bridge_br0] -> NoDup [boot_yes] ->
   diff_as_sets [boot_yes; boot_yes; bridge_br0] [boot_yes]).
Proof.
  apply SliceDiffFunc_multiset_partition.
  - repeat constructor; by vm_compute.
  - repeat constructor.
Defined.

Section ReconcilerProperties.
Context `{codec : UnitCodec}.

(** C2 (amended): with no failing call on the path, a readable current
    file and a codec that reads back what it wrote for the desired list
    (which the claim as stated does not ask for), the first
    [EnsureUnit] returns without error, with [true] when the persisted set
    differs from the desired one (exactly: when the sorted lists differ);
    the file read back and sorted is then the sorted desired list; and a
    second [EnsureUnit] with the same list returns [false] and leaves the
    file system as it is. *)
Theorem EnsureUnit_idempotent log (p : string) (A B : list UnitOption) (w : World) :
  (forall c, faulty w c p = false) ->
  ReadUnit p true w = (B, None) ->
  (exists l, Deserialize (Serialize (slices_SortFunc A)) = inr l /\
             l ≡ₚ slices_SortFunc A) ->
  exists changed w1 w2,
    EnsureUnit log p A w = ((changed, None), w1) /\
    changed = bool_decide (slices_SortFunc A <> B) /\
    (oset A <> oset B -> changed = true) /\
    ReadUnit p true w1 = (slices_SortFunc A, None) /\
    EnsureUnit log p A w1 = ((false, None), w2) /\
    fs_eq w1 w2.
Proof.
  intros Hf Hr (l & Hl & Hlp).
  destruct (EnsureUnit_read log p A w B Hr) as (wl & Hwl & He).
  assert (exists changed w1,
    EnsureUnit log p A w = ((changed, None), w1) /\
    changed = bool_decide (slices_SortFunc A <> B) /\
    ReadUnit p true w1 = (slices_SortFunc A, None)) as (changed & w1 & H1 & H2 & H3).
  { rewrite He. destruct (decide (slices_SortFunc A = B)) as [Heq|Hne].
    - exists false, wl. split; [done|]. split.
      + symmetry. apply bool_decide_eq_false. by intros [].
      + by rewrite <- (ReadUnit_fs_eq p true w wl Hwl), Heq.
    - destruct (WriteUnit_ok p (slices_SortFunc A) wl) as (w1 & Hw & Hq & _ & Hfiles).
      { intros c. destruct Hwl as (_ & <- & _). apply Hf. }
      rewrite Hw. exists true, w1. split; [done|]. split.
      + symmetry. by apply bool_decide_eq_true.
      + assert (forall c, faulty w1 c p = false) as Hf1.
        { intros c. rewrite Hq. destruct Hwl as (_ & <- & _). apply Hf. }
        unfold ReadUnit, os_Stat, os_Open. rewrite !Hf1, Hfiles.
        destruct (slices_SortFunc A) as [|o opts] eqn:Hs.
        * by rewrite lookup_delete_eq.
        * rewrite lookup_insert_eq, Hl. f_equal.
          rewrite (SortFunc_perm_eq _ _ Hlp), <- Hs.
          apply SortFunc_sorted_id, SortFunc_Sorted. }
  destruct (EnsureUnit_read log p A w1 _ H3) as (w2 & Hw2 & He2).
  rewrite decide_True in He2 by done.
  exists changed, w1, w2. repeat split; try done; try apply Hw2.
  intros Hne. rewrite H2. apply bool_decide_eq_true. intros <-.
  apply Hne. apply list_to_set_perm_L. symmetry. apply SortFunc_Permutation.
Qed.

(** C3: [EnsureUnit] with an empty desired list deletes an existing file
    that holds at least one option and returns [true]; on a path with no
    file it returns [false] and issues no file-system call that writes. *)
Theorem EnsureUnit_empty_desired log (p : string) (w : World) :
  (forall data B,
     files w !! p = Some data -> Deserialize data = inr B -> B <> [] ->
     faulty w SysStat p = false -> faulty w SysOpen p = false ->
     faulty w SysRemove p = false ->
     exists w', EnsureUnit log p [] w = ((true, None), w') /\
                files w' = delete p (files w) /\
                fs_trace w' = fs_trace w ++ [EvRemove p]) /\
  (files w !! p = None -> faulty w SysStat p = false ->
   EnsureUnit log p [] w = ((false, None), w)).
Proof.
  split.
  - intros data B Hp Hd HB Hs Ho Hrm.
    assert (ReadUnit p true w = (slices_SortFunc B, None)) as Hr.
    { unfold ReadUnit, os_Stat, os_Open. by rewrite Hs, Ho, Hp, Hd. }
    destruct (EnsureUnit_read log p [] w _ Hr) as (wl & (Hfl & Hql & Htl) & He).
    rewrite He. rewrite decide_False.
    + unfold WriteUnit, os_Stat, os_Remove. rewrite <- Hql, <- Hfl, Hs, Hp.
      simpl. rewrite Hrm. eexists. split; [reflexivity|]. simpl.
      by rewrite Htl.
    + intros Heq. apply HB. apply Permutation_nil_r.
      rewrite <- (SortFunc_Permutation B). by rewrite <- Heq.
  - intros Hp Hs. unfold EnsureUnit, ReadUnit, os_Stat. rewrite Hs, Hp.
    by destruct log.
Qed.

(** C4: when the diff of the sorted desired list against the options read
    has nothing to add and nothing to remove, [EnsureUnit] returns [false]
    without error and the files, the failing calls and the list of issued
    write calls are what they were; and [ReadUnit] on a path with no file
    returns the empty list and no error. *)
Theorem EnsureUnit_unchanged log (p : string) (A : list UnitOption) (w : World) :
  (forall B add keep remove,
     ReadUnit p true w = (B, None) ->
     SliceDiffFunc CompareOptions (slices_SortFunc A) B = (add, keep, remove) ->
     add = [] -> remove = [] ->
     exists w', EnsureUnit log p A w = ((false, None), w') /\ fs_eq w w') /\
  (forall sorted, os_Stat p w = StatNotExist -> ReadUnit p sorted w = ([], None)).
Proof.
  split.
  - intros B add keep remove Hr Hd -> ->.
    destruct (EnsureUnit_read log p A w B Hr) as (wl & Hwl & He).
    rewrite SliceDiffFunc_diff3 in Hd.
    pose proof (diff3_unchanged_eq (slices_SortFunc A) B) as Hu.
    rewrite Hd in Hu. rewrite decide_True in He by by apply Hu.
    by exists wl.
  - intros sorted Hs. unfold ReadUnit. by rewrite Hs.
Qed.

End ReconcilerProperties.

(** *** The properties at concrete worlds, with the plain codec *)

Definition nspawn_path : string := "/etc/systemd/nspawn/web.nspawn".

(** A world whose only file holds the single option [boot_yes]. *)
Definition world_boot : World :=
  {| files := {[ nspawn_path := @Serialize plain_codec [boot_yes] ]};
     faulty := fun _ _ => false; fs_trace := []; log_out := [] |}.

Definition boot_spaced : UnitOption := mkOption "Exec" "Boot" " yes".

Definition name_with_eq : UnitOption := mkOption "Exec" "a=b" "c".

(** C2, as stated, fails on a desired list that the unit-file format does
    not read back as written.  An option whose value starts with a space
    is written as it is and read back without the space: on a path with
    no file the first [EnsureUnit] returns [true] and writes, the file
    read back is not the desired list, and the second [EnsureUnit] with
    the same list returns [true] again.  Likewise for a name that holds
    an [=]: it is read back cut at the first [=]. *)
Lemma EnsureUnit_idempotent_counterexample :
  ((@EnsureUnit trimming_codec None nspawn_path [boot_spaced] empty_world).1
     = (true, None) /\
   @ReadUnit trimming_codec nspawn_path true
       (@EnsureUnit trimming_codec None nspawn_path [boot_spaced] empty_world).2
     = ([boot_yes], None) /\
   slices_SortFunc [boot_spaced] <> [boot_yes] /\
   (@EnsureUnit trimming_codec None nspawn_path [boot_spaced]
       (@EnsureUnit trimming_codec None nspawn_path [boot_spaced] empty_world).2).1
     = (true, None)) /\
  ((@EnsureUnit trimming_codec None nspawn_path [name_with_eq] empty_world).1
     = (true, None) /\
   @ReadUnit trimming_codec nspawn_path true
       (@EnsureUnit trimming_codec None nspawn_path [name_with_eq] empty_world).2
     = ([mkOption "Exec" "a" "b=c"], None) /\
   slices_SortFunc [name_with_eq] <> [mkOption "Exec" "a" "b=c"] /\
   (@EnsureUnit trimming_codec None nspawn_path [name_with_eq]
       (@EnsureUnit trimming_codec None nspawn_path [name_with_eq] empty_world).2).1
     = (true, None)).
Proof.
  split; (split; [|split; [|split]]);
    [vm_compute; reflexivity | vm_compute; reflexivity | vm_compute; discriminate
    | vm_compute; reflexivity | vm_compute; reflexivity | vm_compute; reflexivity
    | vm_compute; discriminate | vm_compute; reflexivity].
Qed.

Lemma EnsureUnit_idempotent_witness :
  exists changed w1 w2,
    @EnsureUnit plain_codec None nspawn_path [bridge_br0; boot_yes] world_boot
      = ((changed, None), w1) /\
    changed = bool_decide (slices_SortFunc [bridge_br0; boot_yes] <> [boot_yes]) /\
    (oset [bridge_br0; boot_yes] <> oset [boot_yes] -> changed = true) /\
    @ReadUnit plain_codec nspawn_path true w1
      = (slices_SortFunc [bridge_br0; boot_yes], None) /\
    @EnsureUnit plain_codec None nspawn_path [bridge_br0; boot_yes] w1
      = ((false, None), w2) /\
    fs_eq w1 w2.
Proof.
  apply (@EnsureUnit_idempotent plain_codec None nspawn_path
           [bridge_br0; boot_yes] [boot_yes] world_boot).
  - intros c. reflexivity.
  - vm_compute. reflexivity.
  - exists [boot_yes; bridge_br0]. split; vm_compute; reflexivity.
Defined.

Lemma EnsureUnit_empty_desired_witness :
  (exists w', @EnsureUnit plain_codec None nspawn_path [] world_boot
                = ((true, None), w') /\
              files w' = delete nspawn_path (files world_boot) /\
              fs_trace w' = fs_trace world_boot ++ [EvRemove nspawn_path]) /\
  @EnsureUnit plain_codec None nspawn_path [] empty_world
    = ((false, None), empty_world).
Proof.
  split.
  - apply (proj1 (@EnsureUnit_empty_desired plain_codec None nspawn_path world_boot)
             (@Serialize plain_codec [boot_yes]) [boot_yes]);
      try (vm_compute; reflexivity).
    discriminate.
  - apply (proj2 (@EnsureUnit_empty_desired plain_codec None nspawn_path empty_world));
      vm_compute; reflexivity.
Defined.

Lemma EnsureUnit_unchanged_witness :
  (exists w', @EnsureUnit plain_codec None nspawn_path [boot_yes] world_boot
                = ((false, None), w') /\ fs_eq world_boot w') /\
  @ReadUnit plain_codec nspawn_path true empty_world = ([], None).
Proof.
  split.
  - apply (proj1 (@EnsureUnit_unchanged plain_codec None nspawn_path [boot_yes] world_boot)
             [boot_yes] [] [boot_yes] []); vm_compute; reflexivity.
  - apply (proj2 (@EnsureUnit_unchanged plain_codec None nspawn_path [boot_yes] empty_world));
      vm_compute; reflexivity.
Defined.

(** ** Further properties of the comparison and of the diff *)

Lemma cmp_Compare_opp x y : cmp_Compare y x = - cmp_Compare x y.
Proof.
  unfold cmp_Compare. rewrite (String.compare_antisym y x).
  by destruct (String.compare x y).
Qed.

Lemma CompareOptions_opp a b : CompareOptions b a = - CompareOptions a b.
Proof.
  unfold CompareOptions.
  rewrite (cmp_Compare_opp (Section_ a) (Section_ b)),
    (cmp_Compare_opp (Name a) (Name b)), (cmp_Compare_opp (Value a) (Value b)).
  unfold cmp_Compare.
  destruct (String.compare (Section_ a) (Section_ b)),
    (String.compare (Name a) (Name b)),
    (String.compare (Value a) (Value b)); reflexivity.
Qed.

(** [CompareOptions] is a three-way comparison of a total order: it
    returns -1, 0 or 1, swapping the arguments negates it, it is 0 only on
    the same triple, and "less" is transitive. *)
Theorem CompareOptions_three_way (a b c : UnitOption) :
  (CompareOptions a b = -1 \/ CompareOptions a b = 0 \/ CompareOptions a b = 1) /\
  CompareOptions b a = - CompareOptions a b /\
  (CompareOptions a b = 0 <-> a = b) /\
  (CompareOptions a b < 0 -> CompareOptions b c < 0 -> CompareOptions a c < 0).
Proof.
  split; [|split; [|split]].
  - unfold CompareOptions, cmp_Compare.
    destruct (String.compare (Section_ a) (Section_ b)),
      (String.compare (Name a) (Name b)),
      (String.compare (Value a) (Value b)); simpl; auto.
  - apply CompareOptions_opp.
  - apply CompareOptions_eq.
  - rewrite !CompareOptions_lt. apply opt_lt_trans.
Qed.

Section DiffShape.
Context {E1 E2 : Type} (cmp : E1 -> E2 -> Z).

Lemma diff3_shape a b :
  (diff3 cmp a b).2 ++ (diff3 cmp a b).1.2 ≡ₚ b /\
  (length (diff3 cmp a b).1.1 + length (diff3 cmp a b).1.2 = length a)%nat.
Proof.
  revert b. induction a as [|x a' IHa]; intros b.
  - destruct b; simpl; by rewrite ?app_nil_r.
  - induction b as [|y b' IHb].
    + rewrite diff3_nil_r; simpl. split; [done|lia].
    + rewrite diff3_cons.
      destruct (cmp x y <? 0); [|destruct (cmp x y >? 0)].
      * destruct (IHa (y :: b')) as [H1 H2].
        destruct (diff3 cmp a' (y :: b')) as [[a1 k1] r1]. simpl in *.
        split; [done|lia].
      * destruct IHb as [H1 H2].
        destruct (diff3 cmp (x :: a') b') as [[a1 k1] r1]. simpl in *.
        split; [by f_equiv|lia].
      * destruct (IHa b') as [H1 H2].
        destruct (diff3 cmp a' b') as [[a1 k1] r1]. simpl in *.
        split; [|lia]. rewrite <- Permutation_middle. by f_equiv.
Qed.

(** For any comparison function and any two slices, sorted or not:
    [add] is a subsequence of [a], [keep] and [remove] are subsequences
    of [b] that together hold every element of [b] exactly once, and
    [add] and [keep] together have as many elements as [a]. *)
Theorem SliceDiffFunc_shape (a : list E1) (b : list E2) :
  let '(add, keep, remove) := SliceDiffFunc cmp a b in
  add `sublist_of` a /\ keep `sublist_of` b /\ remove `sublist_of` b /\
  remove ++ keep ≡ₚ b /\
  (length add + length keep = length a)%nat.
Proof.
  rewrite SliceDiffFunc_diff3.
  pose proof (diff3_sublist cmp a b) as (H1 & H2 & H3).
  pose proof (diff3_shape a b) as (H4 & H5).
  by destruct (diff3 cmp a b) as [[add keep] remove].
Qed.

End DiffShape.

Lemma diff3_swap a b :
  diff3 CompareOptions b a =
  let '(add, keep, remove) := diff3 CompareOptions a b in (remove, keep, add).
Proof.
  revert b. induction a as [|x a' IHa]; intros b.
  - destruct b; simpl; done.
  - induction b as [|y b' IHb].
    + by rewrite diff3_nil_r.
    + rewrite !diff3_cons.
      pose proof (CompareOptions_opp x y) as Hopp.
      destruct (Z.ltb_spec (CompareOptions x y) 0) as [Hlt|Hge].
      * destruct (Z.ltb_spec (CompareOptions y x) 0); [lia|].
        destruct (Z.gtb_spec (CompareOptions y x) 0); [|lia].
        rewrite IHa. by destruct (diff3 CompareOptions a' (y :: b')) as [[a1 k1] r1].
      * destruct (Z.gtb_spec (CompareOptions x y) 0) as [Hgt|Hle].
        -- destruct (Z.ltb_spec (CompareOptions y x) 0); [|lia].
           rewrite IHb. by destruct (diff3 CompareOptions (x :: a') b') as [[a1 k1] r1].
        -- assert (x = y) as -> by (apply CompareOptions_eq; lia).
           destruct (Z.ltb_spec (CompareOptions y y) 0); [lia|].
           destruct (Z.gtb_spec (CompareOptions y y) 0); [lia|].
           rewrite IHa. by destruct (diff3 CompareOptions a' b') as [[a1 k1] r1].
Qed.

(** Diffing in the other direction exchanges [add] and [remove] and keeps
    [keep], for any two option lists. *)
Theorem SliceDiffFunc_swap (a b : list UnitOption) :
  SliceDiffFunc CompareOptions b a =
  let '(add, keep, remove) := SliceDiffFunc CompareOptions a b in (remove, keep, add).
Proof. rewrite !SliceDiffFunc_diff3. apply diff3_swap. Qed.

(** The diff of two option lists has nothing to add and nothing to remove
    exactly when the lists are equal, and then [keep] is that list. *)
Theorem SliceDiffFunc_unchanged_iff (a b : list UnitOption) :
  let '(add, keep, remove) := SliceDiffFunc CompareOptions a b in
  (add = [] /\ remove = [] <-> a = b) /\ (a = b -> keep = a).
Proof.
  rewrite SliceDiffFunc_diff3.
  pose proof (diff3_unchanged_eq a b) as Hu.
  pose proof (diff3_same a) as Hs.
  destruct (diff3 CompareOptions a b) as [[add keep] remove] eqn:Hd. simpl in Hu.
  split; [split|].
  - intros [-> ->]. by apply Hu.
  - intros <-. rewrite Hs in Hd. by injection Hd as <- _ <-.
  - intros <-. rewrite Hs in Hd. by injection Hd as _ <- _.
Qed.

(** ** Further properties of [ReadUnit], [WriteUnit] and [EnsureUnit] *)

(** The path a mutating call was issued on. *)
Definition event_path (ev : fs_event) : string :=
  match ev with
  | EvRemove p | EvMkdirAll p | EvCreate p | EvWrite p _ => p
  end.

(** What a call may do to the world when it only touches [p]. *)
Definition touches_only (p : string) (w w' : World) : Prop :=
  faulty w' = faulty w /\
  (forall q, q <> p -> files w' !! q = files w !! q) /\
  exists evs, fs_trace w' = fs_trace w ++ evs /\
              Forall (fun ev => event_path ev = p) evs.

Lemma touches_only_refl p w : touches_only p w w.
Proof.
  split; [done|]. split; [done|]. exists []. by rewrite app_nil_r.
Qed.

Lemma touches_only_fs_eq p w w' : fs_eq w w' -> touches_only p w w'.
Proof.
  intros (Hf & Hq & Ht). split; [done|]. split; [by rewrite Hf|].
  exists []. by rewrite app_nil_r.
Qed.

Lemma touches_only_trans p w1 w2 w3 :
  touches_only p w1 w2 -> touches_only p w2 w3 -> touches_only p w1 w3.
Proof.
  intros (Hq1 & Hf1 & evs1 & Ht1 & Ha1) (Hq2 & Hf2 & evs2 & Ht2 & Ha2).
  split; [congruence|]. split.
  - intros q Hq. by rewrite Hf2, Hf1.
  - exists (evs1 ++ evs2). split; [by rewrite Ht2, Ht1, app_assoc|].
    by apply Forall_app.
Qed.

Lemma set_files_touches p f ev w :
  event_path ev = p -> (forall q, q <> p -> f !! q = files w !! q) ->
  touches_only p w (set_files f ev w).
Proof.
  intros Hev Hf. split; [done|]. split; [done|].
  exists [ev]. split; [done|]. by constructor.
Qed.

Section ReconcilerMore.
Context `{codec : UnitCodec}.

Lemma os_Remove_touches p w : touches_only p w (os_Remove p w).2.
Proof.
  unfold os_Remove.
  destruct (faulty w SysRemove p); [apply touches_only_refl|].
  destruct (files w !! p); [|apply touches_only_refl].
  apply set_files_touches; [done|]. intros q Hq. by rewrite lookup_delete_ne.
Qed.

Lemma os_MkdirAll_Dir_touches p w : touches_only p w (os_MkdirAll_Dir p w).2.
Proof.
  unfold os_MkdirAll_Dir.
  destruct (faulty w SysMkdirAll p); [apply touches_only_refl|].
  by apply set_files_touches.
Qed.

Lemma os_Create_touches p w : touches_only p w (os_Create p w).2.
Proof.
  unfold os_Create.
  destruct (faulty w SysCreate p); [apply touches_only_refl|].
  apply set_files_touches; [done|]. intros q Hq. by rewrite lookup_insert_ne.
Qed.

Lemma io_Copy_touches p data w : touches_only p w (io_Copy p data w).2.
Proof.
  unfold io_Copy.
  destruct (faulty w SysCopy p); [apply touches_only_refl|].
  apply set_files_touches; [done|]. intros q Hq. by rewrite lookup_insert_ne.
Qed.

Lemma WriteUnit_touches p opts w : touches_only p w (WriteUnit p opts w).2.
Proof.
  assert (touches_only p w
    (match os_MkdirAll_Dir p w with
     | (Some err, w1) => (Some err, w1)
     | (None, w1) =>
         match os_Create p w1 with
         | (Some err, w2) => (Some err, w2)
         | (None, w2) => io_Copy p (Serialize opts) w2
         end
     end).2) as Hwrite.
  { pose proof (os_MkdirAll_Dir_touches p w) as H1.
    destruct (os_MkdirAll_Dir p w) as [[e1|] w1]; [done|]. simpl in H1.
    pose proof (os_Create_touches p w1) as H2.
    destruct (os_Create p w1) as [[e2|] w2]; simpl in H2.
    - by eapply touches_only_trans.
    - eapply touches_only_trans; [done|]. eapply touches_only_trans; [done|].
      apply io_Copy_touches. }
  unfold WriteUnit.
  destruct (os_Stat p w); [| |apply touches_only_refl];
    destruct (length opts =? 0)%nat; simpl;
    first [done | apply os_Remove_touches | apply touches_only_refl].
Qed.

Lemma WriteUnit_fs_eq p opts w1 w2 :
  fs_eq w1 w2 ->
  (WriteUnit p opts w1).1 = (WriteUnit p opts w2).1 /\
  fs_eq (WriteUnit p opts w1).2 (WriteUnit p opts w2).2 /\
  log_out (WriteUnit p opts w1).2 = log_out w1.
Proof.
  destruct w1 as [f1 q1 t1 l1], w2 as [f2 q2 t2 l2].
  intros (Hf & Hq & Ht); simpl in *. subst f2 q2 t2.
  unfold WriteUnit, os_Stat, os_Remove, os_MkdirAll_Dir, os_Create, io_Copy,
    set_files, fs_eq; simpl.
  destruct (q1 SysStat p); [done|].
  destruct (f1 !! p); destruct (length opts =? 0)%nat; simpl;
    repeat match goal with
           | |- context [if q1 ?c p then _ else _] => destruct (q1 c p); simpl
           end; done.
Qed.

(** The world after the log records of [EnsureUnit] have been emitted. *)
Lemma EnsureUnit_cases log p A w :
  match ReadUnit p true w with
  | (_, Some err) => EnsureUnit log p A w = ((false, Some err), w)
  | (B, None) =>
      exists wl, fs_eq w wl /\ (log = None -> wl = w) /\
        EnsureUnit log p A w =
          if decide (slices_SortFunc A = B) then ((false, None), wl)
          else ((true, (WriteUnit p (slices_SortFunc A) wl).1),
                (WriteUnit p (slices_SortFunc A) wl).2)
  end.
Proof.
  unfold EnsureUnit.
  destruct (ReadUnit p true w) as [B [err|]] eqn:Hr; [done|].
  unfold slices_Clone. rewrite SliceDiffFunc_diff3.
  pose proof (diff3_unchanged_eq (slices_SortFunc A) B) as Hu.
  pose proof (diff3_same (slices_SortFunc A)) as Hs.
  destruct (diff3 CompareOptions (slices_SortFunc A) B)
    as [[add keep] remove] eqn:Hd.
  simpl in Hu.
  match goal with
  | |- context [if _ then ((false, None), ?x) else _] => exists x
  end.
  split; [|split].
  - destruct log; [|done]. repeat (etrans; [|apply log_each_fs_eq]). done.
  - by intros ->.
  - destruct (decide (slices_SortFunc A = B)) as [Heq|Hne].
    + rewrite <- Heq, Hs in Hd. by injection Hd as <- <- <-.
    + assert ((length add =? 0)%nat && (length remove =? 0)%nat = false) as ->.
      { destruct add, remove; simpl; try done. by destruct Hne; apply Hu. }
      by destruct (WriteUnit p (slices_SortFunc A) _).
Qed.

(** When the current file cannot be read ([os.Stat] fails with something
    other than "does not exist", [os.Open] fails, or the content does not
    parse), [EnsureUnit] returns [false] with an error, logs nothing and
    issues no call that writes. *)
Theorem EnsureUnit_read_failure log (p : string) (A : list UnitOption) (w : World) :
  faulty w SysStat p = true \/
  (exists data, files w !! p = Some data /\
     (faulty w SysOpen p = true \/ exists e, Deserialize data = inl e)) ->
  exists err, EnsureUnit log p A w = ((false, Some err), w).
Proof.
  intros H. pose proof (EnsureUnit_cases log p A w) as Hc.
  assert (exists l err, ReadUnit p true w = (l, Some err)) as (l & err & Hr).
  { unfold ReadUnit, os_Stat, os_Open.
    destruct H as [->|(data & Hd & H)]; [eauto|].
    destruct (faulty w SysStat p); [eauto|]. rewrite Hd.
    destruct (faulty w SysOpen p); [eauto|].
    destruct H as [?|[e ->]]; [done|eauto]. }
  rewrite Hr in Hc. eauto.
Qed.

Lemma EnsureUnit_touches log (p : string) (A : list UnitOption) (w : World) :
  touches_only p w (EnsureUnit log p A w).2.
Proof.
  pose proof (EnsureUnit_cases log p A w) as Hc.
  destruct (ReadUnit p true w) as [B [err|]].
  - rewrite Hc. apply touches_only_refl.
  - destruct Hc as (wl & Hwl & _ & ->).
    destruct (decide (slices_SortFunc A = B)); simpl.
    + by apply touches_only_fs_eq.
    + eapply touches_only_trans; [by apply touches_only_fs_eq|].
      apply WriteUnit_touches.
Qed.

(** The mutating calls of [WriteUnit], in the order they are issued: none,
    or one [os.Remove] of the path (only for no options), or, for some
    options, [os.MkdirAll] of the path's directory, then [os.Create] of the
    path, then the write of the serialized options to it, as far as the
    calls succeed. *)
Definition write_calls (p : string) (opts : list UnitOption) (data : string)
    (evs : list fs_event) : Prop :=
  evs = [] \/
  (opts = [] /\ evs = [EvRemove p]) \/
  (opts <> [] /\
   (evs = [EvMkdirAll p] \/ evs = [EvMkdirAll p; EvCreate p] \/
    evs = [EvMkdirAll p; EvCreate p; EvWrite p data])).

Lemma WriteUnit_calls p opts w :
  exists evs, fs_trace (WriteUnit p opts w).2 = fs_trace w ++ evs /\
              write_calls p opts (Serialize opts) evs.
Proof.
  destruct w as [f q t l].
  unfold WriteUnit, os_Stat, os_Remove, os_MkdirAll_Dir, os_Create, io_Copy,
    set_files, write_calls; simpl.
  destruct (q SysStat p); [exists []; by rewrite app_nil_r; auto|].
  destruct opts as [|o opts]; simpl.
  - destruct (f !! p); simpl;
      repeat match goal with
             | |- context [if q ?c p then _ else _] => destruct (q c p); simpl
             end;
      first [ exists []; rewrite app_nil_r; by auto
            | exists [EvRemove p]; by auto ].
  - destruct (f !! p); simpl;
      repeat match goal with
             | |- context [if q ?c p then _ else _] => destruct (q c p); simpl
             end;
      rewrite <- ?app_assoc; simpl;
      first [ exists []; rewrite app_nil_r; by auto
            | eexists; split; [reflexivity|]; right; right; split; [done|]; by auto ].
Qed.

(** [EnsureUnit] on a path leaves the content of every file at another path
    as it is, and the mutating calls it issues are those of one
    [WriteUnit] of the sorted desired options to that path: at most one
    [os.Remove] of the path, or [os.MkdirAll] of its directory, [os.Create]
    of the path and the write of the serialized sorted options to it, in
    this order. *)
Theorem EnsureUnit_touches_only_its_path log (p : string) (A : list UnitOption)
    (w : World) :
  (forall q, q <> p -> files (EnsureUnit log p A w).2 !! q = files w !! q) /\
  exists evs,
    fs_trace (EnsureUnit log p A w).2 = fs_trace w ++ evs /\
    write_calls p A (Serialize (slices_SortFunc A)) evs.
Proof.
  split; [apply (EnsureUnit_touches log p A w)|].
  pose proof (EnsureUnit_cases log p A w) as Hc.
  destruct (ReadUnit p true w) as [B [err|]].
  - rewrite Hc. exists []. rewrite app_nil_r. split; [done|by left].
  - destruct Hc as (wl & (_ & _ & Ht) & _ & ->).
    destruct (decide (slices_SortFunc A = B)); simpl.
    + exists []. rewrite app_nil_r. split; [done|by left].
    + destruct (WriteUnit_calls p (slices_SortFunc A) wl) as (evs & Hev & Hcalls).
      exists evs. split; [by rewrite Hev, Ht|].
      assert (slices_SortFunc A = [] <-> A = []) as Hnil.
      { split; intros H.
        - apply Permutation_nil. by rewrite <- H, SortFunc_Permutation.
        - apply Permutation_nil. by rewrite SortFunc_Permutation, H. }
      unfold write_calls in *. rewrite <- Hnil. exact Hcalls.
Qed.

(** The logger changes nothing but the log: with and without one,
    [EnsureUnit] returns the same and leaves the same file system, and
    without one nothing is logged. *)
Theorem EnsureUnit_logger_irrelevant (log : Logger) (p : string)
    (A : list UnitOption) (w : World) :
  (EnsureUnit (Some log) p A w).1 = (EnsureUnit None p A w).1 /\
  fs_eq (EnsureUnit (Some log) p A w).2 (EnsureUnit None p A w).2 /\
  log_out (EnsureUnit None p A w).2 = log_out w.
Proof.
  pose proof (EnsureUnit_cases (Some log) p A w) as H1.
  pose proof (EnsureUnit_cases None p A w) as H2.
  destruct (ReadUnit p true w) as [B [err|]].
  - by rewrite H1, H2.
  - destruct H1 as (wl & Hwl & _ & ->). destruct H2 as (w0 & _ & Hw0 & ->).
    rewrite (Hw0 eq_refl).
    destruct (decide (slices_SortFunc A = B)); simpl.
    + split; [done|]. split; [by symmetry|done].
    + destruct (WriteUnit_fs_eq p (slices_SortFunc A) wl w) as (He & Hfs & _);
        [by symmetry|].
      destruct (WriteUnit_fs_eq p (slices_SortFunc A) w w) as (_ & _ & Hl); [done|].
      by rewrite He.
Qed.

(** The order in which the desired options are given does not matter. *)
Theorem EnsureUnit_order_irrelevant log (p : string) (A A' : list UnitOption)
    (w : World) :
  A ≡ₚ A' -> EnsureUnit log p A w = EnsureUnit log p A' w.
Proof.
  intros HA. unfold EnsureUnit, slices_Clone.
  by rewrite (SortFunc_perm_eq A A' HA).
Qed.

(** What [WriteUnit] wrote, [ReadUnit] reads back: with no failing call on
    the path and a codec that reads back the list up to order, [WriteUnit]
    returns no error and [ReadUnit] with sorting then returns the sorted
    list; for the empty list that is the empty list, the file being gone. *)
Theorem WriteUnit_ReadUnit (p : string) (opts : list UnitOption) (w : World) :
  (forall c, faulty w c p = false) ->
  (exists l, Deserialize (Serialize opts) = inr l /\ l ≡ₚ opts) ->
  exists w',
    WriteUnit p opts w = (None, w') /\
    ReadUnit p true w' = (slices_SortFunc opts, None) /\
    (opts = [] -> files w' !! p = None).
Proof.
  intros Hf (l & Hl & Hp).
  destruct (WriteUnit_ok p opts w Hf) as (w' & Hw & Hq & _ & Hfiles).
  exists w'. split; [done|].
  unfold ReadUnit, os_Stat, os_Open. rewrite !Hq, !Hf, Hfiles.
  destruct opts as [|o opts].
  - rewrite lookup_delete_eq. by split.
  - rewrite lookup_insert_eq, Hl. split; [|done].
    by rewrite (SortFunc_perm_eq _ _ Hp).
Qed.

(** When there is something to write and creating the directories fails,
    [EnsureUnit] still returns [true], together with that error, and the
    file system is as it was. *)
Theorem EnsureUnit_MkdirAll_failure log (p : string) (A B : list UnitOption)
    (w : World) :
  ReadUnit p true w = (B, None) ->
  slices_SortFunc A <> B -> A <> [] ->
  faulty w SysMkdirAll p = true ->
  exists w', EnsureUnit log p A w = ((true, Some (OsError SysMkdirAll p)), w') /\
             fs_eq w w'.
Proof.
  intros Hr Hne HA Hm.
  pose proof (EnsureUnit_cases log p A w) as Hc. rewrite Hr in Hc.
  destruct Hc as (wl & Hwl & _ & ->). rewrite decide_False by done.
  assert (slices_SortFunc A <> []) as Hs.
  { intros Hnil. apply HA. apply Permutation_nil_r.
    by rewrite <- (SortFunc_Permutation A), Hnil. }
  assert (os_Stat p wl <> StatErr (OsError SysStat p) /\
          forall e, os_Stat p wl <> StatErr e) as [_ Hst].
  { rewrite <- (os_Stat_fs_eq p w wl Hwl). unfold ReadUnit in Hr.
    destruct (os_Stat p w); by split. }
  destruct Hwl as (Hf & Hq & Ht).
  unfold WriteUnit, os_MkdirAll_Dir. rewrite <- Hq, Hm.
  destruct (slices_SortFunc A) as [|o rest]; [done|]. simpl.
  exists wl. destruct (os_Stat p wl) as [| |e]; try done.
  by destruct (Hst e).
Qed.

End ReconcilerMore.

(** *** These properties at concrete worlds, with the plain codec *)

(** A world whose only file is no unit file. *)
Definition world_garbage : World :=
  {| files := {[ nspawn_path := "not a unit file" ]};
     faulty := fun _ _ => false; fs_trace := []; log_out := [] |}.

(** The world [world_boot] on a file system where directories cannot be
    created. *)
Definition world_no_mkdir : World :=
  {| files := files world_boot;
     faulty := fun c _ => match c with SysMkdirAll => true | _ => false end;
     fs_trace := []; log_out := [] |}.

Lemma EnsureUnit_read_failure_witness :
  exists err,
    @EnsureUnit plain_codec None nspawn_path [boot_yes] world_garbage
      = ((false, Some err), world_garbage).
Proof.
  apply (@EnsureUnit_read_failure plain_codec).
  right. exists "not a unit file". split; [vm_compute; reflexivity|].
  right. eexists. vm_compute. reflexivity.
Defined.

Lemma EnsureUnit_order_irrelevant_witness :
  @EnsureUnit plain_codec None nspawn_path [boot_yes; bridge_br0] world_boot =
  @EnsureUnit plain_codec None nspawn_path [bridge_br0; boot_yes] world_boot.
Proof. apply (@EnsureUnit_order_irrelevant plain_codec). apply perm_swap. Defined.

Lemma WriteUnit_ReadUnit_witness :
  exists w',
    @WriteUnit plain_codec nspawn_path [bridge_br0; boot_yes] empty_world = (None, w') /\
    @ReadUnit plain_codec nspawn_path true w'
      = (slices_SortFunc [bridge_br0; boot_yes], None) /\
    ([bridge_br0; boot_yes] = [] -> files w' !! nspawn_path = None).
Proof.
  apply (@WriteUnit_ReadUnit plain_codec).
  - intros c. reflexivity.
  - exists [bridge_br0; boot_yes]. split; [vm_compute; reflexivity|reflexivity].
Defined.

Lemma EnsureUnit_MkdirAll_failure_witness :
  exists w',
    @EnsureUnit plain_codec None nspawn_path [bridge_br0; boot_yes] world_no_mkdir
      = ((true, Some (OsError SysMkdirAll nspawn_path)), w') /\
    fs_eq world_no_mkdir w'.
Proof.
  apply (@EnsureUnit_MkdirAll_failure plain_codec None nspawn_path
           [bridge_br0; boot_yes] [boot_yes] world_no_mkdir).
  - vm_compute. reflexivity.
  - vm_compute. discriminate.
  - discriminate.
  - reflexivity.
Defined.

End Util.

(* ===================================================================== *)
(** * Package [machineutil] *)
(* ===================================================================== *)

Module MachineUtil.

(** ** Go's [strings], [strconv] and [net/netip], as far as they are used *)

Fixpoint string_drop (n : nat) (s : string) : string :=
  match n, s with
  | O, _ => s
  | S n', String _ s' => string_drop n' s'
  | S _, EmptyString => EmptyString
  end.

Definition strings_HasPrefix (s pre : string) : bool := String.prefix pre s.

Definition strings_HasSuffix (s suf : string) : bool :=
  (String.length suf <=? String.length s)%nat &&
  String.eqb (string_drop (String.length s - String.length suf) s) suf.

(** [strings.Cut(s, sep)]: around the first instance of [sep]. *)
Fixpoint strings_Cut (s sep : string) : string * string * bool :=
  if String.prefix sep s then ("", string_drop (String.length sep) s, true)
  else match s with
       | EmptyString => ("", "", false)
       | String c s' =>
           let '(before, after, found) := strings_Cut s' sep in
           if found then (String c before, after, true) else (s, "", false)
       end.

(** [strings.Replace(s, old, new, 1)]: the first instance of [old]. *)
Fixpoint strings_Replace_1 (s old new : string) : string :=
  if String.prefix old s then new +:+ string_drop (String.length old) s
  else match s with
       | EmptyString => EmptyString
       | String c s' => String c (strings_Replace_1 s' old new)
       end.

Definition digit_of (c : ascii) : option Z :=
  let n := Z.of_N (N_of_ascii c) in
  if (48 <=? n) && (n <=? 57) then Some (n - 48) else None.

Fixpoint parse_digits (acc : Z) (s : string) : option Z :=
  match s with
  | EmptyString => Some acc
  | String c s' =>
      match digit_of c with
      | Some d => parse_digits (acc * 10 + d) s'
      | None => None
      end
  end.

(** [strconv.Atoi] for a 64-bit [int]: an optional sign, then one or more
    decimal digits, the value within the range of [int]; [None] is a
    syntax or range error. *)
Definition strconv_Atoi (s : string) : option Z :=
  let '(neg, body) :=
    match s with
    | String "-" r => (true, r)
    | String "+" r => (false, r)
    | _ => (false, s)
    end in
  match body with
  | EmptyString => None
  | _ =>
      match parse_digits 0 body with
      | Some n =>
          let v := if neg then - n else n in
          if (- 2 ^ 63 <=? v) && (v <=? 2 ^ 63 - 1) then Some v else None
      | None => None
      end
  end.

(** [strconv.Itoa]. *)
Definition strconv_Itoa (n : Z) : string := NilZero.string_of_int (Z.to_int n).

(** [netip.Addr]: the zero [Addr], an IPv4 address of four octets, or an
    IPv6 address of sixteen octets (IPv4-mapped ones included). *)
Inductive Addr :=
  | AddrZero
  | Addr4 (octets : list Z)
  | Addr6 (octets : list Z).

#[global] Instance Addr_eq_dec : EqDecision Addr.
Proof. solve_decision. Defined.

(** [netip.AddrFromSlice]: 4 bytes or 16 bytes, otherwise not ok. *)
Definition netip_AddrFromSlice (slice : list Z) : Addr * bool :=
  if (length slice =? 4)%nat then (Addr4 slice, true)
  else if (length slice =? 16)%nat then (Addr6 slice, true)
  else (AddrZero, false).

Definition octet (i : nat) (l : list Z) : Z := nth i l 0.

(** [ip.v6u16(i)]: the i-th 16-bit group. *)
Definition v6u16 (i : nat) (l : list Z) : Z :=
  Z.lor (Z.shiftl (octet (2 * i) l) 8) (octet (2 * i + 1) l).

Definition Is4In6 (ip : Addr) : bool :=
  match ip with
  | Addr6 l =>
      forallb (fun i => octet i l =? 0) (seq 0 10) &&
      (octet 10 l =? 255) && (octet 11 l =? 255)
  | _ => false
  end.

Definition Unmap (ip : Addr) : Addr :=
  match ip with
  | Addr6 l => if Is4In6 ip then Addr4 (skipn 12 l) else ip
  | _ => ip
  end.

Definition IsValid (ip : Addr) : bool :=
  match ip with AddrZero => false | _ => true end.

Definition IsUnspecified (ip : Addr) : bool :=
  bool_decide (ip = Addr4 [0; 0; 0; 0]) ||
  bool_decide (ip = Addr6 (replicate 16 0)).

Definition IsLoopback (ip : Addr) : bool :=
  match Unmap ip with
  | Addr4 l => octet 0 l =? 127
  | Addr6 l => forallb (fun i => octet i l =? 0) (seq 0 15) && (octet 15 l =? 1)
  | AddrZero => false
  end.

Definition IsLinkLocalUnicast (ip : Addr) : bool :=
  match Unmap ip with
  | Addr4 l => (octet 0 l =? 169) && (octet 1 l =? 254)
  | Addr6 l => Z.land (v6u16 0 l) 0xffc0 =? 0xfe80
  | AddrZero => false
  end.

Definition IsLinkLocalMulticast (ip : Addr) : bool :=
  match Unmap ip with
  | Addr4 l => (octet 0 l =? 224) && (octet 1 l =? 0) && (octet 2 l =? 0)
  | Addr6 l => Z.land (v6u16 0 l) 0xff0f =? 0xff02
  | AddrZero => false
  end.

Definition IsInterfaceLocalMulticast (ip : Addr) : bool :=
  match ip with
  | Addr6 l => negb (Is4In6 ip) && (Z.land (v6u16 0 l) 0xff0f =? 0xff01)
  | _ => false
  end.

Definition IsMulticast (ip : Addr) : bool :=
  match Unmap ip with
  | Addr4 l => Z.land (octet 0 l) 0xf0 =? 0xe0
  | Addr6 l => octet 0 l =? 0xff
  | AddrZero => false
  end.

(** ** Errors, bus objects and the run's state *)

Definition ObjectPath := string.

Definition machinedDbusService : string := "org.freedesktop.machine1".
Definition machinedDbusInterface : string := "org.freedesktop.machine1.Manager".
Definition machinedDbusMachineInterface : string := "org.freedesktop.machine1.Machine".
Definition machinedDbusPath : string := "/org/freedesktop/machine1".
Definition systemdDbusService : string := "org.freedesktop.systemd1".
Definition systemdDbusInterface : string := "org.freedesktop.systemd1.Manager".
Definition systemdDbusPath : string := "/org/freedesktop/systemd1".

(** An [error] value: the two sentinels of the package, an error returned
    by a bus call (its message), an error made by [fmt.Errorf] from a
    message, and [fmt.Errorf("%w: %w", e1, e2)]. *)
Inductive error :=
  | ErrAlreadyExists
  | ErrNoSuchImage
  | BusError (msg : string)
  | Errorf (msg : string)
  | Wrap2 (e1 e2 : error).

#[global] Instance error_eq_dec : EqDecision error.
Proof. intros x y. unfold Decision. decide equality; apply String.string_dec. Defined.

(** [err.Error()] *)
Fixpoint Error (e : error) : string :=
  match e with
  | ErrAlreadyExists => "image already exist"
  | ErrNoSuchImage => "image doesn't exist"
  | BusError msg => msg
  | Errorf msg => msg
  | Wrap2 e1 e2 => Error e1 +:+ ": " +:+ Error e2
  end.

Record Image := mkImage {
  Image_Name : string;
  Image_Path : ObjectPath
}.

(** [Machine]: the [manager] field is the one [machineUtil] of the run. *)
Record Machine := mkMachine {
  Machine_Name : string;
  Machine_object : ObjectPath
}.

#[global] Instance Machine_eq_dec : EqDecision Machine.
Proof. solve_decision. Defined.

(** [Template]: likewise without its [manager] field. *)
Record Template := mkTemplate {
  Template_Name : string;
  Template_Version : Z;
  Template_object : ObjectPath
}.

#[global] Instance Template_eq_dec : EqDecision Template.
Proof. solve_decision. Defined.

Record Job := mkJob { Job_object : ObjectPath }.

(** A field of a row of [ListImages], as far as [listImages] looks. *)
Inductive Variant :=
  | VString (s : string)
  | VPath (p : ObjectPath)
  | VOther.

(** The peers on the system bus, [systemd-machined] and [systemd]: every
    call the package makes, with its reply already stored into the Go
    variable ([inl] when the call or the [Store] fails).  The peer's own
    state [W] moves with every call. *)
Class Bus (W : Type) := {
  machined_GetImage : string -> W -> (error + ObjectPath) * W;
  machined_CloneImage : string -> string -> bool -> W -> option error * W;
  machined_ListImages : W -> (error + list (list Variant)) * W;
  systemd_StartUnit : string -> string -> W -> (error + ObjectPath) * W;
  systemd_StopUnit : string -> string -> W -> (error + ObjectPath) * W;
  machine_Get_State : ObjectPath -> W -> (error + string) * W;
  machine_GetAddresses : ObjectPath -> W -> (error + list (Z * list Z)) * W;
  job_Get_State : ObjectPath -> W -> (error + string) * W
}.

Inductive Level := LevelDebug | LevelError.

#[global] Instance Level_eq_dec : EqDecision Level.
Proof. solve_decision. Defined.

(** What the run does to the outside, in order: bus calls (object, method,
    arguments), [time.Sleep] (nanoseconds) and records of the default
    logger. *)
Inductive Event :=
  | Call (object : ObjectPath) (method : string) (args : list string)
  | Sleep (d : Z)
  | Log (lvl : Level) (msg : string) (attrs : list (string * string)).

#[global] Instance Event_eq_dec : EqDecision Event.
Proof. solve_decision. Defined.

Section Run.
Context {W : Type} `{bus_impl : Bus W}.

(** The state of a run: the peers, the events so far, the [Machine]
    structs allocated so far (a [*Machine] is an index into [heap]), and
    the two maps of [machineUtil]. *)
Record State := mkState {
  bus : W;
  trace : list Event;
  heap : list Machine;
  machines : gmap string nat;
  templates : gmap string Template
}.

Definition M (A : Type) : Type := State -> A * State.

Definition ret {A} (a : A) : M A := fun st => (a, st).

Definition bind {A B} (m : M A) (k : A -> M B) : M B :=
  fun st => let '(a, st') := m st in k a st'.

Definition emit (ev : Event) : M unit :=
  fun st => (tt, mkState (bus st) (trace st ++ [ev]) (heap st) (machines st) (templates st)).

(** A bus call: the event, then the peer's answer. *)
Definition call {A} (ev : Event) (f : W -> A * W) : M A :=
  fun st =>
    let '(a, b) := f (bus st) in
    (a, mkState b (trace st ++ [ev]) (heap st) (machines st) (templates st)).

Definition time_Sleep (d : Z) : M unit := emit (Sleep d).

Definition time_Second : Z := 1000000000.

End Run.

Arguments State : clear implicits.
Arguments M : clear implicits.

Declare Scope run_scope.
Delimit Scope run_scope with run.
Notation "'let*' x ':=' m 'in' k" := (bind m (fun x => k))
  (at level 10, x pattern, m at level 100, k at level 200) : run_scope.
Notation "m ';;' k" := (bind m (fun _ => k))
  (at level 100, k at level 200, right associativity) : run_scope.

(** How a call that loops ended within the polls it was given. *)
Inductive outcome (A : Type) :=
  | Returned (a : A)
  | StillWaiting.
Arguments Returned {A} a.
Arguments StillWaiting {A}.

(** ** Templates *)

(** [func (t *Template) Image() string] *)
Definition Template_Image (t : Template) : string :=
  Template_Name t +:+ "-template_" +:+ strconv_Itoa (Template_Version t).

(** [func (t *Template) Get(name string) *Template]; [None] is [nil]. *)
Definition Template_Get (t : option Template) (name : string) : option Template :=
  match t with
  | None => None
  | Some t' => if negb (String.eqb name (Template_Name t')) then None else Some t'
  end.

Abbreviation TemplateVersions := (list Template).

(** The comparison of [Less], on two elements. *)
Definition Template_less (a b : Template) : bool :=
  if String.ltb (Template_Name a) (Template_Name b) then true
  else if String.ltb (Template_Name b) (Template_Name a) then false
  else Template_Version a <? Template_Version b.

(** [func (t TemplateVersions) Less(i, j int) bool]; an index out of range
    panics, which is [None]. *)
Definition TemplateVersions_Less (t : TemplateVersions) (i j : nat) : option bool :=
  match t !! i, t !! j with
  | Some a, Some b => Some (Template_less a b)
  | _, _ => None
  end.

(** [func (t TemplateVersions) Template() *Template] *)
Definition TemplateVersions_Template (t : TemplateVersions) : option Template :=
  if (length t =? 0)%nat then None else t !! (length t - 1)%nat.

Fixpoint TemplateVersions_Get_loop (t : TemplateVersions) (name : string) (i : nat) :
    option Template :=
  match i with
  | O => None
  | S i' =>
      match Template_Get (t !! i') name with
      | Some img => Some img
      | None => TemplateVersions_Get_loop t name i'
      end
  end.

(** [func (t TemplateVersions) Get(name string) *Template] *)
Definition TemplateVersions_Get (t : TemplateVersions) (name : string) : option Template :=
  TemplateVersions_Get_loop t name (length t).

Record Templates := mkTemplates {
  Templates_Default : string;
  Templates_Templates : gmap string TemplateVersions
}.

(** [t.Templates[name]]: a missing key gives the nil slice. *)
Definition Templates_index (t : Templates) (name : string) : TemplateVersions :=
  default [] (Templates_Templates t !! name).

(** [func (t *Templates) Get(name string) *Template] *)
Definition Templates_Get (t : Templates) (name : string) : option Template :=
  let name := if String.eqb name "" then Templates_Default t else name in
  TemplateVersions_Get (Templates_index t name) name.

(** [func (t *Templates) Template() *Template] *)
Definition Templates_Template (t : Templates) : option Template :=
  TemplateVersions_Template (Templates_index t (Templates_Default t)).

(** ** [machineUtil] *)

Section Manager.
Context {W : Type} `{bus_impl : Bus W}.
(** [sort.Sort] on a [TemplateVersions]. *)
Variable sort_Sort : TemplateVersions -> TemplateVersions.
Local Open Scope run_scope.

(** [func (c *machineUtil) Start(unit string) ( *Job, error)] *)
Definition machineUtil_Start (unit : string) : M W (option Job * option error) :=
  let* r := call (Call systemdDbusPath (systemdDbusInterface +:+ ".StartUnit") [unit; "fail"])
                 (systemd_StartUnit unit "fail") in
  match r with
  | inl err => ret (None, Some err)
  | inr retval => ret (Some (mkJob retval), None)
  end.

(** [func (c *machineUtil) Stop(unit string) ( *Job, error)] *)
Definition machineUtil_Stop (unit : string) : M W (option Job * option error) :=
  let* r := call (Call systemdDbusPath (systemdDbusInterface +:+ ".StopUnit") [unit; "fail"])
                 (systemd_StopUnit unit "fail") in
  match r with
  | inl err => ret (None, Some err)
  | inr retval => ret (Some (mkJob retval), None)
  end.

(** [func (c *machineUtil) AddMachine(image Image) ( *Machine, error)] *)
Definition machineUtil_AddMachine (image : Image) : M W (option nat * option error) :=
  fun st =>
    let machine :=
      mkMachine (Image_Name image)
                (strings_Replace_1 (Image_Path image) "image" "machine") in
    let ptr := length (heap st) in
    ((Some ptr, None),
     mkState (bus st) (trace st) (heap st ++ [machine])
             (<[Image_Name image := ptr]> (machines st)) (templates st)).

(** [func (c *machineUtil) GetMachineFromImage(image Image) ( *Machine, error)] *)
Definition machineUtil_GetMachineFromImage (image : Image) :
    M W (option nat * option error) :=
  fun st =>
    match machines st !! Image_Name image with
    | Some res => ((Some res, None), st)
    | None => machineUtil_AddMachine image st
    end.

(** [func (c *machineUtil) GetImage(name string) (retval Image, err error)] *)
Definition machineUtil_GetImage (name : string) : M W (Image * option error) :=
  let* r := call (Call machinedDbusPath (machinedDbusInterface +:+ ".GetImage") [name])
                 (machined_GetImage name) in
  match r with
  | inr path => ret (mkImage name path, None)
  | inl err => ret (mkImage name "", Some err)
  end.

(** [func (c *machineUtil) GetMachine(fqdn string) ( *Machine, error)] *)
Definition machineUtil_GetMachine (fqdn : string) : M W (option nat * option error) :=
  let* (image, err) := machineUtil_GetImage fqdn in
  match err with
  | Some err =>
      let msg := Error err in
      if strings_HasPrefix msg "No image" && strings_HasSuffix msg "known"
      then ret (None, Some (Wrap2 ErrNoSuchImage err))
      else ret (None, Some err)
  | None =>
      let* (machine, err) := machineUtil_GetMachineFromImage image in
      match err with
      | Some err => ret (None, Some err)
      | None => ret (machine, None)
      end
  end.

(** [func (c *machineUtil) Clone(src, dst string) ( *Machine, error)] *)
Definition machineUtil_Clone (src dst : string) : M W (option nat * option error) :=
  let* (image, err) := machineUtil_GetImage dst in
  match err with
  | None =>
      let* (machine, err) := machineUtil_GetMachineFromImage image in
      match err with
      | Some err => ret (None, Some err)
      | None => ret (machine, Some ErrAlreadyExists)
      end
  | Some _ =>
      let* call_Err :=
        call (Call machinedDbusPath (machinedDbusInterface +:+ ".CloneImage")
                   [src; dst; "false"])
             (machined_CloneImage src dst false) in
      match call_Err with
      | Some err => ret (None, Some err)
      | None => machineUtil_GetMachine dst
      end
  end.

(** [func (t *Template) Create(fqdn string) ( *Machine, error)] *)
Definition Template_Create (t : Template) (fqdn : string) : M W (option nat * option error) :=
  machineUtil_Clone (Template_Image t) fqdn.

Fixpoint listImages_loop (result : list (list Variant)) (retval : list Image) :
    list Image * option error :=
  match result with
  | [] => (retval, None)
  | i :: rest =>
      if (length i <? 7)%nat then
        ([], Some (Errorf ("invalid number of image fields: %!s(int=" +:+
                           strconv_Itoa (Z.of_nat (length i)) +:+ ")")))
      else
        match i !! 0%nat with
        | Some (VString name) =>
            match i !! 6%nat with
            | Some (VPath path) => listImages_loop rest (retval ++ [mkImage name path])
            | _ => ([], Some (Errorf "failed to typecast image field 6 to dbus.ObjectPath"))
            end
        | _ => ([], Some (Errorf "failed to typecast image field 0 to string"))
        end
  end.

(** [func (c *machineUtil) listImages() ([]Image, error)] *)
Definition machineUtil_listImages : M W (list Image * option error) :=
  let* r := call (Call machinedDbusPath (machinedDbusInterface +:+ ".ListImages") [])
                 machined_ListImages in
  match r with
  | inl err => ret ([], Some err)
  | inr result => ret (listImages_loop result [])
  end.

(** One round of the loop over the images in [ListTemplates], on
    [c.templates] and [retval]. *)
Definition ListTemplates_step
    (acc : gmap string Template * gmap string TemplateVersions) (image : Image) :
    gmap string Template * gmap string TemplateVersions :=
  let '(c_templates, retval) := acc in
  let '(name, version, found) := strings_Cut (Image_Name image) "-template_" in
  if found then
    match strconv_Atoi version with
    | None => acc
    | Some ver =>
        let '(tmpl, c_templates) :=
          match c_templates !! Image_Name image with
          | Some tmpl => (tmpl, c_templates)
          | None =>
              let tmpl := mkTemplate name ver (Image_Path image) in
              (tmpl, <[Image_Name image := tmpl]> c_templates)
          end in
        (c_templates, <[name := default [] (retval !! name) ++ [tmpl]]> retval)
    end
  else acc.

(** [func (c *machineUtil) ListTemplates(defaultTemplate string)
        (TemplateCollection, error)] *)
Definition machineUtil_ListTemplates (defaultTemplate : string) :
    M W (option Templates * option error) :=
  let* (images, err) := machineUtil_listImages in
  match err with
  | Some err => ret (None, Some err)
  | None =>
      fun st =>
        let '(c_templates, retval) :=
          foldl ListTemplates_step (templates st, ∅) images in
        let retval := sort_Sort <$> retval in
        ((Some (mkTemplates defaultTemplate retval), None),
         mkState (bus st) (trace st) (heap st) (machines st) c_templates)
  end.

End Manager.

(** ** [Machine] and [Job] *)

Definition hex_digit (n : Z) : ascii :=
  nth (Z.to_nat n) (list_ascii_of_string "0123456789abcdef") "0"%char.

(** [%x] of a byte slice. *)
Definition hex_of_bytes (l : list Z) : string :=
  string_of_list_ascii (flat_map (fun b => [hex_digit (b / 16); hex_digit (b mod 16)]) l).

(** The [switch] in [WaitForAddress]: [true] for the [default] case. *)
Definition WaitForAddress_keeps (addr : Addr) : bool :=
  if negb (IsValid addr) then false
  else if IsUnspecified addr then false
  else if IsLoopback addr then false
  else if IsLinkLocalUnicast addr then false
  else if IsLinkLocalMulticast addr then false
  else if IsInterfaceLocalMulticast addr then false
  else if IsMulticast addr then false
  else true.

(** The loop over [addrs] in [WaitForAddress], [result] growing. *)
Fixpoint WaitForAddress_collect (addrs : list Addr) (result : list Addr) : list Addr :=
  match addrs with
  | [] => result
  | addr :: rest =>
      if WaitForAddress_keeps addr then WaitForAddress_collect rest (result ++ [addr])
      else WaitForAddress_collect rest result
  end.

(** The loop in [Addresses] over the reply of [GetAddresses]. *)
Fixpoint Addresses_loop (result : list (Z * list Z)) : list Addr * option error :=
  match result with
  | [] => ([], None)
  | (version, addr) :: rest =>
      let '(a, ok) := netip_AddrFromSlice addr in
      if negb ok then
        ([], Some (Errorf ("Got invalid ip " +:+ strconv_Itoa version +:+ " " +:+
                           hex_of_bytes addr)))
      else
        match Addresses_loop rest with
        | (_, Some err) => ([], Some err)
        | (retval, None) => (a :: retval, None)
        end
  end.

Section MachineMethods.
Context {W : Type} `{bus_impl : Bus W}.
Local Open Scope run_scope.

(** [func (m *Machine) Status() (string, error)] *)
Definition Machine_Status (m : Machine) : M W (string * option error) :=
  let* r := call (Call (Machine_object m) "org.freedesktop.DBus.Properties.Get"
                       [machinedDbusMachineInterface; "State"])
                 (machine_Get_State (Machine_object m)) in
  match r with
  | inr result => ret (result, None)
  | inl err => ret ("", Some err)
  end.

(** [func (m *Machine) Running() bool] *)
Definition Machine_Running (m : Machine) : M W bool :=
  let* (result, err) := Machine_Status m in
  match err with
  | Some _ => ret false
  | None => ret (String.eqb result "running")
  end.

(** [func (m *Machine) Addresses() ([]netip.Addr, error)] *)
Definition Machine_Addresses (m : Machine) : M W (list Addr * option error) :=
  let* r := call (Call (Machine_object m) (machinedDbusMachineInterface +:+ ".GetAddresses") [])
                 (machine_GetAddresses (Machine_object m)) in
  match r with
  | inl err => ret ([], Some err)
  | inr result => ret (Addresses_loop result)
  end.

(** [func (m *Machine) WaitForAddress() ([]netip.Addr, error)], given
    [polls] rounds of its [for] loop. *)
Fixpoint Machine_WaitForAddress (polls : nat) (m : Machine) :
    M W (outcome (list Addr * option error)) :=
  match polls with
  | O => ret StillWaiting
  | S polls' =>
      let* (addrs, err) := Machine_Addresses m in
      match err with
      | Some err => ret (Returned ([], Some err))
      | None =>
          let result := WaitForAddress_collect addrs [] in
          if (0 <? length result)%nat then ret (Returned (result, None))
          else (time_Sleep 1 ;; Machine_WaitForAddress polls' m)
      end
  end.

(** [func (j *Job) Wait() error], given [polls] rounds of its [for] loop:
    it reads the job's [State] property, leaves the loop once the read
    fails, sleeps a second after a read that succeeds, and returns [nil]. *)
Fixpoint Job_Wait (polls : nat) (job : Job) : M W (outcome (option error)) :=
  match polls with
  | O => ret StillWaiting
  | S polls' =>
      let* r := call (Call (Job_object job) "org.freedesktop.DBus.Properties.Get"
                           ["org.freedesktop.systemd1.Job"; "State"])
                     (job_Get_State (Job_object job)) in
      match r with
      | inl _ => ret (Returned None)
      | inr _ => (time_Sleep time_Second ;; Job_Wait polls' job)
      end
  end.

(** The last [for] loop of [Start]. *)
Fixpoint Start_wait_unit (polls : nat) (m : Machine) : M W (outcome (option error)) :=
  match polls with
  | O => ret StillWaiting
  | S polls' =>
      let* (result, err) := Machine_Status m in
      match err with
      | Some err =>
          (emit (Log LevelError "Unexpected error"
                     [("machine", Machine_Name m); ("error", Error err)]) ;;
           ret (Returned (Some err)))
      | None =>
          if String.eqb result "running" then ret (Returned None)
          else (time_Sleep time_Second ;; Start_wait_unit polls' m)
      end
  end.

(** [func (m *Machine) Start() error], each of its loops given [polls]
    rounds.  ([machineUtil_Start] returns a job whenever it returns no
    error; the case of neither is there for the match to be complete.) *)
Definition Machine_Start (polls : nat) (m : Machine) : M W (outcome (option error)) :=
  let* running := Machine_Running m in
  if running then ret (Returned None)
  else
    (emit (Log LevelDebug "Starting machine job" [("machine", Machine_Name m)]) ;;
     let* (job, err) := machineUtil_Start ("systemd-nspawn@" +:+ Machine_Name m +:+ ".service") in
     match err, job with
     | Some err, _ => ret (Returned (Some err))
     | None, None => ret (Returned None)
     | None, Some job =>
         let* waited := Job_Wait polls job in
         match waited with
         | StillWaiting => ret StillWaiting
         | Returned (Some err) => ret (Returned (Some err))
         | Returned None =>
             (emit (Log LevelDebug "Job completed, waiting for unit"
                        [("machine", Machine_Name m)]) ;;
              Start_wait_unit polls m)
         end
     end).

(** The last [for] loop of [Stop]. *)
Fixpoint Stop_wait_unit (polls : nat) (m : Machine) : M W (outcome (option error)) :=
  match polls with
  | O => ret StillWaiting
  | S polls' =>
      let* running := Machine_Running m in
      if running then (time_Sleep time_Second ;; Stop_wait_unit polls' m)
      else ret (Returned None)
  end.

(** [func (m *Machine) Stop() error], each of its loops given [polls]
    rounds.  ([machineUtil_Stop] returns a job whenever it returns no
    error.) *)
Definition Machine_Stop (polls : nat) (m : Machine) : M W (outcome (option error)) :=
  let* running := Machine_Running m in
  if negb running then ret (Returned None)
  else
    let* (job, err) := machineUtil_Stop ("systemd-nspawn@" +:+ Machine_Name m +:+ ".service") in
    match err, job with
    | Some err, _ => ret (Returned (Some err))
    | None, None => ret (Returned None)
    | None, Some job =>
        let* waited := Job_Wait polls job in
        match waited with
        | StillWaiting => ret StillWaiting
        | Returned (Some err) => ret (Returned (Some err))
        | Returned None => Stop_wait_unit polls m
        end
    end.

End MachineMethods.

(** ** A simulated bus

    A small [systemd-machined] and [systemd] to run the model on: the
    images by name, the state and the addresses of the machines by object
    path.  Jobs finish at once (their object is gone at the first read). *)

Record Sim := mkSim {
  sim_images : list (string * ObjectPath);
  sim_states : list (ObjectPath * string);
  sim_addresses : list (ObjectPath * list (Z * list Z))
}.

Fixpoint assoc {A} (k : string) (l : list (string * A)) : option A :=
  match l with
  | [] => None
  | (k', v) :: l' => if String.eqb k k' then Some v else assoc k l'
  end.

Definition sim_image_row (entry : string * ObjectPath) : list Variant :=
  [VString entry.1; VString "directory"; VOther; VOther; VOther; VOther; VPath entry.2].

#[global] Instance sim_bus : Bus Sim := {|
  machined_GetImage name b :=
    (match assoc name (sim_images b) with
     | Some path => inr path
     | None => inl (BusError ("No image '" +:+ name +:+ "' known"))
     end, b);
  machined_CloneImage src dst read_only b :=
    match assoc src (sim_images b) with
    | Some _ =>
        (None, mkSim (sim_images b ++ [(dst, "/org/freedesktop/machine1/image/" +:+ dst)])
                     (sim_states b) (sim_addresses b))
    | None => (Some (BusError ("No image '" +:+ src +:+ "' known")), b)
    end;
  machined_ListImages b := (inr (map sim_image_row (sim_images b)), b);
  systemd_StartUnit unit mode b := (inr "/org/freedesktop/systemd1/job/1", b);
  systemd_StopUnit unit mode b := (inr "/org/freedesktop/systemd1/job/2", b);
  machine_Get_State path b :=
    (match assoc path (sim_states b) with
     | Some state => inr state
     | None => inl (BusError "No machine known")
     end, b);
  machine_GetAddresses path b :=
    (match assoc path (sim_addresses b) with
     | Some addrs => inr addrs
     | None => inl (BusError "No machine known")
     end, b);
  job_Get_State path b := (inl (BusError "Unknown object"), b)
|}.

(** A fresh run ([NewMachineUtil]) against the peers [b]. *)
Definition new_run {W} (b : W) : State W :=
  mkState b [] [] ∅ ∅.

(** ** Properties of the template catalog *)

(** The order [sort.Sort] leaves a [TemplateVersions] in: no element is
    [Less] than one before it. *)
Definition Template_le (a b : Template) : Prop := Template_less b a = false.

#[global] Instance Template_le_dec : RelDecision Template_le.
Proof. intros a b. unfold Template_le. apply _. Defined.

Lemma ltb_slt x y : String.ltb x y = true <-> Util.slt x y.
Proof.
  unfold String.ltb, Util.slt. destruct (String.compare x y); naive_solver.
Qed.

Lemma Template_less_spec a b :
  Template_less a b = true <->
  Util.slt (Template_Name a) (Template_Name b) \/
  (Template_Name a = Template_Name b /\ Template_Version a < Template_Version b).
Proof.
  unfold Template_less.
  destruct (String.ltb (Template_Name a) (Template_Name b)) eqn:H1.
  - apply ltb_slt in H1. naive_solver.
  - assert (~ Util.slt (Template_Name a) (Template_Name b)) as Hn1
      by (rewrite <- ltb_slt; congruence).
    destruct (String.ltb (Template_Name b) (Template_Name a)) eqn:H2.
    + apply ltb_slt in H2. split; [done|]. intros [?|[Heq _]]; [done|].
      rewrite Heq in H2. by apply Util.slt_irrefl in H2.
    + assert (~ Util.slt (Template_Name b) (Template_Name a)) as Hn2
        by (rewrite <- ltb_slt; congruence).
      destruct (Util.slt_trichotomy (Template_Name a) (Template_Name b))
        as [?|[Heq|?]]; try done.
      rewrite Z.ltb_lt. naive_solver.
Qed.

Lemma Template_le_spec a b :
  Template_le a b <->
  Util.slt (Template_Name a) (Template_Name b) \/
  (Template_Name a = Template_Name b /\ Template_Version a <= Template_Version b).
Proof.
  unfold Template_le. rewrite <- not_true_iff_false, Template_less_spec.
  destruct (Util.slt_trichotomy (Template_Name a) (Template_Name b)) as [H|[H|H]].
  - split; [auto|]. intros _ [H'|[H' _]].
    + apply (Util.slt_irrefl (Template_Name a)). eauto using Util.slt_trans.
    + rewrite H' in H. by apply Util.slt_irrefl in H.
  - rewrite H. pose proof (Util.slt_irrefl (Template_Name b)). split.
    + intros Hn. right. split; [done|].
      destruct (Z.le_gt_cases (Template_Version a) (Template_Version b)); [done|].
      destruct Hn. right. split; [done|lia].
    + intros [?|[_ ?]] [?|[_ ?]]; try done. lia.
  - split.
    + intros Hn. destruct Hn. by left.
    + intros [H'|[H' _]] _.
      * apply (Util.slt_irrefl (Template_Name a)). eauto using Util.slt_trans.
      * rewrite H' in H. by apply Util.slt_irrefl in H.
Qed.

#[global] Instance Template_le_trans : Transitive Template_le.
Proof.
  intros a b c. rewrite !Template_le_spec.
  intros [H1|[E1 H1]] [H2|[E2 H2]].
  - left. eauto using Util.slt_trans.
  - left. by rewrite <- E2.
  - left. by rewrite E1.
  - right. split; [congruence|lia].
Qed.

#[global] Instance Template_le_total : Total Template_le.
Proof.
  intros a b. rewrite !Template_le_spec.
  destruct (Util.slt_trichotomy (Template_Name a) (Template_Name b)) as [H|[H|H]];
    [by left; left| |by right; left].
  destruct (Z.le_ge_cases (Template_Version a) (Template_Version b));
    [left|right]; right; by split.
Qed.

Lemma Template_Get_Some t name img :
  Template_Get t name = Some img <-> t = Some img /\ Template_Name img = name.
Proof.
  unfold Template_Get. destruct t as [t'|]; [|naive_solver].
  destruct (String.eqb_spec name (Template_Name t')); simpl; naive_solver.
Qed.

Lemma Template_Get_None t name :
  Template_Get t name = None <->
  forall img, t = Some img -> Template_Name img <> name.
Proof.
  unfold Template_Get. destruct t as [t'|]; [|naive_solver].
  destruct (String.eqb_spec name (Template_Name t')); simpl; naive_solver.
Qed.

(** The loop of [TemplateVersions.Get] from index [i] downwards returns the
    element of that name with the largest index below [i]. *)
Lemma TemplateVersions_Get_loop_spec (t : TemplateVersions) name i :
  match TemplateVersions_Get_loop t name i with
  | Some img =>
      exists j, (j < i)%nat /\ t !! j = Some img /\ Template_Name img = name /\
        forall j' t', (j < j' < i)%nat -> t !! j' = Some t' -> Template_Name t' <> name
  | None =>
      forall j t', (j < i)%nat -> t !! j = Some t' -> Template_Name t' <> name
  end.
Proof.
  induction i as [|i IH]; simpl.
  - intros; lia.
  - destruct (Template_Get (t !! i) name) as [img|] eqn:Hg.
    + apply Template_Get_Some in Hg as [Hi Hn].
      exists i. repeat split; try done; [lia|]. intros; lia.
    + rewrite Template_Get_None in Hg.
      destruct (TemplateVersions_Get_loop t name i) as [img|].
      * destruct IH as (j & Hj & Hl & Hn & Hmax).
        exists j. repeat split; try done; [lia|].
        intros j' t' Hj' Ht'. destruct (decide (j' = i)) as [->|]; [by apply Hg|].
        apply (Hmax j'); [lia|done].
      * intros j t' Hj Ht'. destruct (decide (j = i)) as [->|]; [by apply Hg|].
        apply (IH j); [lia|done].
Qed.

Lemma StronglySorted_lookup_lt {A} (R : relation A) (l : list A) i j x y :
  StronglySorted R l -> (i < j)%nat -> l !! i = Some x -> l !! j = Some y -> R x y.
Proof.
  intros Hs. revert i j. induction Hs as [|a l Hs IH Ha]; intros i j Hij Hi Hj.
  - done.
  - destruct j as [|j]; [lia|]. simpl in Hj. destruct i as [|i]; simpl in Hi.
    + simplify_eq. rewrite Forall_forall in Ha. apply Ha.
      by eapply list_elem_of_lookup_2.
    + apply (IH i j); [lia|done..].
Qed.

(** In a sorted group the element [Get] returns has the highest version
    among those of its name, and [Get] returns nothing only when no element
    has that name. *)
Lemma TemplateVersions_Get_highest (t : TemplateVersions) name :
  Sorted Template_le t ->
  match TemplateVersions_Get t name with
  | Some img =>
      img ∈ t /\ Template_Name img = name /\
      forall t', t' ∈ t -> Template_Name t' = name ->
                 Template_Version t' <= Template_Version img
  | None => forall t', t' ∈ t -> Template_Name t' <> name
  end.
Proof.
  intros Hs. apply (Sorted_StronglySorted _) in Hs.
  unfold TemplateVersions_Get.
  pose proof (TemplateVersions_Get_loop_spec t name (length t)) as H.
  destruct (TemplateVersions_Get_loop t name (length t)) as [img|].
  - destruct H as (j & Hj & Hl & Hn & Hmax).
    split; [by eapply list_elem_of_lookup_2|]. split; [done|].
    intros t' [j' Hj']%list_elem_of_lookup Hn'.
    destruct (decide (j' = j)) as [->|Hne].
    { assert (t' = img) as -> by congruence. lia. }
    destruct (decide (j < j')%nat) as [Hlt|Hge].
    + destruct (Hmax j' t'); [|done..]. split; [done|]. by apply lookup_lt_Some in Hj'.
    + assert (Template_le t' img) as Hle.
      { apply (StronglySorted_lookup_lt _ t j' j); [done|lia|done..]. }
      apply Template_le_spec in Hle as [Hlt|[_ ?]]; [|done].
      rewrite Hn, Hn' in Hlt. by apply Util.slt_irrefl in Hlt.
  - intros t' [j' Hj']%list_elem_of_lookup. apply (H j'); [|done].
    by apply lookup_lt_Some in Hj'.
Qed.

(** A catalog whose groups are per name and sorted. *)
Definition catalog_sorted (T : Templates) : Prop :=
  forall k g, Templates_Templates T !! k = Some g ->
    Sorted Template_le g /\ Forall (fun t => Template_Name t = k) g.

(** C5: in a catalog whose per-name groups are sorted by (name, version),
    [Templates.Get] with the name [key] (the default name when the
    argument is empty) returns a template of that name from the catalog
    whose version is the highest of that name in the whole catalog, and
    [nil] exactly when the catalog has no template of that name. *)
Theorem Templates_Get_highest (T : Templates) (name : string) :
  catalog_sorted T ->
  let key := if String.eqb name "" then Templates_Default T else name in
  match Templates_Get T name with
  | Some t =>
      Template_Name t = key /\
      t ∈ Templates_index T key /\
      forall k g t', Templates_Templates T !! k = Some g -> t' ∈ g ->
                     Template_Name t' = key ->
                     Template_Version t' <= Template_Version t
  | None =>
      forall k g t', Templates_Templates T !! k = Some g -> t' ∈ g ->
                     Template_Name t' <> key
  end.
Proof.
  intros Hok key. unfold Templates_Get. fold key.
  assert (Sorted Template_le (Templates_index T key)) as Hs.
  { unfold Templates_index. destruct (Templates_Templates T !! key) eqn:Hk; simpl.
    - by apply (Hok key).
    - constructor. }
  assert (forall k g t', Templates_Templates T !! k = Some g -> t' ∈ g ->
            Template_Name t' = key -> t' ∈ Templates_index T key) as Hin.
  { intros k g t' Hk Ht' Hn. destruct (Hok k g Hk) as [_ Hall].
    rewrite Forall_forall in Hall. rewrite (Hall t' Ht') in Hn. subst k.
    unfold Templates_index. by rewrite Hk. }
  pose proof (TemplateVersions_Get_highest (Templates_index T key) key Hs) as H.
  destruct (TemplateVersions_Get (Templates_index T key) key) as [t|].
  - destruct H as (H1 & H2 & H3). repeat split; try done.
    intros k g t' Hk Ht' Hn. apply H3; [|done]. eauto.
  - intros k g t' Hk Ht' Hn. by apply (H t'); [eauto|].
Qed.

(** What the name of an image says when it names a template:
    [<name>-template_<version>] with [<version>] an integer. *)
Definition template_of_name (image_name : string) : option (string * Z) :=
  let '(name, version, found) := strings_Cut image_name "-template_" in
  if found then
    match strconv_Atoi version with
    | Some ver => Some (name, ver)
    | None => None
    end
  else None.

(** The versions of the template images called [k] in a listing, in order. *)
Definition versions_listed (k : string) (images : list Image) : list Z :=
  omap (fun image =>
          match template_of_name (Image_Name image) with
          | Some (name, ver) => if decide (name = k) then Some ver else None
          | None => None
          end) images.

(** [c.templates] holds, under an image name, a template of the name and
    the version the image name gives. *)
Definition cache_ok (c : gmap string Template) : Prop :=
  forall key t, c !! key = Some t ->
    template_of_name key = Some (Template_Name t, Template_Version t).

(** [NewMachineUtil] starts with an empty map and [Remove] only deletes
    from it. *)
Lemma cache_ok_empty : cache_ok ∅.
Proof. intros key t. by rewrite lookup_empty. Qed.

Lemma cache_ok_delete c key : cache_ok c -> cache_ok (delete key c).
Proof.
  intros Hc key' t. rewrite lookup_delete_Some. intros [_ Hl]. by apply Hc.
Qed.

Definition groups_named (r : gmap string TemplateVersions) : Prop :=
  forall k g, r !! k = Some g -> g <> [] /\ Forall (fun t => Template_Name t = k) g.

Lemma ListTemplates_step_spec c r image c' r' :
  cache_ok c -> groups_named r ->
  ListTemplates_step (c, r) image = (c', r') ->
  cache_ok c' /\ groups_named r' /\
  forall k, Template_Version <$> default [] (r' !! k) =
            (Template_Version <$> default [] (r !! k)) ++ versions_listed k [image].
Proof.
  intros Hc Hr. unfold ListTemplates_step, versions_listed, template_of_name; simpl.
  destruct (strings_Cut (Image_Name image) "-template_") as [[name version] found] eqn:Hcut.
  destruct found; cycle 1.
  { intros [= <- <-]. split; [done|split; [done|]]. intros k. by rewrite app_nil_r. }
  destruct (strconv_Atoi version) as [ver|] eqn:Hver; cycle 1.
  { intros [= <- <-]. split; [done|split; [done|]]. intros k. by rewrite app_nil_r. }
  assert (template_of_name (Image_Name image) = Some (name, ver)) as Hparsed.
  { unfold template_of_name. by rewrite Hcut, Hver. }
  destruct (c !! Image_Name image) as [tmpl|] eqn:Hlook.
  - intros [= <- <-]. pose proof (Hc _ _ Hlook) as Ht. rewrite Hparsed in Ht.
    injection Ht as Hn Hv. split; [done|]. split.
    + intros k g. destruct (decide (name = k)) as [<-|Hne].
      * rewrite lookup_insert_eq. intros [= <-]. split; [by destruct (default [] _)|].
        apply Forall_app. split; [|by repeat constructor].
        destruct (r !! name) as [g|] eqn:Hg; simpl; [|constructor]. by apply (Hr name).
      * rewrite lookup_insert_ne by done. apply Hr.
    + intros k. destruct (decide (name = k)) as [<-|Hne].
      * rewrite lookup_insert_eq. simpl. by rewrite fmap_app, Hv.
      * rewrite lookup_insert_ne by done. by rewrite app_nil_r.
  - intros [= <- <-]. split; [|split].
    + intros key t. destruct (decide (Image_Name image = key)) as [<-|Hne].
      * rewrite lookup_insert_eq. by intros [= <-].
      * rewrite lookup_insert_ne by done. apply Hc.
    + intros k g. destruct (decide (name = k)) as [<-|Hne].
      * rewrite lookup_insert_eq. intros [= <-]. split; [by destruct (default [] _)|].
        apply Forall_app. split; [|by repeat constructor].
        destruct (r !! name) as [g|] eqn:Hg; simpl; [|constructor]. by apply (Hr name).
      * rewrite lookup_insert_ne by done. apply Hr.
    + intros k. destruct (decide (name = k)) as [<-|Hne].
      * rewrite lookup_insert_eq. simpl. by rewrite fmap_app.
      * rewrite lookup_insert_ne by done. by rewrite app_nil_r.
Qed.

Lemma versions_listed_app k l1 l2 :
  versions_listed k (l1 ++ l2) = versions_listed k l1 ++ versions_listed k l2.
Proof. unfold versions_listed. apply omap_app. Qed.

Lemma ListTemplates_loop_spec images c r c' r' :
  cache_ok c -> groups_named r ->
  foldl ListTemplates_step (c, r) images = (c', r') ->
  cache_ok c' /\ groups_named r' /\
  forall k, Template_Version <$> default [] (r' !! k) =
            (Template_Version <$> default [] (r !! k)) ++ versions_listed k images.
Proof.
  revert c r. induction images as [|image images IH]; intros c r Hc Hr; cbn [foldl].
  - intros [= <- <-]. split; [done|split; [done|]]. intros k. by rewrite app_nil_r.
  - destruct (ListTemplates_step (c, r) image) as [c1 r1] eqn:Hstep.
    destruct (ListTemplates_step_spec c r image c1 r1 Hc Hr Hstep) as (Hc1 & Hr1 & Hv1).
    intros Hfold. destruct (IH c1 r1 Hc1 Hr1 Hfold) as (Hc' & Hr' & Hv').
    split; [done|split; [done|]]. intros k.
    rewrite Hv', Hv1, <- app_assoc. f_equal.
    by rewrite <- versions_listed_app.
Qed.

(** In a sorted group of templates of one name the last has the highest
    version. *)
Lemma TemplateVersions_Template_highest (g : TemplateVersions) k last t :
  Sorted Template_le g -> Forall (fun t => Template_Name t = k) g ->
  TemplateVersions_Template g = Some last -> t ∈ g ->
  Template_Version t <= Template_Version last.
Proof.
  intros Hs Hall Hlast [i Hi]%list_elem_of_lookup.
  apply (Sorted_StronglySorted _) in Hs. rewrite Forall_forall in Hall.
  unfold TemplateVersions_Template in Hlast.
  destruct (length g =? 0)%nat; [done|].
  pose proof (lookup_lt_Some _ _ _ Hi) as Hlt.
  destruct (decide (i = length g - 1)%nat) as [->|Hne].
  { assert (t = last) as -> by congruence. lia. }
  assert (Template_le t last) as Hle.
  { apply (StronglySorted_lookup_lt _ g i (length g - 1)); [done|lia|done..]. }
  apply Template_le_spec in Hle as [Hn|[_ ?]]; [|done].
  rewrite (Hall t), (Hall last) in Hn by by eapply list_elem_of_lookup_2.
  by apply Util.slt_irrefl in Hn.
Qed.

Section CatalogProperties.
Context {W : Type} `{bus_impl : Bus W}.
Variable sort_Sort : TemplateVersions -> TemplateVersions.

(** C8: when [sort.Sort] sorts (a sorted permutation) and [c.templates] is
    as [ListTemplates] leaves it, [ListTemplates] on a listing of images
    returns a catalog and no error; the versions in the group of a name
    are, up to order, those of the listed images called
    [<name>-template_<version>] with an integer [<version>], so an image
    is in the catalog only if its name reads so and an image whose version
    is no integer is left out; and every group is non-empty, of templates
    of its name, sorted, with the highest version last. *)
Theorem ListTemplates_catalog (defaultTemplate : string) (st : State W)
    (rows : list (list Variant)) (images : list Image) (b : W) :
  (forall l, sort_Sort l ≡ₚ l) ->
  (forall l, Sorted Template_le (sort_Sort l)) ->
  cache_ok (templates st) ->
  machined_ListImages (bus st) = (inr rows, b) ->
  listImages_loop rows [] = (images, None) ->
  exists T st',
    machineUtil_ListTemplates sort_Sort defaultTemplate st = ((Some T, None), st') /\
    Templates_Default T = defaultTemplate /\
    cache_ok (templates st') /\
    catalog_sorted T /\
    (forall k, Template_Version <$> Templates_index T k ≡ₚ versions_listed k images) /\
    (forall k g t, Templates_Templates T !! k = Some g -> t ∈ g ->
       exists image, image ∈ images /\
         template_of_name (Image_Name image) = Some (k, Template_Version t)) /\
    (forall k g, Templates_Templates T !! k = Some g ->
       g <> [] /\
       forall last t, TemplateVersions_Template g = Some last -> t ∈ g ->
                      Template_Version t <= Template_Version last).
Proof.
  intros Hperm Hsorted Hc Hlist Hloop.
  unfold machineUtil_ListTemplates, machineUtil_listImages, bind, call, ret.
  rewrite Hlist. simpl. rewrite Hloop.
  destruct (foldl ListTemplates_step (templates st, ∅) images) as [c' r'] eqn:Hfold.
  destruct (ListTemplates_loop_spec images (templates st) ∅ c' r' Hc) as (Hc' & Hr' & Hv);
    [by intros k g; rewrite lookup_empty|done|].
  assert (forall k g, (sort_Sort <$> r') !! k = Some g ->
            exists g0, r' !! k = Some g0 /\ g = sort_Sort g0) as Hgrp.
  { intros k g. rewrite lookup_fmap. destruct (r' !! k); naive_solver. }
  assert (catalog_sorted (mkTemplates defaultTemplate (sort_Sort <$> r'))) as Hcat.
  { intros k g Hk. simpl in Hk. destruct (Hgrp k g Hk) as (g0 & Hg0 & ->).
    split; [apply Hsorted|]. rewrite Hperm. by apply (Hr' k). }
  assert (forall k, Template_Version <$>
                      Templates_index (mkTemplates defaultTemplate (sort_Sort <$> r')) k
                    ≡ₚ versions_listed k images) as Hvers.
  { intros k. unfold Templates_index; simpl. rewrite lookup_fmap.
    specialize (Hv k). rewrite lookup_empty in Hv. simpl in Hv. rewrite <- Hv.
    destruct (r' !! k); simpl; [by rewrite Hperm|done]. }
  cbn [templates]. rewrite Hfold.
  eexists _, _. split; [reflexivity|]. simpl.
  split; [done|]. split; [done|]. split; [done|]. split; [done|]. split.
  - intros k g t Hk Ht.
    assert (Template_Version t ∈ versions_listed k images) as Hin.
    { rewrite <- Hvers. unfold Templates_index; simpl. rewrite Hk. simpl.
      by apply list_elem_of_fmap_2. }
    apply list_elem_of_omap in Hin as (image & Himg & Hparsed).
    exists image. split; [done|].
    destruct (template_of_name (Image_Name image)) as [[name ver]|]; [|done].
    destruct (decide (name = k)); naive_solver.
  - intros k g Hk. destruct (Hcat k g Hk) as [Hs Hall].
    destruct (Hgrp k g Hk) as (g0 & Hg0 & ->). split.
    + intros Hnil. destruct (Hr' k g0 Hg0) as [Hne _]. apply Hne.
      apply Permutation_nil_r. by rewrite <- (Hperm g0), Hnil.
    + intros last t. by apply TemplateVersions_Template_highest with k.
Qed.

End CatalogProperties.

(** ** Properties of machine handles *)

(** The addresses [WaitForAddress] keeps, as the specification lists them. *)
Definition usable (a : Addr) : Prop :=
  IsValid a = true /\ IsUnspecified a = false /\ IsLoopback a = false /\
  IsLinkLocalUnicast a = false /\ IsLinkLocalMulticast a = false /\
  IsInterfaceLocalMulticast a = false /\ IsMulticast a = false.

#[global] Instance usable_dec a : Decision (usable a).
Proof. unfold usable. apply _. Defined.

Lemma WaitForAddress_keeps_usable a : WaitForAddress_keeps a = true <-> usable a.
Proof.
  unfold WaitForAddress_keeps, usable.
  destruct (IsValid a), (IsUnspecified a), (IsLoopback a), (IsLinkLocalUnicast a),
    (IsLinkLocalMulticast a), (IsInterfaceLocalMulticast a), (IsMulticast a);
    simpl; naive_solver.
Qed.

Lemma WaitForAddress_collect_filter addrs result :
  WaitForAddress_collect addrs result = result ++ filter usable addrs.
Proof.
  revert result. induction addrs as [|a addrs IH]; intros result; simpl.
  - by rewrite app_nil_r.
  - destruct (WaitForAddress_keeps a) eqn:Hk.
    + rewrite IH, filter_cons_True by by apply WaitForAddress_keeps_usable.
      by rewrite <- app_assoc.
    + rewrite IH, filter_cons_False; [done|].
      rewrite <- WaitForAddress_keeps_usable. by rewrite Hk.
Qed.

(** The reply of [GetAddresses] in the scenario of the specification:
    127.0.0.1, fe80::1 and 203.0.113.5. *)
Definition scenario_reply : list (Z * list Z) :=
  [(2, [127; 0; 0; 1]);
   (10, [0xfe; 0x80; 0; 0; 0; 0; 0; 0; 0; 0; 0; 0; 0; 0; 0; 1]);
   (2, [203; 0; 113; 5])].

(** Closes a goal [exists rest, l ++ ... = l ++ ... ++ rest]. *)
Ltac trace_tail :=
  eexists; rewrite <- ?app_assoc; simpl; rewrite <- ?app_assoc; reflexivity.

Section HandleProperties.
Context {W : Type} `{bus_impl : Bus W}.

Definition after_call (ev : Event) (b : W) (st : State W) : State W :=
  mkState b (trace st ++ [ev]) (heap st) (machines st) (templates st).

Definition after_event (ev : Event) (st : State W) : State W :=
  after_call ev (bus st) st.

Definition GetAddresses_call (m : Machine) : Event :=
  Call (Machine_object m) (machinedDbusMachineInterface +:+ ".GetAddresses") [].

Definition Status_call (m : Machine) : Event :=
  Call (Machine_object m) "org.freedesktop.DBus.Properties.Get"
       [machinedDbusMachineInterface; "State"].

Definition StartUnit_call (m : Machine) : Event :=
  Call systemdDbusPath (systemdDbusInterface +:+ ".StartUnit")
       ["systemd-nspawn@" +:+ Machine_Name m +:+ ".service"; "fail"].

Definition GetImage_call (name : string) : Event :=
  Call machinedDbusPath (machinedDbusInterface +:+ ".GetImage") [name].

Definition CloneImage_call (src dst : string) : Event :=
  Call machinedDbusPath (machinedDbusInterface +:+ ".CloneImage") [src; dst; "false"].

(** C7: one poll of [WaitForAddress] that reads the addresses [addrs]
    keeps exactly the usable ones (valid, not unspecified, not loopback,
    not link-local unicast or multicast, not interface-local multicast, not
    multicast), returns them at once when there is one, and otherwise
    sleeps and polls again; on the reply 127.0.0.1, fe80::1, 203.0.113.5
    it returns exactly 203.0.113.5. *)
Theorem WaitForAddress_filters (polls : nat) (m : Machine) (st : State W)
    (reply : list (Z * list Z)) (addrs : list Addr) (b : W) :
  machine_GetAddresses (Machine_object m) (bus st) = (inr reply, b) ->
  Addresses_loop reply = (addrs, None) ->
  let st1 := after_call (GetAddresses_call m) b st in
  Machine_WaitForAddress (S polls) m st =
    (if decide (filter usable addrs = [])
     then Machine_WaitForAddress polls m (after_event (Sleep 1) st1)
     else (Returned (filter usable addrs, None), st1)) /\
  (reply = scenario_reply ->
   Machine_WaitForAddress (S polls) m st = (Returned ([Addr4 [203; 0; 113; 5]], None), st1)).
Proof.
  intros Hget Hloop st1.
  assert (Machine_WaitForAddress (S polls) m st =
    (if decide (filter usable addrs = [])
     then Machine_WaitForAddress polls m (after_event (Sleep 1) st1)
     else (Returned (filter usable addrs, None), st1))) as Heq.
  { simpl. unfold bind, Machine_Addresses, bind, call. rewrite Hget.
    unfold ret. rewrite Hloop. rewrite WaitForAddress_collect_filter. simpl.
    destruct (filter usable addrs) as [|a l]; simpl; done. }
  split; [done|].
  intros ->. rewrite Heq.
  vm_compute in Hloop. injection Hloop as <-. reflexivity.
Qed.

(** C9: [GetMachineFromImage] returns a handle without error and has it
    in the registry under the image's name when it returns: the cached
    handle, nothing else changing, if the name was registered, a newly
    allocated one otherwise; resolving the same name again (whatever the
    image's path) returns that same handle and changes nothing, so no
    second [Machine] is constructed. *)
Theorem GetMachineFromImage_memoized (name : string) (path path' : ObjectPath)
    (st : State W) :
  exists ptr st1,
    machineUtil_GetMachineFromImage (mkImage name path) st = ((Some ptr, None), st1) /\
    machines st1 !! name = Some ptr /\
    match machines st !! name with
    | Some cached => ptr = cached /\ st1 = st
    | None =>
        ptr = length (heap st) /\
        heap st1 = heap st ++ [mkMachine name (strings_Replace_1 path "image" "machine")]
    end /\
    machineUtil_GetMachineFromImage (mkImage name path') st1 = ((Some ptr, None), st1).
Proof.
  unfold machineUtil_GetMachineFromImage, machineUtil_AddMachine; simpl.
  destruct (machines st !! name) as [cached|] eqn:Hm.
  - exists cached, st. rewrite Hm. done.
  - eexists _, _. split; [reflexivity|]. simpl.
    rewrite lookup_insert_eq. done.
Qed.

Lemma Job_Wait_trace polls job (st : State W) :
  exists rest, trace (Job_Wait polls job st).2 = trace st ++ rest.
Proof.
  revert st. induction polls as [|polls IH]; intros st; simpl.
  - exists []. by rewrite app_nil_r.
  - unfold bind, call, ret, time_Sleep, emit.
    destruct (job_Get_State (Job_object job) (bus st)) as [[e|s] b]; simpl.
    + eauto.
    + match goal with |- context [Job_Wait polls job ?s] => destruct (IH s) as [rest Hr] end.
      rewrite Hr. simpl. rewrite <- !app_assoc. eauto.
Qed.

Lemma Start_wait_unit_trace polls m (st : State W) :
  exists rest, trace (Start_wait_unit polls m st).2 = trace st ++ rest.
Proof.
  revert st. induction polls as [|polls IH]; intros st; simpl.
  - exists []. by rewrite app_nil_r.
  - unfold bind, Machine_Status, bind, call, ret, time_Sleep, emit.
    destruct (machine_Get_State (Machine_object m) (bus st)) as [[e|s] b]; simpl.
    + rewrite <- app_assoc. eauto.
    + destruct (String.eqb s "running"); simpl; [eauto|].
      match goal with |- context [Start_wait_unit polls m ?s] => destruct (IH s) as [rest Hr] end.
      rewrite Hr. simpl. rewrite <- !app_assoc. eauto.
Qed.

(** C10: when the read of the machine's state fails, [Running] returns
    [false]; [Stop] then returns [nil] having made that read and no other
    call (no stop job); [Start] goes on to log and to call [StartUnit] for
    the machine's service. *)
Theorem Running_swallows_error (polls : nat) (m : Machine) (st : State W)
    (err : error) (b : W) :
  machine_Get_State (Machine_object m) (bus st) = (inl err, b) ->
  let st1 := after_call (Status_call m) b st in
  Machine_Running m st = (false, st1) /\
  Machine_Stop polls m st = (Returned None, st1) /\
  exists rest,
    trace (Machine_Start polls m st).2 =
      trace st ++ [Status_call m;
                   Log LevelDebug "Starting machine job" [("machine", Machine_Name m)];
                   StartUnit_call m] ++ rest.
Proof.
  intros Hs st1.
  assert (Machine_Running m st = (false, st1)) as Hrun.
  { unfold Machine_Running, bind, Machine_Status, bind, call. by rewrite Hs. }
  split; [done|]. split.
  - unfold Machine_Stop, bind. by rewrite Hrun.
  - unfold Machine_Start, bind at 1. rewrite Hrun. simpl.
    unfold bind at 1. unfold emit at 1. unfold bind at 1.
    unfold machineUtil_Start, bind at 1, call. simpl.
    destruct (systemd_StartUnit _ _ b) as [[e|job] b'] eqn:Hstart; simpl.
    + exists []. unfold ret; simpl. rewrite <- !app_assoc. done.
    + unfold ret at 1. unfold bind at 1.
      match goal with |- context [Job_Wait polls ?j ?s] =>
        destruct (Job_Wait_trace polls j s) as [rest1 Hr1];
        destruct (Job_Wait polls j s) as [[[e|]|] st2] eqn:Hw
      end; simpl in *.
      * exists rest1. unfold ret; simpl. rewrite Hr1, <- !app_assoc. done.
      * unfold bind, emit.
        match goal with |- context [Start_wait_unit polls m ?s] =>
          destruct (Start_wait_unit_trace polls m s) as [rest2 Hr2]
        end.
        rewrite Hr2. simpl. rewrite Hr1, <- !app_assoc. simpl. eauto.
      * exists rest1. unfold ret; simpl. rewrite Hr1, <- !app_assoc. done.
Qed.

(** C6 (amended): when [GetImage] finds an image of the target name,
    [Template.Create] makes no further call and returns the registered
    machine handle together with the error [ErrAlreadyExists]; when
    [GetImage] fails, its next call is [CloneImage] of the template's image
    under the target name. *)
Theorem Template_Create_existing (t : Template) (fqdn : string) (st : State W) :
  match machined_GetImage fqdn (bus st) with
  | (inr path, b) =>
      exists ptr st',
        Template_Create t fqdn st = ((Some ptr, Some ErrAlreadyExists), st') /\
        machines st' !! fqdn = Some ptr /\
        bus st' = b /\
        trace st' = trace st ++ [GetImage_call fqdn]
  | (inl _, b) =>
      exists rest,
        trace (Template_Create t fqdn st).2 =
          trace st ++ [GetImage_call fqdn; CloneImage_call (Template_Image t) fqdn] ++ rest
  end.
Proof.
  unfold Template_Create, machineUtil_Clone, machineUtil_GetMachine,
    machineUtil_GetImage, machineUtil_GetMachineFromImage, machineUtil_AddMachine.
  unfold bind, call, ret; simpl.
  destruct (machined_GetImage fqdn (bus st)) as [[e|path] b]; simpl.
  - destruct (machined_CloneImage (Template_Image t) fqdn false b) as [[e'|] b'];
      simpl.
    + trace_tail.
    + destruct (machined_GetImage fqdn b') as [[e2|path2] b2]; simpl.
      * destruct (strings_HasPrefix _ _ && strings_HasSuffix _ _); simpl; trace_tail.
      * destruct (machines st !! fqdn); simpl; trace_tail.
  - destruct (machines st !! fqdn) as [cached|] eqn:Hm; simpl.
    + exists cached. eexists. split; [reflexivity|]. done.
    + eexists _, _. split; [reflexivity|]. simpl. by rewrite lookup_insert_eq.
Qed.

End HandleProperties.

(** *** The properties on the simulated bus *)

(** A host with the image and the running machine [web], whose addresses
    are those of the scenario, two versions of the template [base] and an
    image whose version is no integer. *)
Definition sim_host : Sim :=
  mkSim [("web", "/org/freedesktop/machine1/image/web");
         ("base-template_1", "/org/freedesktop/machine1/image/base_2dtemplate_5f1");
         ("base-template_2", "/org/freedesktop/machine1/image/base_2dtemplate_5f2");
         ("base-template_next", "/org/freedesktop/machine1/image/base_2dtemplate_5fnext")]
        [("/org/freedesktop/machine1/machine/web", "running")]
        [("/org/freedesktop/machine1/machine/web", scenario_reply)].

Definition web : Machine := mkMachine "web" "/org/freedesktop/machine1/machine/web".

(** A machine handle whose machine is not there: reading its state fails. *)
Definition db : Machine := mkMachine "db" "/org/freedesktop/machine1/machine/db".

Definition base_1 : Template :=
  mkTemplate "base" 1 "/org/freedesktop/machine1/image/base_2dtemplate_5f1".

Definition base_2 : Template :=
  mkTemplate "base" 2 "/org/freedesktop/machine1/image/base_2dtemplate_5f2".

(** C6, as stated, fails: the image [web] exists, and [Template.Create]
    returns the handle together with a non-nil error. *)
Lemma Template_Create_existing_counterexample :
  (machined_GetImage "web" sim_host).1 = inr "/org/freedesktop/machine1/image/web" /\
  (Template_Create base_1 "web" (new_run sim_host)).1
    = (Some 0%nat, Some ErrAlreadyExists) /\
  (Template_Create base_1 "web" (new_run sim_host)).1.2 <> None.
Proof. split; [|split]; [reflexivity|reflexivity|discriminate]. Qed.

Lemma WaitForAddress_filters_witness :
  Machine_WaitForAddress 1 web (new_run sim_host) =
    (Returned ([Addr4 [203; 0; 113; 5]], None),
     after_call (GetAddresses_call web) sim_host (new_run sim_host)).
Proof.
  refine (proj2 (WaitForAddress_filters 0 web (new_run sim_host) scenario_reply
                   [Addr4 [127; 0; 0; 1];
                    Addr6 [0xfe; 0x80; 0; 0; 0; 0; 0; 0; 0; 0; 0; 0; 0; 0; 0; 1];
                    Addr4 [203; 0; 113; 5]]
                   sim_host _ _) _); reflexivity.
Defined.

Lemma Running_swallows_error_witness :
  let st1 := after_call (Status_call db) sim_host (new_run sim_host) in
  Machine_Running db (new_run sim_host) = (false, st1) /\
  Machine_Stop 2 db (new_run sim_host) = (Returned None, st1) /\
  exists rest,
    trace (Machine_Start 2 db (new_run sim_host)).2 =
      trace (new_run sim_host) ++
      [Status_call db;
       Log LevelDebug "Starting machine job" [("machine", Machine_Name db)];
       StartUnit_call db] ++ rest.
Proof.
  apply (Running_swallows_error 2 db (new_run sim_host) (BusError "No machine known") sim_host).
  reflexivity.
Defined.

(** The catalog of the template-ordering scenario: [base] in versions 1
    and 2, the default name [base]. *)
Definition sim_catalog : Templates :=
  mkTemplates "base" {[ "base" := [base_1; base_2] ]}.

Lemma sim_catalog_sorted : catalog_sorted sim_catalog.
Proof.
  intros k g Hk. simpl in Hk. apply lookup_singleton_Some in Hk as [<- <-].
  split; repeat constructor.
Qed.

Example Templates_Get_scenario :
  Templates_Get sim_catalog "" = Some base_2 /\
  Templates_Get sim_catalog "base" = Some base_2 /\
  Templates_Get sim_catalog "unknown" = None.
Proof. repeat split; reflexivity. Qed.

Lemma Templates_Get_highest_witness :
  let key := if String.eqb "" "" then Templates_Default sim_catalog else "" in
  match Templates_Get sim_catalog "" with
  | Some t =>
      Template_Name t = key /\
      t ∈ Templates_index sim_catalog key /\
      forall k g t', Templates_Templates sim_catalog !! k = Some g -> t' ∈ g ->
                     Template_Name t' = key ->
                     Template_Version t' <= Template_Version t
  | None =>
      forall k g t', Templates_Templates sim_catalog !! k = Some g -> t' ∈ g ->
                     Template_Name t' <> key
  end.
Proof. apply (Templates_Get_highest sim_catalog ""), sim_catalog_sorted. Defined.

(** The images [listImages] reads on [sim_host]. *)
Definition sim_images_listed : list Image :=
  map (fun entry => mkImage entry.1 entry.2) (sim_images sim_host).

Lemma ListTemplates_catalog_witness :
  exists T st',
    machineUtil_ListTemplates (merge_sort Template_le) "base" (new_run sim_host)
      = ((Some T, None), st') /\
    catalog_sorted T /\
    (forall k, Template_Version <$> Templates_index T k
               ≡ₚ versions_listed k sim_images_listed).
Proof.
  destruct (ListTemplates_catalog (merge_sort Template_le) "base" (new_run sim_host)
              (map sim_image_row (sim_images sim_host)) sim_images_listed sim_host)
    as (T & st' & H1 & _ & _ & H2 & H3 & _).
  - apply merge_sort_Permutation.
  - intros l. apply Sorted_merge_sort, _.
  - apply cache_ok_empty.
  - reflexivity.
  - reflexivity.
  - exists T, st'. split; [exact H1|split; [exact H2|exact H3]].
Defined.

Example versions_listed_scenario :
  versions_listed "base" sim_images_listed = [1; 2] /\
  versions_listed "web" sim_images_listed = [].
Proof. split; reflexivity. Qed.

(** ** Further properties of templates *)

(** [Less] is a strict order on (name, version): nothing is less than
    itself, it is transitive, and two templates are unordered exactly when
    they have the same name and version. *)
Theorem Template_less_strict_order (a b c : Template) :
  Template_less a a = false /\
  (Template_less a b = true -> Template_less b c = true -> Template_less a c = true) /\
  (Template_less a b = false /\ Template_less b a = false <->
   Template_Name a = Template_Name b /\ Template_Version a = Template_Version b).
Proof.
  split; [|split].
  - apply not_true_iff_false. rewrite Template_less_spec.
    intros [H|[_ H]]; [by apply Util.slt_irrefl in H|lia].
  - rewrite !Template_less_spec. intros [H1|[E1 H1]] [H2|[E2 H2]].
    + left. eauto using Util.slt_trans.
    + left. by rewrite <- E2.
    + left. by rewrite E1.
    + right. split; [congruence|lia].
  - change (Template_less a b = false) with (Template_le b a).
    change (Template_less b a = false) with (Template_le a b).
    rewrite !Template_le_spec. split.
    + intros [[H1|[E1 H1]] [H2|[E2 H2]]].
      * destruct (Util.slt_irrefl (Template_Name a)). eauto using Util.slt_trans.
      * rewrite E2 in H1. by apply Util.slt_irrefl in H1.
      * rewrite E1 in H2. by apply Util.slt_irrefl in H2.
      * split; [done|lia].
    + intros [E1 E2]. split; right; split; (congruence || lia).
Qed.

Lemma TemplateVersions_Get_last (g : TemplateVersions) (k : string) :
  Forall (fun t => Template_Name t = k) g ->
  TemplateVersions_Get g k = TemplateVersions_Template g.
Proof.
  intros Hall. unfold TemplateVersions_Get, TemplateVersions_Template.
  destruct (length g) as [|n] eqn:Hlen; [done|].
  simpl. rewrite Nat.sub_0_r.
  destruct (g !! n) as [t|] eqn:Ht.
  - rewrite Forall_forall in Hall.
    assert (Template_Name t = k) as Hk by (apply Hall; by eapply list_elem_of_lookup_2).
    unfold Template_Get. rewrite <- Hk, String.eqb_refl. done.
  - apply lookup_ge_None in Ht. lia.
Qed.

(** In a catalog whose group for the default name holds templates of that
    name only, [Templates.Template] and [Templates.Get] with the empty name
    return the same template (the last of the group), and both return
    [nil] when there is no such group. *)
Theorem Templates_Template_is_Get_default (T : Templates) :
  (forall g, Templates_Templates T !! Templates_Default T = Some g ->
             Forall (fun t => Template_Name t = Templates_Default T) g) ->
  Templates_Get T "" = Templates_Template T /\
  (Templates_Templates T !! Templates_Default T = None -> Templates_Template T = None).
Proof.
  intros Hall. unfold Templates_Get, Templates_Template, Templates_index. simpl.
  destruct (Templates_Templates T !! Templates_Default T) as [g|] eqn:Hg; simpl.
  - split; [|done]. apply TemplateVersions_Get_last. by apply Hall.
  - done.
Qed.

Lemma Templates_Template_is_Get_default_witness :
  Templates_Get sim_catalog "" = Templates_Template sim_catalog /\
  (Templates_Templates sim_catalog !! Templates_Default sim_catalog = None ->
   Templates_Template sim_catalog = None).
Proof.
  apply Templates_Template_is_Get_default.
  intros g Hg. simpl in Hg. apply lookup_singleton_Some in Hg as [_ <-].
  by repeat constructor.
Defined.

(** *** [Template.Image] against the parsing in [ListTemplates] *)

Lemma parse_digits_acc d (acc : positive) :
  parse_digits (Z.pos acc) (NilEmpty.string_of_uint d) =
  Some (Z.pos (Pos.of_uint_acc d acc)).
Proof.
  revert acc. induction d; intros acc; cbn [NilEmpty.string_of_uint parse_digits Pos.of_uint_acc];
    [done|..];
    match goal with
    | |- context [digit_of ?c] =>
        let v := eval vm_compute in (digit_of c) in
        change (digit_of c) with v; cbv iota
    end;
    match goal with
    | |- parse_digits ?z _ = Some (Z.pos (Pos.of_uint_acc _ ?q)) =>
        replace z with (Z.pos q) by lia
    end; apply IHd.
Qed.

Lemma parse_digits_uint d :
  parse_digits 0 (NilEmpty.string_of_uint d) = Some (Z.of_N (Pos.of_uint d)).
Proof.
  induction d; cbn [NilEmpty.string_of_uint parse_digits Pos.of_uint];
    [done|..];
    match goal with
    | |- context [digit_of ?c] =>
        let v := eval vm_compute in (digit_of c) in
        change (digit_of c) with v; cbv iota
    end;
    [exact IHd|..]; apply (parse_digits_acc d).
Qed.

Lemma string_of_uint_digit d :
  d <> Decimal.Nil ->
  exists c s, NilEmpty.string_of_uint d = String c s /\
              c <> "-"%char /\ c <> "+"%char.
Proof.
  destruct d; [done|..]; intros _; simpl; eexists _, _; by repeat split.
Qed.

Lemma Atoi_digits c s :
  c <> "-"%char -> c <> "+"%char ->
  strconv_Atoi (String c s) =
  match parse_digits 0 (String c s) with
  | Some n => if (- 2 ^ 63 <=? n) && (n <=? 2 ^ 63 - 1) then Some n else None
  | None => None
  end.
Proof.
  intros H1 H2. unfold strconv_Atoi.
  destruct c as [[] [] [] [] [] [] [] []]; try done.
Qed.

Lemma Atoi_uint (p : positive) :
  parse_digits 0 (NilZero.string_of_uint (Pos.to_uint p)) = Some (Z.pos p) /\
  exists c s, NilZero.string_of_uint (Pos.to_uint p) = String c s /\
              c <> "-"%char /\ c <> "+"%char.
Proof.
  pose proof (DecimalPos.Unsigned.of_to p) as Hp.
  assert (Pos.to_uint p <> Decimal.Nil) as Hnil.
  { intros Hn. by rewrite Hn in Hp. }
  assert (NilZero.string_of_uint (Pos.to_uint p)
          = NilEmpty.string_of_uint (Pos.to_uint p)) as ->.
  { by destruct (Pos.to_uint p). }
  split; [|by apply string_of_uint_digit].
  by rewrite parse_digits_uint, Hp.
Qed.

(** [strconv.Atoi] reads back what [strconv.Itoa] printed. *)
Lemma Atoi_Itoa (n : Z) :
  - 2 ^ 63 <= n <= 2 ^ 63 - 1 -> strconv_Atoi (strconv_Itoa n) = Some n.
Proof.
  intros Hn. unfold strconv_Itoa. destruct n as [|p|p]; [done|..]; simpl.
  - destruct (Atoi_uint p) as (Hd & c & s & Hs & H1 & H2).
    rewrite Hs in *. rewrite Atoi_digits, Hd by done.
    destruct (Z.leb_spec (- 2 ^ 63) (Z.pos p)); [|lia].
    destruct (Z.leb_spec (Z.pos p) (2 ^ 63 - 1)); [done|lia].
  - destruct (Atoi_uint p) as (Hd & c & s & Hs & H1 & H2).
    unfold strconv_Atoi. rewrite Hs in *. rewrite Hd.
    change (- Z.pos p) with (Z.neg p).
    destruct (Z.leb_spec (- 2 ^ 63) (Z.neg p)); [|lia].
    destruct (Z.leb_spec (Z.neg p) (2 ^ 63 - 1)); [done|lia].
Qed.

Lemma Atoi_range s n : strconv_Atoi s = Some n -> - 2 ^ 63 <= n <= 2 ^ 63 - 1.
Proof.
  unfold strconv_Atoi.
  destruct (match s with
            | String "-" r => (true, r)
            | String "+" r => (false, r)
            | _ => (false, s)
            end) as [neg body].
  destruct body; [done|].
  destruct (parse_digits 0 _) as [m|]; [|done].
  destruct (Z.leb_spec (- 2 ^ 63) (if neg then - m else m)); [|done].
  destruct (Z.leb_spec (if neg then - m else m) (2 ^ 63 - 1)); [|done].
  intros [= <-]. lia.
Qed.

Lemma strings_Cut_eq s sep :
  strings_Cut s sep =
  if String.prefix sep s then ("", string_drop (String.length sep) s, true)
  else match s with
       | EmptyString => ("", "", false)
       | String c s' =>
           let '(before, after, found) := strings_Cut s' sep in
           if found then (String c before, after, true) else (s, "", false)
       end.
Proof. by destruct s. Qed.

Lemma string_prefix_cons a x b s :
  String.prefix (String a x) (String b s) =
  if ascii_dec a b then String.prefix x s else false.
Proof. reflexivity. Qed.

Lemma prefix_app x s t : String.prefix x s = true -> String.prefix x (s +:+ t) = true.
Proof.
  revert s. induction x as [|a x IH]; intros s; [by destruct (s +:+ t)|].
  destruct s as [|b s]; [done|].
  change (String b s +:+ t) with (String b (s +:+ t)). rewrite !string_prefix_cons.
  destruct (ascii_dec a b); [apply IH|done].
Qed.

Lemma prefix_drop x s :
  String.prefix x s = true -> s = x +:+ string_drop (String.length x) s.
Proof.
  revert s. induction x as [|a x IH]; intros s; [done|].
  destruct s as [|b s]; [done|]. rewrite string_prefix_cons.
  destruct (ascii_dec a b) as [<-|]; [|done]. intros H.
  change (String a s = String a (x +:+ string_drop (String.length x) s)).
  f_equal. by apply IH.
Qed.

Lemma prefix_self_app x t : String.prefix x (x +:+ t) = true.
Proof.
  induction x as [|a x IH]; [by destruct t|].
  change (String a x +:+ t) with (String a (x +:+ t)). rewrite string_prefix_cons.
  by destruct (ascii_dec a a).
Qed.

Lemma string_drop_app x t : string_drop (String.length x) (x +:+ t) = t.
Proof. induction x as [|a x IH]; simpl; done. Qed.

(** No character of [p] is [a]. *)
Fixpoint lacks (a : ascii) (p : string) : bool :=
  match p with
  | EmptyString => true
  | String b p' => negb (Ascii.eqb a b) && lacks a p'
  end.

Lemma prefix_app_lacks a p s r :
  lacks a p = true -> String.prefix p s = false ->
  String.prefix p (s +:+ String a r) = false.
Proof.
  revert s. induction p as [|b p IH]; intros s Hl Hp; [by destruct s|].
  simpl in Hl. apply andb_true_iff in Hl as [Hab Hl].
  apply negb_true_iff, Ascii.eqb_neq in Hab.
  destruct s as [|d s].
  - change ("" +:+ String a r) with (String a r). rewrite string_prefix_cons.
    destruct (ascii_dec b a); [congruence|done].
  - change (String d s +:+ String a r) with (String d (s +:+ String a r)).
    rewrite string_prefix_cons in Hp |- *.
    destruct (ascii_dec b d); [by apply IH|done].
Qed.

Definition template_sep : string := "-template_".

(** A name in which [strings.Cut] finds no ["-template_"]. *)
Definition plain_name (name : string) : Prop :=
  (strings_Cut name template_sep).2 = false.

#[global] Instance plain_name_dec name : Decision (plain_name name).
Proof. unfold plain_name. apply _. Defined.

Lemma strings_Cut_plain name rest :
  plain_name name ->
  strings_Cut (name +:+ template_sep +:+ rest) template_sep = (name, rest, true).
Proof.
  unfold plain_name. induction name as [|c name IH]; intros Hp.
  { change ("" +:+ template_sep +:+ rest) with (template_sep +:+ rest).
    by rewrite strings_Cut_eq, prefix_self_app, string_drop_app. }
  rewrite strings_Cut_eq in Hp.
  destruct (String.prefix template_sep (String c name)) eqn:Hpre; [done|].
  destruct (strings_Cut name template_sep) as [[b a] found] eqn:Hcut.
  destruct found; simpl in Hp; [done|]. simpl in IH.
  change (String c name +:+ template_sep +:+ rest)
    with (String c (name +:+ template_sep +:+ rest)).
  assert (String.prefix template_sep (String c (name +:+ template_sep +:+ rest)) = false)
    as Hfalse.
  { unfold template_sep in *.
    change "-template_" with (String "-" "template_") in Hpre |- *.
    rewrite string_prefix_cons in Hpre |- *.
    destruct (ascii_dec "-" c); [|done].
    by apply (prefix_app_lacks "-" "template_" name ("template_" +:+ rest)). }
  rewrite strings_Cut_eq, Hfalse, IH by done. done.
Qed.

Lemma strings_Cut_found s before after :
  strings_Cut s template_sep = (before, after, true) ->
  s = before +:+ template_sep +:+ after /\ plain_name before.
Proof.
  revert before after. induction s as [|c s IH]; intros before after.
  - done.
  - rewrite strings_Cut_eq.
    destruct (String.prefix template_sep (String c s)) eqn:Hpre.
    + intros [= <- <-]. split; [|done].
      by apply prefix_drop.
    + destruct (strings_Cut s template_sep) as [[b a] found] eqn:Hcut.
      destruct found; [|done]. intros [= <- <-].
      destruct (IH b a eq_refl) as [Hs Hb]. split; [by rewrite Hs at 1|].
      unfold plain_name in *. rewrite strings_Cut_eq.
      destruct (String.prefix template_sep (String c b)) eqn:Hpre'.
      * apply (prefix_app _ _ (template_sep +:+ a)) in Hpre'.
        change (String c b +:+ template_sep +:+ a)
          with (String c (b +:+ template_sep +:+ a)) in Hpre'.
        rewrite <- Hs in Hpre'. congruence.
      * destruct (strings_Cut b template_sep) as [[b' a'] found']. simpl in Hb.
        by rewrite Hb.
Qed.

Lemma template_of_name_Image (t : Template) :
  plain_name (Template_Name t) ->
  - 2 ^ 63 <= Template_Version t <= 2 ^ 63 - 1 ->
  template_of_name (Template_Image t) = Some (Template_Name t, Template_Version t).
Proof.
  intros Hp Hv. unfold template_of_name, Template_Image.
  change "-template_" with template_sep.
  rewrite strings_Cut_plain by done. by rewrite Atoi_Itoa.
Qed.

Lemma template_of_name_canonical n name ver :
  template_of_name n = Some (name, ver) ->
  plain_name name /\ - 2 ^ 63 <= ver <= 2 ^ 63 - 1.
Proof.
  unfold template_of_name. change "-template_" with template_sep.
  destruct (strings_Cut n template_sep) as [[b a] found] eqn:Hcut.
  destruct found; [|done].
  destruct (strconv_Atoi a) as [v|] eqn:Ha; [|done]. intros [= <- <-].
  split; [by destruct (strings_Cut_found n b a Hcut)|by eapply Atoi_range].
Qed.

(** Listing the image that [Template.Image] names gives the template
    back: for a template whose name holds no ["-template_"] and whose
    version is in the range of [int], one round of the loop of
    [ListTemplates] on an image of that name, starting from nothing,
    leaves exactly this template, cached under the image name and listed
    under the template name. *)
Theorem Template_Image_round_trip (t : Template) :
  plain_name (Template_Name t) ->
  - 2 ^ 63 <= Template_Version t <= 2 ^ 63 - 1 ->
  ListTemplates_step (∅, ∅) (mkImage (Template_Image t) (Template_object t)) =
    ({[ Template_Image t := t ]}, {[ Template_Name t := [t] ]}).
Proof.
  intros Hp Hv. pose proof (template_of_name_Image t Hp Hv) as Hparse.
  unfold template_of_name in Hparse. unfold ListTemplates_step. simpl.
  destruct (strings_Cut (Template_Image t) "-template_") as [[name version] found].
  destruct found; [|done].
  destruct (strconv_Atoi version) as [ver|]; [|done].
  injection Hparse as -> ->. rewrite !lookup_empty. simpl.
  rewrite !insert_empty. by destruct t.
Qed.

Lemma Template_Image_round_trip_witness :
  ListTemplates_step (∅, ∅) (mkImage (Template_Image base_2) (Template_object base_2)) =
    ({[ Template_Image base_2 := base_2 ]}, {[ Template_Name base_2 := [base_2] ]}).
Proof. apply Template_Image_round_trip; [by vm_compute|by vm_compute]. Defined.

(** Every template that [ListTemplates] keeps in [c.templates] has a name
    without ["-template_"] and a version in the range of [int], so the
    image name [Template.Image] gives for it reads back as the same name
    and version. *)
Theorem cached_Template_Image_parses (c : gmap string Template) (key : string)
    (t : Template) :
  cache_ok c -> c !! key = Some t ->
  template_of_name (Template_Image t) = Some (Template_Name t, Template_Version t).
Proof.
  intros Hc Hk. destruct (template_of_name_canonical _ _ _ (Hc key t Hk)).
  by apply template_of_name_Image.
Qed.

Lemma cached_Template_Image_parses_witness :
  template_of_name (Template_Image base_2) = Some ("base", 2).
Proof.
  refine (cached_Template_Image_parses {[ "base-template_2" := base_2 ]}
            "base-template_2" base_2 _ _); [|reflexivity].
  intros key t Hl. apply lookup_singleton_Some in Hl as [<- <-]. reflexivity.
Defined.

(** [Template.Image] need not name the image the template was made from:
    when the version in the image's name is not written the way
    [strconv.Itoa] writes it (leading zeros, a plus sign), [ListTemplates]
    caches under the image's name a template whose [Image()] is another
    name, and it is that other name [Create] and [Remove] of the template
    work on. *)
Theorem Template_Image_key_mismatch (name version : string) (ver : Z)
    (path : ObjectPath) :
  plain_name name ->
  strconv_Atoi version = Some ver ->
  version <> strconv_Itoa ver ->
  let image := mkImage (name +:+ "-template_" +:+ version) path in
  let t := mkTemplate name ver path in
  ListTemplates_step (∅, ∅) image
    = ({[ Image_Name image := t ]}, {[ name := [t] ]}) /\
  Template_Image t = name +:+ "-template_" +:+ strconv_Itoa ver /\
  Template_Image t <> Image_Name image.
Proof.
  intros Hp Ha Hne image t. split; [|split; [done|]].
  - unfold ListTemplates_step, image. cbn [Image_Name Image_Path].
    change "-template_" with template_sep.
    rewrite strings_Cut_plain by done. rewrite Ha, !lookup_empty. simpl.
    by rewrite !insert_empty.
  - unfold Template_Image, image, t. cbn [Image_Name Template_Name Template_Version].
    intros H. apply String.app_inj in H. apply (String.app_inj "-template_") in H.
    by apply Hne.
Qed.

Lemma Template_Image_key_mismatch_witness :
  let image := mkImage "base-template_007" "/org/freedesktop/machine1/image/x" in
  let t := mkTemplate "base" 7 "/org/freedesktop/machine1/image/x" in
  ListTemplates_step (∅, ∅) image = ({[ "base-template_007" := t ]}, {[ "base" := [t] ]}) /\
  Template_Image t = "base-template_7" /\
  Template_Image t <> "base-template_007".
Proof.
  refine (Template_Image_key_mismatch "base" "007" 7 "/org/freedesktop/machine1/image/x"
            _ _ _); [by vm_compute|reflexivity|discriminate].
Defined.

(** ** Further properties of the listing and of the addresses *)

(** A row of [ListImages] that [listImages] accepts, and its image. *)
Definition row_image (row : list Variant) (image : Image) : Prop :=
  (7 <= length row)%nat /\
  row !! 0%nat = Some (VString (Image_Name image)) /\
  row !! 6%nat = Some (VPath (Image_Path image)).

Lemma listImages_loop_spec rows retval :
  match listImages_loop rows retval with
  | (images, None) =>
      exists new, images = retval ++ new /\ Forall2 row_image rows new
  | (images, Some _) =>
      images = [] /\ exists row, row ∈ rows /\ forall image, ~ row_image row image
  end.
Proof.
  revert retval. induction rows as [|row rows IH]; intros retval; simpl.
  - exists []. by rewrite app_nil_r.
  - destruct (Nat.ltb_spec (length row) 7) as [Hlt|Hge].
    { split; [done|]. exists row. split; [left|]. intros image (Hl & _). lia. }
    destruct (row !! 0%nat) as [[name| |]|] eqn:H0;
      try (split; [done|]; exists row; split; [left|];
           intros image (_ & Hn & _); congruence).
    destruct (row !! 6%nat) as [[|path|]|] eqn:H6;
      try (split; [done|]; exists row; split; [left|];
           intros image (_ & _ & Hp); congruence).
    specialize (IH (retval ++ [mkImage name path])).
    destruct (listImages_loop rows (retval ++ [mkImage name path])) as [images [err|]].
    + destruct IH as (-> & row' & Hin & Hbad). split; [done|].
      exists row'. split; [by right|done].
    + destruct IH as (new & -> & Hall).
      exists (mkImage name path :: new). rewrite <- app_assoc. split; [done|].
      by constructor.
Qed.

(** [listImages] is all or nothing: with every row of at least seven
    fields, a string first and an object path seventh, it returns one
    image per row, in order, made of these two fields; with one row that
    is not so, it returns an error and no image at all. *)
Theorem listImages_all_or_nothing (rows : list (list Variant)) :
  match listImages_loop rows [] with
  | (images, None) => Forall2 row_image rows images
  | (images, Some _) =>
      images = [] /\ exists row, row ∈ rows /\ forall image, ~ row_image row image
  end.
Proof.
  pose proof (listImages_loop_spec rows []) as H.
  destruct (listImages_loop rows []) as [images [err|]]; [done|].
  by destruct H as (new & -> & Hall).
Qed.

Lemma Addresses_loop_spec (result : list (Z * list Z)) :
  match Addresses_loop result with
  | (addrs, None) =>
      Forall2 (fun entry addr =>
                 (length entry.2 = 4%nat /\ addr = Addr4 entry.2) \/
                 (length entry.2 = 16%nat /\ addr = Addr6 entry.2)) result addrs
  | (addrs, Some _) =>
      addrs = [] /\
      exists entry, entry ∈ result /\ length entry.2 <> 4%nat /\ length entry.2 <> 16%nat
  end.
Proof.
  induction result as [|[version addr] result IH]; simpl; [constructor|].
  unfold netip_AddrFromSlice.
  destruct (Nat.eqb_spec (length addr) 4) as [H4|H4]; simpl.
  - destruct (Addresses_loop result) as [addrs [err|]].
    + destruct IH as (-> & entry & Hin & Hbad). split; [done|].
      exists entry. split; [by right|done].
    + constructor; [by left|done].
  - destruct (Nat.eqb_spec (length addr) 16) as [H16|H16]; simpl.
    + destruct (Addresses_loop result) as [addrs [err|]].
      * destruct IH as (-> & entry & Hin & Hbad). split; [done|].
        exists entry. split; [by right|done].
      * constructor; [by right|done].
    + split; [done|]. exists (version, addr). split; [left|done].
Qed.

(** [Addresses] turns a reply of [GetAddresses] into addresses all or
    nothing: when every entry has 4 or 16 bytes it returns one valid
    address per entry, in order; when an entry has another length it
    returns an error and no address. *)
Theorem Addresses_all_or_nothing (result : list (Z * list Z)) :
  match Addresses_loop result with
  | (addrs, None) =>
      length addrs = length result /\
      Forall (fun a => IsValid a = true) addrs /\
      Forall (fun entry => length entry.2 = 4%nat \/ length entry.2 = 16%nat) result
  | (addrs, Some _) =>
      addrs = [] /\
      exists entry, entry ∈ result /\ length entry.2 <> 4%nat /\ length entry.2 <> 16%nat
  end.
Proof.
  pose proof (Addresses_loop_spec result) as H.
  destruct (Addresses_loop result) as [addrs [err|]]; [done|].
  split; [symmetry; by eapply Forall2_length|]. split.
  - induction H as [|entry a result addrs Hh _ IH]; constructor; [|done].
    by destruct Hh as [[_ ->]|[_ ->]].
  - induction H as [|entry a result addrs Hh _ IH]; constructor; [|done].
    destruct Hh as [[? _]|[? _]]; auto.
Qed.

(** ** Further properties of [WaitForAddress], [Start] and [Stop] *)

Definition StopUnit_call (m : Machine) : Event :=
  Call systemdDbusPath (systemdDbusInterface +:+ ".StopUnit")
       ["systemd-nspawn@" +:+ Machine_Name m +:+ ".service"; "fail"].

Section MachineMore.
Context {W : Type} `{bus_impl : Bus W}.

Lemma WaitForAddress_spec (polls : nat) (m : Machine) (st : State W) :
  (exists rest,
     trace (Machine_WaitForAddress polls m st).2 = trace st ++ rest /\
     Forall (fun ev => ev = GetAddresses_call m \/ ev = Sleep 1) rest) /\
  match (Machine_WaitForAddress polls m st).1 with
  | Returned (addrs, None) => addrs <> [] /\ Forall usable addrs
  | Returned (addrs, Some _) => addrs = []
  | StillWaiting => True
  end.
Proof.
  revert st. induction polls as [|polls IH]; intros st; simpl.
  - split; [|done]. exists []. by rewrite app_nil_r.
  - unfold bind, Machine_Addresses, bind, call, ret, time_Sleep, emit.
    destruct (machine_GetAddresses (Machine_object m) (bus st)) as [[e|reply] b]; simpl.
    { split; [|done]. exists [GetAddresses_call m]. split; [done|].
      constructor; [by left|done]. }
    destruct (Addresses_loop reply) as [addrs [e|]]; simpl.
    { split; [|done]. exists [GetAddresses_call m]. split; [done|].
      constructor; [by left|done]. }
    rewrite WaitForAddress_collect_filter. simpl.
    destruct (filter usable addrs) as [|a l] eqn:Hf; simpl.
    + match goal with
      | |- context [Machine_WaitForAddress polls m ?s] =>
          destruct (IH s) as [(rest & Hr & Hall) Hres]
      end.
      split; [|done]. simpl in Hr.
      exists (GetAddresses_call m :: Sleep 1 :: rest). split.
      * rewrite Hr, <- !app_assoc. done.
      * constructor; [by left|]. constructor; [by right|done].
    + split.
      * exists [GetAddresses_call m]. split; [done|]. constructor; [by left|done].
      * split; [done|]. rewrite <- Hf. apply Forall_forall. intros x Hx.
        by apply list_elem_of_filter in Hx as [Hx _].
Qed.

(** However many polls it takes, when [WaitForAddress] returns without
    error its list is not empty and holds usable addresses only; when it
    returns an error its list is [nil]; and all it does meanwhile is call
    [GetAddresses] on the machine and sleep one nanosecond between
    polls. *)
Theorem WaitForAddress_returns_usable (polls : nat) (m : Machine) (st : State W) :
  match (Machine_WaitForAddress polls m st).1 with
  | Returned (addrs, None) => addrs <> [] /\ Forall usable addrs
  | Returned (addrs, Some _) => addrs = []
  | StillWaiting => True
  end /\
  exists rest,
    trace (Machine_WaitForAddress polls m st).2 = trace st ++ rest /\
    Forall (fun ev => ev = GetAddresses_call m \/ ev = Sleep 1) rest.
Proof. destruct (WaitForAddress_spec polls m st). by split. Qed.

(** [Start] on a machine whose state reads "running", and [Stop] on a
    machine whose state reads anything else, return [nil] after that one
    read: no job is requested and nothing is waited for. *)
Theorem Start_Stop_nothing_to_do (polls : nat) (m : Machine) (st : State W)
    (state : string) (b : W) :
  machine_Get_State (Machine_object m) (bus st) = (inr state, b) ->
  (state = "running" ->
   Machine_Start polls m st = (Returned None, after_call (Status_call m) b st)) /\
  (state <> "running" ->
   Machine_Stop polls m st = (Returned None, after_call (Status_call m) b st)).
Proof.
  intros Hs.
  assert (Machine_Running m st =
          (String.eqb state "running", after_call (Status_call m) b st)) as Hrun.
  { unfold Machine_Running, bind, Machine_Status, bind, call. by rewrite Hs. }
  split.
  - intros ->. unfold Machine_Start, bind. by rewrite Hrun.
  - intros Hne. unfold Machine_Stop, bind. rewrite Hrun.
    by apply String.eqb_neq in Hne as ->.
Qed.

(** When the request for the job fails, [Start] and [Stop] return that
    error at once: [Start], on a machine not found running, after the log
    record and the [StartUnit] call; [Stop], on a machine found running,
    after the [StopUnit] call; no job state is read and the unit is not
    polled. *)
Theorem Start_Stop_job_request_failure (polls : nat) (m : Machine)
    (st st1 : State W) (running : bool) (err : error) (b : W) :
  Machine_Running m st = (running, st1) ->
  (running = false ->
   systemd_StartUnit ("systemd-nspawn@" +:+ Machine_Name m +:+ ".service") "fail"
     (bus st1) = (inl err, b) ->
   Machine_Start polls m st =
     (Returned (Some err),
      after_call (StartUnit_call m) b
        (after_event (Log LevelDebug "Starting machine job"
                          [("machine", Machine_Name m)]) st1))) /\
  (running = true ->
   systemd_StopUnit ("systemd-nspawn@" +:+ Machine_Name m +:+ ".service") "fail"
     (bus st1) = (inl err, b) ->
   Machine_Stop polls m st = (Returned (Some err), after_call (StopUnit_call m) b st1)).
Proof.
  intros Hrun. split; intros -> Hcall.
  - unfold Machine_Start, bind at 1. rewrite Hrun.
    unfold bind, emit, machineUtil_Start, bind, call, ret. simpl. by rewrite Hcall.
  - unfold Machine_Stop, bind at 1. rewrite Hrun. simpl.
    unfold bind, machineUtil_Stop, bind, call, ret. by rewrite Hcall.
Qed.

End MachineMore.

(** A host like [sim_host] on which the machine [web] is shutting down. *)
Definition sim_closing : Sim :=
  mkSim (sim_images sim_host)
        [("/org/freedesktop/machine1/machine/web", "closing")]
        (sim_addresses sim_host).

(** A host whose [systemd] refuses every job. *)
Record Masked := mkMasked { masked_host : Sim }.

Definition masked_bus : Bus Masked := {|
  machined_GetImage name b :=
    let '(r, h) := machined_GetImage name (masked_host b) in (r, mkMasked h);
  machined_CloneImage src dst read_only b :=
    let '(r, h) := machined_CloneImage src dst read_only (masked_host b) in
    (r, mkMasked h);
  machined_ListImages b :=
    let '(r, h) := machined_ListImages (masked_host b) in (r, mkMasked h);
  systemd_StartUnit unit mode b := (inl (BusError ("Unit " +:+ unit +:+ " is masked.")), b);
  systemd_StopUnit unit mode b := (inl (BusError ("Unit " +:+ unit +:+ " is masked.")), b);
  machine_Get_State path b :=
    let '(r, h) := machine_Get_State path (masked_host b) in (r, mkMasked h);
  machine_GetAddresses path b :=
    let '(r, h) := machine_GetAddresses path (masked_host b) in (r, mkMasked h);
  job_Get_State path b :=
    let '(r, h) := job_Get_State path (masked_host b) in (r, mkMasked h)
|}.

Lemma Start_Stop_nothing_to_do_witness :
  Machine_Start 3 web (new_run sim_host)
    = (Returned None, after_call (Status_call web) sim_host (new_run sim_host)) /\
  Machine_Stop 3 web (new_run sim_closing)
    = (Returned None, after_call (Status_call web) sim_closing (new_run sim_closing)).
Proof.
  split.
  - refine (proj1 (Start_Stop_nothing_to_do 3 web (new_run sim_host)
                     "running" sim_host _) _); reflexivity.
  - refine (proj2 (Start_Stop_nothing_to_do 3 web (new_run sim_closing)
                     "closing" sim_closing _) _); [reflexivity|discriminate].
Defined.

Lemma Start_Stop_job_request_failure_witness :
  @Machine_Start Masked masked_bus 3 db (new_run (mkMasked sim_host))
    = (Returned (Some (BusError "Unit systemd-nspawn@db.service is masked.")),
       after_call (StartUnit_call db) (mkMasked sim_host)
         (after_event (Log LevelDebug "Starting machine job" [("machine", "db")])
            (after_call (Status_call db) (mkMasked sim_host)
               (new_run (mkMasked sim_host))))) /\
  @Machine_Stop Masked masked_bus 3 web (new_run (mkMasked sim_host))
    = (Returned (Some (BusError "Unit systemd-nspawn@web.service is masked.")),
       after_call (StopUnit_call web) (mkMasked sim_host)
         (after_call (Status_call web) (mkMasked sim_host)
            (new_run (mkMasked sim_host)))).
Proof.
  split.
  - refine (proj1 (@Start_Stop_job_request_failure Masked masked_bus 3 db
                     (new_run (mkMasked sim_host)) _ false _ _ _) _ _); reflexivity.
  - refine (proj2 (@Start_Stop_job_request_failure Masked masked_bus 3 web
                     (new_run (mkMasked sim_host)) _ true _ _ _) _ _); reflexivity.
Defined.

(** ** Further properties of the registry of machines *)

Section RegistryMore.
Context {W : Type} `{bus_impl : Bus W}.

(** Every registered name leads to an allocated [Machine] of that name. *)
Definition registry_ok (st : State W) : Prop :=
  forall name ptr, machines st !! name = Some ptr ->
    exists m, heap st !! ptr = Some m /\ Machine_Name m = name.

(** What the registry operations may do to the state: allocate more
    machines and register more names, nothing else. *)
Definition registry_grows (st st' : State W) : Prop :=
  heap st `prefix_of` heap st' /\
  machines st ⊆ machines st' /\
  templates st' = templates st /\
  (registry_ok st -> registry_ok st').

Lemma registry_grows_refl st : registry_grows st st.
Proof. by repeat split. Qed.

Lemma registry_grows_trans st1 st2 st3 :
  registry_grows st1 st2 -> registry_grows st2 st3 -> registry_grows st1 st3.
Proof.
  intros (H1 & H2 & H3 & H4) (H1' & H2' & H3' & H4').
  split; [by etrans|]. split; [by etrans|]. split; [congruence|auto].
Qed.

Lemma registry_grows_same st st' :
  heap st' = heap st -> machines st' = machines st ->
  templates st' = templates st -> registry_grows st st'.
Proof.
  intros Hh Hm Ht. unfold registry_grows, registry_ok.
  rewrite Hh, Hm, Ht. by repeat split.
Qed.

Lemma GetMachineFromImage_registers (image : Image) (st : State W) :
  exists ptr st',
    machineUtil_GetMachineFromImage image st = ((Some ptr, None), st') /\
    machines st' !! Image_Name image = Some ptr /\
    bus st' = bus st /\ trace st' = trace st /\
    registry_grows st st'.
Proof.
  unfold machineUtil_GetMachineFromImage, machineUtil_AddMachine.
  destruct (machines st !! Image_Name image) as [ptr|] eqn:Hm.
  - exists ptr, st. repeat split; try done.
  - eexists _, _. split; [reflexivity|]. simpl.
    split; [by rewrite lookup_insert_eq|]. split; [done|]. split; [done|].
    split; [by apply prefix_app_r|]. split; [by apply insert_subseteq|].
    split; [done|]. intros Hok name ptr. simpl.
    destruct (decide (Image_Name image = name)) as [<-|Hne].
    + rewrite lookup_insert_eq. intros [= <-].
      eexists. split; [by rewrite lookup_app_r, Nat.sub_diag|reflexivity].
    + rewrite lookup_insert_ne by done. intros Hn.
      destruct (Hok name ptr Hn) as (m & Hm' & Hname).
      exists m. split; [|done]. by apply lookup_app_l_Some.
Qed.

Lemma GetMachine_registry (fqdn : string) (st : State W) :
  registry_grows st (machineUtil_GetMachine fqdn st).2 /\
  match (machineUtil_GetMachine fqdn st).1 with
  | (Some ptr, None) => machines (machineUtil_GetMachine fqdn st).2 !! fqdn = Some ptr
  | (None, Some _) =>
      heap (machineUtil_GetMachine fqdn st).2 = heap st /\
      machines (machineUtil_GetMachine fqdn st).2 = machines st
  | _ => False
  end.
Proof.
  unfold machineUtil_GetMachine, machineUtil_GetImage, bind, call, ret.
  destruct (machined_GetImage fqdn (bus st)) as [[e|path] b]; simpl.
  - destruct (strings_HasPrefix _ _ && strings_HasSuffix _ _); simpl;
      (split; [by apply registry_grows_same|done]).
  - match goal with
    | |- context [machineUtil_GetMachineFromImage ?i ?s] =>
        destruct (GetMachineFromImage_registers i s)
          as (ptr & st' & -> & Hreg & _ & _ & Hgrow)
    end.
    simpl. split; [|done].
    eapply registry_grows_trans; [|exact Hgrow]. by apply registry_grows_same.
Qed.

Lemma Clone_GetMachine_registry_aux (src dst : string) (st : State W) :
  registry_grows st (machineUtil_Clone src dst st).2 /\
  match (machineUtil_Clone src dst st).1 with
  | (Some ptr, _) => machines (machineUtil_Clone src dst st).2 !! dst = Some ptr
  | (None, Some _) =>
      heap (machineUtil_Clone src dst st).2 = heap st /\
      machines (machineUtil_Clone src dst st).2 = machines st
  | (None, None) => False
  end.
Proof.
  unfold machineUtil_Clone, machineUtil_GetImage, bind, call, ret.
  destruct (machined_GetImage dst (bus st)) as [[e|path] b]; simpl.
  - destruct (machined_CloneImage src dst false b) as [[e'|] b']; simpl.
    + split; [|done].
      by apply registry_grows_same.
    + match goal with
      | |- context [machineUtil_GetMachine dst ?s] =>
          destruct (GetMachine_registry dst s) as [Hgrow Hres];
          destruct (machineUtil_GetMachine dst s) as [[[ptr|] [err|]] st']
      end; simpl in *; try done.
      all: split; [|done].
      all: eapply registry_grows_trans; [|exact Hgrow].
      all: by apply registry_grows_same.
  - match goal with
    | |- context [machineUtil_GetMachineFromImage ?i ?s] =>
        destruct (GetMachineFromImage_registers i s)
          as (ptr & st' & -> & Hreg & _ & _ & Hgrow)
    end.
    simpl. split; [|done].
    eapply registry_grows_trans; [|exact Hgrow]. by apply registry_grows_same.
Qed.

(** [Clone] and [GetMachine] only ever add to the registry: allocated
    machines stay where they are, registered names keep their handle, the
    templates are untouched and every registered name still leads to a
    machine of that name.  A handle they return is the one registered
    under the target name; when they return none they return an error and
    have allocated and registered nothing. *)
Theorem Clone_GetMachine_registry (src dst : string) (st : State W) :
  (registry_grows st (machineUtil_Clone src dst st).2 /\
   match (machineUtil_Clone src dst st).1 with
   | (Some ptr, _) => machines (machineUtil_Clone src dst st).2 !! dst = Some ptr
   | (None, Some _) =>
       heap (machineUtil_Clone src dst st).2 = heap st /\
       machines (machineUtil_Clone src dst st).2 = machines st
   | (None, None) => False
   end) /\
  (registry_grows st (machineUtil_GetMachine dst st).2 /\
   match (machineUtil_GetMachine dst st).1 with
   | (Some ptr, None) => machines (machineUtil_GetMachine dst st).2 !! dst = Some ptr
   | (None, Some _) =>
       heap (machineUtil_GetMachine dst st).2 = heap st /\
       machines (machineUtil_GetMachine dst st).2 = machines st
   | _ => False
   end).
Proof.
  split; [apply Clone_GetMachine_registry_aux|apply GetMachine_registry].
Qed.

(** Cloning again: after a [Clone] that returned a handle and no error,
    once the image is there a second [Clone] to the same name, from any
    source, makes the one [GetImage] call and returns the same handle with
    [ErrAlreadyExists]; nothing is allocated or registered anew. *)
Theorem Clone_again (src src' dst : string) (st st1 : State W) (ptr : nat)
    (path : ObjectPath) (b : W) :
  machineUtil_Clone src dst st = ((Some ptr, None), st1) ->
  machined_GetImage dst (bus st1) = (inr path, b) ->
  machineUtil_Clone src' dst st1 =
    ((Some ptr, Some ErrAlreadyExists), after_call (GetImage_call dst) b st1).
Proof.
  intros Hfirst Hget.
  assert (machines st1 !! dst = Some ptr) as Hreg.
  { destruct (Clone_GetMachine_registry_aux src dst st) as [_ H].
    by rewrite Hfirst in H. }
  unfold machineUtil_Clone, machineUtil_GetImage, bind, call, ret. rewrite Hget.
  unfold machineUtil_GetMachineFromImage. simpl. by rewrite Hreg.
Qed.

(** The handle of an image at machined's image path is a machine at the
    corresponding machine path: [AddMachine] allocates a [Machine] of the
    image's name whose object path has [/machine/] for [/image/], and
    registers it under that name. *)
Theorem AddMachine_object_path (name rest : string) (st : State W) :
  let image := mkImage name (machinedDbusPath +:+ "/image/" +:+ rest) in
  let st' := (machineUtil_AddMachine image st).2 in
  (machineUtil_AddMachine image st).1 = (Some (length (heap st)), None) /\
  heap st' !! length (heap st)
    = Some (mkMachine name (machinedDbusPath +:+ "/machine/" +:+ rest)) /\
  machines st' !! name = Some (length (heap st)).
Proof.
  unfold machineUtil_AddMachine; simpl. split; [done|]. split.
  - by rewrite lookup_app_r, Nat.sub_diag.
  - by rewrite lookup_insert_eq.
Qed.

End RegistryMore.

Lemma Clone_again_witness :
  machineUtil_Clone "base-template_1" "app"
      (machineUtil_Clone "base-template_2" "app" (new_run sim_host)).2 =
    ((Some 0%nat, Some ErrAlreadyExists),
     after_call (GetImage_call "app")
       (bus (machineUtil_Clone "base-template_2" "app" (new_run sim_host)).2)
       (machineUtil_Clone "base-template_2" "app" (new_run sim_host)).2).
Proof.
  refine (Clone_again "base-template_2" "base-template_1" "app" (new_run sim_host) _
            0%nat "/org/freedesktop/machine1/image/app" _ _ _); reflexivity.
Defined.

(** ** Further properties of the catalog *)

Definition ListImages_call : Event :=
  Call machinedDbusPath (machinedDbusInterface +:+ ".ListImages") [].

Lemma ListTemplates_step_grows acc image :
  acc.1 ⊆ (ListTemplates_step acc image).1.
Proof.
  destruct acc as [c r]. unfold ListTemplates_step.
  destruct (strings_Cut (Image_Name image) "-template_") as [[name version] [|]];
    [|done].
  destruct (strconv_Atoi version) as [ver|]; [|done].
  destruct (c !! Image_Name image) as [t|] eqn:Hc; simpl; [done|].
  by apply insert_subseteq.
Qed.

Lemma ListTemplates_loop_grows images acc :
  acc.1 ⊆ (foldl ListTemplates_step acc images).1.
Proof.
  revert acc. induction images as [|image images IH]; intros acc; simpl; [done|].
  etrans; [apply ListTemplates_step_grows|apply IH].
Qed.

Lemma ListTemplates_step_again c r image (c2 : gmap string Template) :
  (ListTemplates_step (c, r) image).1 ⊆ c2 ->
  ListTemplates_step (c2, r) image = (c2, (ListTemplates_step (c, r) image).2).
Proof.
  unfold ListTemplates_step.
  destruct (strings_Cut (Image_Name image) "-template_") as [[name version] [|]];
    [|done].
  destruct (strconv_Atoi version) as [ver|]; [|done].
  destruct (c !! Image_Name image) as [t|] eqn:Hc; simpl; intros Hsub.
  - by rewrite (lookup_weaken _ _ _ _ Hc Hsub).
  - by rewrite (lookup_weaken _ _ _ _ (lookup_insert_eq c _ _) Hsub).
Qed.

Lemma ListTemplates_loop_again images c r (c2 : gmap string Template) :
  (foldl ListTemplates_step (c, r) images).1 ⊆ c2 ->
  foldl ListTemplates_step (c2, r) images
    = (c2, (foldl ListTemplates_step (c, r) images).2).
Proof.
  revert c r. induction images as [|image images IH]; intros c r Hsub; [done|].
  cbn [foldl] in *.
  rewrite (ListTemplates_step_again c r image c2).
  - destruct (ListTemplates_step (c, r) image) as [c1 r1]. by apply IH.
  - etrans; [|exact Hsub]. apply ListTemplates_loop_grows.
Qed.

Section CatalogMore.
Context {W : Type} `{bus_impl : Bus W}.
Variable sort_Sort : TemplateVersions -> TemplateVersions.

(** [ListTemplates] gives no partial catalog: when the [ListImages] call
    fails, or one of its rows is not an image row, it returns that error
    and no catalog, and has done nothing but the call; the cache of
    templates in particular is as before. *)
Theorem ListTemplates_listing_error (defaultTemplate : string) (st : State W) :
  match machined_ListImages (bus st) with
  | (inl err, b) =>
      machineUtil_ListTemplates sort_Sort defaultTemplate st
        = ((None, Some err), after_call ListImages_call b st)
  | (inr rows, b) =>
      forall err, (listImages_loop rows []).2 = Some err ->
        machineUtil_ListTemplates sort_Sort defaultTemplate st
          = ((None, Some err), after_call ListImages_call b st)
  end.
Proof.
  unfold machineUtil_ListTemplates, machineUtil_listImages, bind, call, ret.
  destruct (machined_ListImages (bus st)) as [[err|rows] b]; simpl; [done|].
  intros err. destruct (listImages_loop rows []) as [images [err'|]]; simpl; [|done].
  by intros [= ->].
Qed.

(** [ListTemplates] never forgets: every template in the cache stays there
    unchanged, whatever the listing, and the machines are not touched. *)
Theorem ListTemplates_cache_grows (defaultTemplate : string) (st : State W) :
  templates st ⊆ templates (machineUtil_ListTemplates sort_Sort defaultTemplate st).2 /\
  heap (machineUtil_ListTemplates sort_Sort defaultTemplate st).2 = heap st /\
  machines (machineUtil_ListTemplates sort_Sort defaultTemplate st).2 = machines st.
Proof.
  unfold machineUtil_ListTemplates, machineUtil_listImages, bind, call, ret.
  destruct (machined_ListImages (bus st)) as [[err|rows] b]; simpl; [done|].
  destruct (listImages_loop rows []) as [images [err'|]]; simpl; [done|].
  pose proof (ListTemplates_loop_grows images (templates st, ∅)) as Hgrow.
  by destruct (foldl ListTemplates_step (templates st, ∅) images) as [c' r'].
Qed.

(** Listing again: after a [ListTemplates] that returned a catalog, a
    second one on the same listing returns the same groups (under the
    default it is given) and leaves the cache as it is; it has done
    nothing but the call. *)
Theorem ListTemplates_again (d d' : string) (st st1 : State W) (T : Templates)
    (rows : list (list Variant)) (b b' : W) :
  machined_ListImages (bus st) = (inr rows, b) ->
  machineUtil_ListTemplates sort_Sort d st = ((Some T, None), st1) ->
  machined_ListImages (bus st1) = (inr rows, b') ->
  machineUtil_ListTemplates sort_Sort d' st1
    = ((Some (mkTemplates d' (Templates_Templates T)), None),
       after_call ListImages_call b' st1).
Proof.
  intros Hlist Hfirst Hlist'. revert Hfirst.
  unfold machineUtil_ListTemplates at 1, machineUtil_listImages, bind, call, ret.
  rewrite Hlist. simpl.
  destruct (listImages_loop rows []) as [images [err|]] eqn:Hloop; simpl; [done|].
  destruct (foldl ListTemplates_step (templates st, ∅) images) as [c' r'] eqn:Hfold.
  intros [= <- <-]. simpl in Hlist'.
  unfold machineUtil_ListTemplates, machineUtil_listImages, bind, call, ret.
  simpl. rewrite Hlist'. simpl. rewrite Hloop. simpl.
  rewrite (ListTemplates_loop_again images (templates st) ∅ c')
    by (by rewrite Hfold).
  by rewrite Hfold.
Qed.

End CatalogMore.

Lemma ListTemplates_again_witness :
  let st1 := (machineUtil_ListTemplates (merge_sort Template_le) "base"
                (new_run sim_host)).2 in
  machineUtil_ListTemplates (merge_sort Template_le) "" st1
    = ((Some (mkTemplates "" (Templates_Templates sim_catalog)), None),
       after_call ListImages_call sim_host st1).
Proof.
  refine (ListTemplates_again (merge_sort Template_le) "base" "" (new_run sim_host) _
            sim_catalog (map sim_image_row (sim_images sim_host)) sim_host sim_host
            _ _ _); reflexivity.
Defined.

(** ** Removal

    [RemoveImage] is one more method of [systemd-machined]. *)

Class BusRemoval (W : Type) := {
  machined_RemoveImage : string -> W -> option error * W
}.

Definition RemoveImage_call (image : string) : Event :=
  Call machinedDbusPath (machinedDbusInterface +:+ ".RemoveImage") [image].

Section Removal.
Context {W : Type} `{bus_impl : Bus W} `{removal_impl : BusRemoval W}.
Local Open Scope run_scope.

(** [func (c *machineUtil) Remove(image string) error], the loops of
    [Machine.Stop] given [polls] rounds.  [None] is the run-time panic of
    [machine.Stop()] on a handle that is not allocated. *)
Definition machineUtil_Remove (polls : nat) (image : string) :
    M W (option (outcome (option error))) :=
  fun st =>
    let remove_image : M W (option (outcome (option error))) :=
      let* call_Err := call (RemoveImage_call image) (machined_RemoveImage image) in
      match call_Err with
      | Some err => ret (Some (Returned (Some err)))
      | None =>
          fun st =>
            (Some (Returned None),
             mkState (bus st) (trace st) (heap st)
                     (delete image (machines st)) (delete image (templates st)))
      end in
    match machines st !! image with
    | Some ptr =>
        match heap st !! ptr with
        | None => (None, st)
        | Some machine =>
            let '(err, st1) := Machine_Stop polls machine st in
            match err with
            | StillWaiting => (Some StillWaiting, st1)
            | Returned (Some err) => (Some (Returned (Some err)), st1)
            | Returned None => remove_image st1
            end
        end
    | None => remove_image st
    end.

(** [func (t *Template) Remove() error] *)
Definition Template_Remove (polls : nat) (t : Template) :
    M W (option (outcome (option error))) :=
  machineUtil_Remove polls (Template_Image t).

(** [func (m *Machine) Remove() error] *)
Definition Machine_Remove (polls : nat) (m : Machine) :
    M W (option (outcome (option error))) :=
  machineUtil_Remove polls (Machine_Name m).

(** [func (m *Machine) Exists() bool] *)
Definition Machine_Exists (m : Machine) : M W bool :=
  let* (_, err) := machineUtil_GetImage (Machine_Name m) in
  match err with
  | Some _ => ret false
  | None => ret true
  end.

(** A call that leaves the machines, their registry and the cache of
    templates as they are. *)
Definition keeps_registry {A} (m : M W A) : Prop :=
  forall st, heap (m st).2 = heap st /\
             machines (m st).2 = machines st /\
             templates (m st).2 = templates st.

Lemma keeps_ret {A} (a : A) : keeps_registry (ret a).
Proof. by intros st. Qed.

Lemma keeps_bind {A B} (m : M W A) (k : A -> M W B) :
  keeps_registry m -> (forall a, keeps_registry (k a)) -> keeps_registry (bind m k).
Proof.
  intros Hm Hk st. unfold bind. specialize (Hm st).
  destruct (m st) as [a st1]. simpl in Hm. destruct Hm as (H1 & H2 & H3).
  destruct (Hk a st1) as (H1' & H2' & H3'). repeat split; congruence.
Qed.

Lemma keeps_call {A} (ev : Event) (f : W -> A * W) : keeps_registry (call ev f).
Proof. intros st. unfold call. by destruct (f (bus st)). Qed.

Lemma keeps_emit (ev : Event) : keeps_registry (emit (W:=W) ev).
Proof. by intros st. Qed.

Ltac keeps_step :=
  first [ apply keeps_ret | apply keeps_call | apply keeps_emit
        | apply keeps_bind; [|intros ?] ].

Lemma Machine_Status_keeps m : keeps_registry (Machine_Status m).
Proof. unfold Machine_Status. keeps_step; [keeps_step|]. destruct a; keeps_step. Qed.

Lemma Machine_Running_keeps m : keeps_registry (Machine_Running m).
Proof.
  unfold Machine_Running. keeps_step; [apply Machine_Status_keeps|].
  destruct a as [result [err|]]; keeps_step.
Qed.

Lemma Machine_Addresses_keeps m : keeps_registry (Machine_Addresses m).
Proof. unfold Machine_Addresses. keeps_step; [keeps_step|]. destruct a; keeps_step. Qed.

Lemma Machine_WaitForAddress_keeps polls m :
  keeps_registry (Machine_WaitForAddress polls m).
Proof.
  induction polls as [|polls IH]; simpl; [keeps_step|].
  keeps_step; [apply Machine_Addresses_keeps|].
  destruct a as [addrs [err|]]; [keeps_step|].
  destruct (0 <? length (WaitForAddress_collect addrs []))%nat; [keeps_step|].
  keeps_step; [apply keeps_emit|done].
Qed.

Lemma Job_Wait_keeps polls job : keeps_registry (Job_Wait polls job).
Proof.
  induction polls as [|polls IH]; simpl; [keeps_step|].
  keeps_step; [keeps_step|]. destruct a; [keeps_step|].
  keeps_step; [apply keeps_emit|done].
Qed.

Lemma Start_wait_unit_keeps polls m : keeps_registry (Start_wait_unit polls m).
Proof.
  induction polls as [|polls IH]; simpl; [keeps_step|].
  keeps_step; [apply Machine_Status_keeps|].
  destruct a as [result [err|]].
  - keeps_step; keeps_step.
  - destruct (String.eqb result "running"); [keeps_step|].
    keeps_step; [apply keeps_emit|done].
Qed.

Lemma Stop_wait_unit_keeps polls m : keeps_registry (Stop_wait_unit polls m).
Proof.
  induction polls as [|polls IH]; simpl; [keeps_step|].
  keeps_step; [apply Machine_Running_keeps|].
  destruct a; [|keeps_step]. keeps_step; [apply keeps_emit|done].
Qed.

Lemma machineUtil_Start_keeps unit : keeps_registry (machineUtil_Start unit).
Proof. unfold machineUtil_Start. keeps_step; [keeps_step|]. destruct a; keeps_step. Qed.

Lemma machineUtil_Stop_keeps unit : keeps_registry (machineUtil_Stop unit).
Proof. unfold machineUtil_Stop. keeps_step; [keeps_step|]. destruct a; keeps_step. Qed.

Lemma Machine_Start_keeps polls m : keeps_registry (Machine_Start polls m).
Proof.
  unfold Machine_Start. keeps_step; [apply Machine_Running_keeps|].
  destruct a; [keeps_step|]. keeps_step; [keeps_step|].
  keeps_step; [apply machineUtil_Start_keeps|].
  destruct a0 as [[job|] [err|]]; try keeps_step.
  - apply Job_Wait_keeps.
  - destruct a0 as [[err|]|]; try keeps_step; [keeps_step|].
    apply Start_wait_unit_keeps.
Qed.

Lemma Machine_Stop_keeps polls m : keeps_registry (Machine_Stop polls m).
Proof.
  unfold Machine_Stop. keeps_step; [apply Machine_Running_keeps|].
  destruct a; simpl; [|keeps_step].
  keeps_step; [apply machineUtil_Stop_keeps|].
  destruct a as [[job|] [err|]]; try keeps_step.
  - apply Job_Wait_keeps.
  - destruct a as [[err|]|]; try keeps_step.
    apply Stop_wait_unit_keeps.
Qed.

Lemma Machine_Exists_keeps m : keeps_registry (Machine_Exists m).
Proof.
  unfold Machine_Exists, machineUtil_GetImage.
  keeps_step; [keeps_step; [keeps_step|destruct a; keeps_step]|].
  destruct a as [image [err|]]; keeps_step.
Qed.

(** The methods of a [Machine] that talk to the bus ([Status], [Running],
    [Addresses], [WaitForAddress], [Start], [Stop], [Exists]) leave the
    machines, the registry and the cache of templates as they are,
    however they end. *)
Theorem Machine_methods_keep_registry (polls : nat) (m : Machine) :
  keeps_registry (Machine_Status m) /\
  keeps_registry (Machine_Running m) /\
  keeps_registry (Machine_Addresses m) /\
  keeps_registry (Machine_WaitForAddress polls m) /\
  keeps_registry (Machine_Start polls m) /\
  keeps_registry (Machine_Stop polls m) /\
  keeps_registry (Machine_Exists m).
Proof.
  repeat split;
    first [ apply Machine_Status_keeps | apply Machine_Running_keeps
          | apply Machine_Addresses_keeps | apply Machine_WaitForAddress_keeps
          | apply Machine_Start_keeps | apply Machine_Stop_keeps
          | apply Machine_Exists_keeps ].
Qed.

Lemma registry_ok_delete image (st st' : State W) :
  heap st' = heap st -> machines st' = delete image (machines st) ->
  registry_ok st -> registry_ok st'.
Proof.
  intros Hh Hm Hok name ptr. rewrite Hh, Hm. intros Hl.
  apply lookup_delete_Some in Hl as [_ Hl]. by apply Hok.
Qed.

(** The [machine.Stop()] of [Remove]: the [Stop] of the machine registered
    under the name, when there is one. *)
Definition Remove_stop (polls : nat) (image : string) : M W (outcome (option error)) :=
  fun st =>
    match machines st !! image with
    | Some ptr =>
        match heap st !! ptr with
        | Some machine => Machine_Stop polls machine st
        | None => (Returned None, st)
        end
    | None => (Returned None, st)
    end.

(** An event that is no [RemoveImage] call. *)
Definition not_removal (ev : Event) : Prop :=
  match ev with
  | Call _ method _ => method <> machinedDbusInterface +:+ ".RemoveImage"
  | _ => True
  end.

(** A call all of whose events satisfy [P]. *)
Definition emits (P : Event -> Prop) {A} (m : M W A) : Prop :=
  forall st, exists evs, trace (m st).2 = trace st ++ evs /\ Forall P evs.

Lemma emits_ret P {A} (a : A) : emits P (ret a).
Proof. intros st. exists []. by rewrite app_nil_r. Qed.

Lemma emits_bind P {A B} (m : M W A) (k : A -> M W B) :
  emits P m -> (forall a, emits P (k a)) -> emits P (bind m k).
Proof.
  intros Hm Hk st. unfold bind. destruct (Hm st) as (evs1 & H1 & HP1).
  destruct (m st) as [a st1]. simpl in H1.
  destruct (Hk a st1) as (evs2 & H2 & HP2).
  exists (evs1 ++ evs2). split; [by rewrite H2, H1, app_assoc|by apply Forall_app].
Qed.

Lemma emits_call P {A} (ev : Event) (f : W -> A * W) : P ev -> emits P (call ev f).
Proof.
  intros HP st. unfold call. destruct (f (bus st)). exists [ev]. split; [done|].
  by constructor.
Qed.

Lemma emits_emit P (ev : Event) : P ev -> emits P (emit (W:=W) ev).
Proof. intros HP st. exists [ev]. split; [done|]. by constructor. Qed.

Ltac no_removal := first [ exact I | vm_compute; discriminate ].

Ltac emits_step :=
  first [ apply emits_ret | apply emits_call; no_removal | apply emits_emit; no_removal
        | apply emits_bind; [|intros ?] ].

Lemma Machine_Running_emits m : emits not_removal (Machine_Running m).
Proof.
  unfold Machine_Running, Machine_Status.
  emits_step; [emits_step; [emits_step|destruct a; emits_step]|].
  destruct a as [result [err|]]; emits_step.
Qed.

Lemma Job_Wait_emits polls job : emits not_removal (Job_Wait polls job).
Proof.
  induction polls as [|polls IH]; simpl; [emits_step|].
  emits_step; [emits_step|]. destruct a; [emits_step|].
  emits_step; [apply emits_emit; no_removal|done].
Qed.

Lemma Stop_wait_unit_emits polls m : emits not_removal (Stop_wait_unit polls m).
Proof.
  induction polls as [|polls IH]; simpl; [emits_step|].
  emits_step; [apply Machine_Running_emits|].
  destruct a; [|emits_step]. emits_step; [apply emits_emit; no_removal|done].
Qed.

Lemma Machine_Stop_emits polls m : emits not_removal (Machine_Stop polls m).
Proof.
  unfold Machine_Stop. emits_step; [apply Machine_Running_emits|].
  destruct a; simpl; [|emits_step].
  emits_step.
  { unfold machineUtil_Stop. emits_step; [emits_step|]. destruct a; emits_step. }
  destruct a as [[job|] [err|]]; try emits_step.
  - apply Job_Wait_emits.
  - destruct a as [[err|]|]; try emits_step.
    apply Stop_wait_unit_emits.
Qed.

(** [Remove] forgets an image exactly when [RemoveImage] said it is
    removed.  On a registry whose handles are all allocated: [Remove]
    first stops the machine registered under the name, if any, which
    makes no [RemoveImage] call and leaves machines, registry and cache
    as they are; when that [Stop] returns an error or is still waiting,
    [Remove] returns the same and does nothing more; otherwise it makes
    the one [RemoveImage] call, and when this answers with an error it
    returns that error with registry and cache as before, and when it
    answers without it returns [nil] with the entries of that name, and
    only those, deleted from the registry and from the cache.  Registered
    handles stay valid and the cache stays well-formed. *)
Theorem Remove_forgets_only_removed (polls : nat) (image : string) (st : State W) :
  registry_ok st ->
  let stopped := Remove_stop polls image st in
  let answer := machined_RemoveImage image (bus stopped.2) in
  let called := after_call (RemoveImage_call image) answer.2 stopped.2 in
  machineUtil_Remove polls image st =
    match stopped.1 with
    | Returned None =>
        match answer.1 with
        | Some err => (Some (Returned (Some err)), called)
        | None =>
            (Some (Returned None),
             mkState (bus called) (trace called) (heap st)
                     (delete image (machines st)) (delete image (templates st)))
        end
    | not_stopped => (Some not_stopped, stopped.2)
    end /\
  (heap stopped.2 = heap st /\ machines stopped.2 = machines st /\
   templates stopped.2 = templates st /\ heap called = heap st /\
   machines called = machines st /\ templates called = templates st) /\
  (exists evs, trace stopped.2 = trace st ++ evs /\ Forall not_removal evs) /\
  registry_ok (machineUtil_Remove polls image st).2 /\
  (cache_ok (templates st) -> cache_ok (templates (machineUtil_Remove polls image st).2)).
Proof.
  intros Hok stopped answer called.
  assert (heap stopped.2 = heap st /\ machines stopped.2 = machines st /\
          templates stopped.2 = templates st) as (Hh & Hm & Ht).
  { unfold stopped, Remove_stop.
    destruct (machines st !! image) as [ptr|]; [|done].
    destruct (heap st !! ptr) as [m|]; [|done]. apply Machine_Stop_keeps. }
  assert (machineUtil_Remove polls image st =
    match stopped.1 with
    | Returned None =>
        match answer.1 with
        | Some err => (Some (Returned (Some err)), called)
        | None =>
            (Some (Returned None),
             mkState (bus called) (trace called) (heap st)
                     (delete image (machines st)) (delete image (templates st)))
        end
    | not_stopped => (Some not_stopped, stopped.2)
    end) as Heq.
  { unfold called, answer. revert Hh Hm Ht. unfold stopped. clear stopped answer called.
    unfold machineUtil_Remove, Remove_stop.
    destruct (machines st !! image) as [ptr|] eqn:Hreg.
    - destruct (Hok image ptr Hreg) as (m & -> & _).
      destruct (Machine_Stop polls m st) as [[[err|]|] st1]; simpl; [done| |done].
      intros <- <- <-. unfold bind, call, ret, after_call.
      by destruct (machined_RemoveImage image (bus st1)) as [[err|] b].
    - simpl. intros _ _ _. unfold bind, call, ret, after_call.
      by destruct (machined_RemoveImage image (bus st)) as [[err|] b]. }
  assert (heap called = heap st /\ machines called = machines st /\
          templates called = templates st) as (Hhc & Hmc & Htc) by done.
  split; [exact Heq|]. split; [done|]. split.
  { unfold stopped, Remove_stop.
    destruct (machines st !! image) as [ptr|]; [|exists []; by rewrite app_nil_r].
    destruct (heap st !! ptr) as [m|]; [|exists []; by rewrite app_nil_r].
    apply Machine_Stop_emits. }
  rewrite Heq. clearbody called. clearbody answer. clearbody stopped.
  assert (forall st' : State W, heap st' = heap st -> machines st' = machines st ->
            registry_ok st') as Hsame.
  { intros st' Hh' Hm' name ptr. rewrite Hm', Hh'. apply Hok. }
  destruct stopped.1 as [[err|]|]; cbn [fst snd].
  - split; [by apply Hsame|by rewrite Ht].
  - destruct answer.1 as [err|]; cbn [fst snd].
    + split; [by apply Hsame|by rewrite Htc].
    + split; [by apply (registry_ok_delete image st)|apply cache_ok_delete].
  - split; [by apply Hsame|by rewrite Ht].
Qed.

End Removal.

Definition sim_removal : BusRemoval Sim := {|
  machined_RemoveImage name b :=
    match assoc name (sim_images b) with
    | Some _ =>
        (None,
         mkSim (List.filter (fun entry => negb (String.eqb entry.1 name)) (sim_images b))
               (sim_states b) (sim_addresses b))
    | None => (Some (BusError ("No image '" +:+ name +:+ "' known")), b)
    end
|}.

Lemma registry_ok_new_run {W} (b : W) : registry_ok (new_run b).
Proof. intros name ptr Hl. simpl in Hl. by rewrite lookup_empty in Hl. Qed.

(** A run on [sim_closing] that holds a handle of [web]. *)
Definition sim_registered : State Sim :=
  (machineUtil_GetMachine "web" (new_run sim_closing)).2.

Example Remove_scenario :
  machines sim_registered !! "web" = Some 0%nat /\
  (machineUtil_Remove (removal_impl:=sim_removal) 3 "web" sim_registered).1
    = Some (Returned None) /\
  (machineUtil_Remove (removal_impl:=sim_removal) 3 "base-template_1" sim_registered).1
    = Some (Returned None) /\
  (machineUtil_Remove (removal_impl:=sim_removal) 3 "db" sim_registered).1
    = Some (Returned (Some (BusError "No image 'db' known"))).
Proof. repeat split; reflexivity. Qed.

Lemma Remove_forgets_only_removed_witness :
  machineUtil_Remove (removal_impl:=sim_removal) 3 "web" sim_registered =
    (Some (Returned None),
     mkState (machined_RemoveImage (BusRemoval:=sim_removal) "web" sim_closing).2
             (trace sim_registered ++ [Status_call web; RemoveImage_call "web"])
             (heap sim_registered) ∅ ∅).
Proof.
  refine (proj1 (Remove_forgets_only_removed (removal_impl:=sim_removal) 3 "web"
                   sim_registered _)).
  apply (GetMachine_registry "web" (new_run sim_closing)), registry_ok_new_run.
Defined.

(** ** The unit files of a machine *)

Lemma string_app_length (x t : string) :
  String.length (x +:+ t) = (String.length x + String.length t)%nat.
Proof.
  induction x as [|a x IH]; [done|].
  change (String a x +:+ t) with (String a (x +:+ t)). simpl. by rewrite IH.
Qed.

Lemma string_app_inj_r (x y t : string) : x +:+ t = y +:+ t -> x = y.
Proof.
  intros H.
  assert (String.length x = String.length y) as Hlen.
  { apply (f_equal String.length) in H. rewrite !string_app_length in H. lia. }
  revert y H Hlen. induction x as [|a x IH]; intros [|b y] H Hlen; try done.
  change (String a (x +:+ t) = String b (y +:+ t)) in H.
  injection H as -> H. f_equal. apply IH; [done|]. simpl in Hlen. lia.
Qed.

Section MachineUnits.
Context `{codec : Util.UnitCodec}.

(** [func (m *Machine) EnsureOptions(log *slog.Logger, opts []*unit.UnitOption)
        (bool, error)] *)
Definition Machine_EnsureOptions (log : option Util.Logger) (m : Machine)
    (opts : list Util.UnitOption) (w : Util.World) :
    (bool * option Util.error) * Util.World :=
  let file_path := "/etc/systemd/nspawn/" +:+ Machine_Name m +:+ ".nspawn" in
  Util.EnsureUnit log file_path opts w.

(** [func (m *Machine) EnsureOverride(log *slog.Logger, opts []*unit.UnitOption)
        (bool, error)] *)
Definition Machine_EnsureOverride (log : option Util.Logger) (m : Machine)
    (opts : list Util.UnitOption) (w : Util.World) :
    (bool * option Util.error) * Util.World :=
  let file_path :=
    "/etc/systemd/system/systemd-nspawn@" +:+ Machine_Name m +:+
    ".service.d/machineutil.conf" in
  Util.EnsureUnit log file_path opts w.

(** The two unit files of a machine are kept apart: [EnsureOptions] and
    [EnsureOverride] each touch one file, determined by the machine's
    name; [EnsureOptions] leaves the override file of every machine and
    the options file of every machine of another name as they are, and
    [EnsureOverride] likewise. *)
Theorem Machine_Ensure_separate (log : option Util.Logger) (m : Machine)
    (opts : list Util.UnitOption) (w : Util.World) (other : string) :
  let options_of name := "/etc/systemd/nspawn/" +:+ name +:+ ".nspawn" in
  let override_of name :=
    "/etc/systemd/system/systemd-nspawn@" +:+ name +:+ ".service.d/machineutil.conf" in
  (Util.touches_only (options_of (Machine_Name m)) w (Machine_EnsureOptions log m opts w).2 /\
   Util.files (Machine_EnsureOptions log m opts w).2 !! override_of other
     = Util.files w !! override_of other /\
   (other <> Machine_Name m ->
    Util.files (Machine_EnsureOptions log m opts w).2 !! options_of other
      = Util.files w !! options_of other)) /\
  (Util.touches_only (override_of (Machine_Name m)) w
     (Machine_EnsureOverride log m opts w).2 /\
   Util.files (Machine_EnsureOverride log m opts w).2 !! options_of other
     = Util.files w !! options_of other /\
   (other <> Machine_Name m ->
    Util.files (Machine_EnsureOverride log m opts w).2 !! override_of other
      = Util.files w !! override_of other)).
Proof.
  intros options_of override_of.
  assert (forall n n', options_of n <> override_of n') as Hdiff by done.
  assert (forall n n', options_of n = options_of n' -> n = n') as Hopt.
  { intros n n' H. apply (String.app_inj "/etc/systemd/nspawn/") in H.
    by apply string_app_inj_r in H. }
  assert (forall n n', override_of n = override_of n' -> n = n') as Hovr.
  { intros n n' H. apply (String.app_inj "/etc/systemd/system/systemd-nspawn@") in H.
    by apply string_app_inj_r in H. }
  unfold Machine_EnsureOptions, Machine_EnsureOverride.
  split.
  - pose proof (Util.EnsureUnit_touches log (options_of (Machine_Name m)) opts w)
      as Ht.
    split; [exact Ht|]. destruct Ht as (_ & Hq & _).
    split; [apply Hq; intros H; by apply (Hdiff (Machine_Name m) other)|].
    intros Hne. apply Hq. intros H. by apply Hopt in H.
  - pose proof (Util.EnsureUnit_touches log (override_of (Machine_Name m)) opts w)
      as Ht.
    split; [exact Ht|]. destruct Ht as (_ & Hq & _).
    split; [apply Hq; intros H; by apply (Hdiff other (Machine_Name m))|].
    intros Hne. apply Hq. intros H. by apply Hovr in H.
Qed.

End MachineUnits.

End MachineUtil.
